(** * Verification of the media ingestion core of process_files.py

    A shallow embedding of [src/python/process_files.py]: the file
    encryptor, the catalog (queue, media and key tables), the job processor,
    the queue worker, the image and video thumbnail protocols and the start-up
    sequence of [main].  Every definition follows the Python function of the
    same name; external libraries (AES, SHA-256, Pillow, ffmpeg, the operating
    system's random source) enter as section variables or as oracles carried
    in the state. *)

From Stdlib Require Import ZArith NArith List Lia.
From Stdlib.Strings Require Import String Ascii Byte.
From Stdlib Require Import Floats Uint63.
From stdpp Require Import gmap strings list fin_maps.

Local Open Scope string_scope.
Local Open Scope list_scope.
Local Open Scope stdpp_scope.
Local Open Scope nat_scope.

(** ** Python exceptions and results *)

Inductive exn : Type :=
| ValueError (msg : string)
| OSError (msg : string)
| RecursionError
| DatabaseError (msg : string)
| Exception (msg : string).

(** [str(e)] as used for the queue's error message. *)
Definition exn_str (e : exn) : string :=
  match e with
  | ValueError m | OSError m | DatabaseError m | Exception m => m
  | RecursionError => "maximum recursion depth exceeded"
  end.

(** psycopg2.OperationalError, InterfaceError and DatabaseError are all
    subclasses of psycopg2.DatabaseError; one constructor stands for them. *)
Definition is_db_error (e : exn) : bool :=
  match e with DatabaseError _ => true | _ => false end.

Inductive result (A : Type) : Type :=
| Ok (a : A)
| Raise (e : exn).
Arguments Ok {A} a.
Arguments Raise {A} e.

(** ** Bytes *)

Abbreviation bytes := (list byte).

Definition byte_of_nat (n : nat) : byte :=
  match Byte.of_nat n with Some b => b | None => x00 end.

Definition byte_xor (a b : byte) : byte :=
  match Byte.of_N (N.lxor (Byte.to_N a) (Byte.to_N b)) with
  | Some c => c
  | None => x00
  end.

Fixpoint xor_bytes (a b : bytes) : bytes :=
  match a, b with
  | x :: a', y :: b' => byte_xor x y :: xor_bytes a' b'
  | _, _ => []
  end.

(** ** Hexadecimal text: [bytes.fromhex] and [bytes.hex] *)

Definition hex_digit (n : N) : ascii :=
  match n with
  | 0 => "0" | 1 => "1" | 2 => "2" | 3 => "3" | 4 => "4" | 5 => "5"
  | 6 => "6" | 7 => "7" | 8 => "8" | 9 => "9" | 10 => "a" | 11 => "b"
  | 12 => "c" | 13 => "d" | 14 => "e" | _ => "f"
  end%N%char.

Definition hex_value (c : ascii) : option N :=
  let n := N_of_ascii c in
  if ((48 <=? n) && (n <=? 57))%N then Some (n - 48)%N
  else if ((97 <=? n) && (n <=? 102))%N then Some (n - 87)%N
  else if ((65 <=? n) && (n <=? 70))%N then Some (n - 55)%N
  else None.

(** [secrets.token_hex] and [bytes.hex]: two lower-case digits per byte. *)
Fixpoint hex (b : bytes) : string :=
  match b with
  | [] => EmptyString
  | x :: b' =>
      String (hex_digit (Byte.to_N x / 16)) (String (hex_digit (Byte.to_N x mod 16)) (hex b'))
  end.

Definition is_ascii_space (c : ascii) : bool :=
  let n := N_of_ascii c in
  ((n =? 32) || ((9 <=? n) && (n <=? 13)))%N.

(** [bytes.fromhex]: two hexadecimal digits per byte, either case, ASCII
    whitespace between bytes skipped; [None] stands for its ValueError. *)
Fixpoint fromhex (s : string) : option bytes :=
  match s with
  | EmptyString => Some []
  | String c s' =>
      if is_ascii_space c then fromhex s'
      else
        match s' with
        | EmptyString => None
        | String d s'' =>
            match hex_value c, hex_value d with
            | Some h, Some l =>
                match Byte.of_N (h * 16 + l), fromhex s'' with
                | Some x, Some r => Some (x :: r)
                | _, _ => None
                end
            | _, _ => None
            end
        end
  end.

(** ** PKCS#7 padding as written in [encrypt_file] *)

(** [pad_len = 16 - (len(plaintext) % 16)] *)
Definition pad_len (n : nat) : nat := 16 - n mod 16.

(** [plaintext + bytes([pad_len]) * pad_len] *)
Definition pkcs7_pad (p : bytes) : bytes :=
  p ++ repeat (byte_of_nat (pad_len (length p))) (pad_len (length p)).

(** Modelled from the spec: the decrypting side is not in this repository's
    source; "with PKCS#7 stripped" means dropping as many trailing bytes as
    the last byte says. *)
Definition pkcs7_unpad (p : bytes) : bytes :=
  take (length p - Byte.to_nat (List.last p x00)) p.

(** ** CBC mode over a block cipher *)

(** Splitting a byte string into 16-byte blocks. *)
Fixpoint chunks16 (fuel : nat) (l : bytes) : list bytes :=
  match fuel with
  | 0 => []
  | S fuel' =>
      match l with
      | [] => []
      | _ => take 16 l :: chunks16 fuel' (drop 16 l)
      end
  end.

Definition blocks16 (l : bytes) : list bytes := chunks16 (length l) l.

(** [algorithms.AES(key)] accepts keys of 128, 192 and 256 bits and raises
    ValueError for every other length. *)
Definition valid_aes_key (key : bytes) : bool :=
  let n := length key in
  (n =? 16) || (n =? 24) || (n =? 32).

Section CBC.

(** The block cipher of the [cryptography] package and its inverse:
    [aes_block key block]. *)
Variable aes_block : bytes -> bytes -> bytes.
Variable aes_block_inv : bytes -> bytes -> bytes.

Fixpoint cbc_encrypt_blocks (key prev : bytes) (bs : list bytes) : list bytes :=
  match bs with
  | [] => []
  | b :: bs' =>
      let c := aes_block key (xor_bytes b prev) in
      c :: cbc_encrypt_blocks key c bs'
  end.

(** [encryptor.update(data) + encryptor.finalize()] for
    [Cipher(algorithms.AES(key), modes.CBC(iv))], on data whose length is a
    multiple of the block size. *)
Definition cbc_encrypt (key iv data : bytes) : bytes :=
  concat (cbc_encrypt_blocks key iv (blocks16 data)).

Fixpoint cbc_decrypt_blocks (key prev : bytes) (cs : list bytes) : list bytes :=
  match cs with
  | [] => []
  | c :: cs' => xor_bytes (aes_block_inv key c) prev :: cbc_decrypt_blocks key c cs'
  end.

(** Modelled from the spec: [AES-128-CBC-decrypt(key, IV, ciphertext)], the
    operation of the consumer of an encrypted artifact; the source only
    encrypts. *)
Definition cbc_decrypt (key iv data : bytes) : bytes :=
  concat (cbc_decrypt_blocks key iv (blocks16 data)).

(** Modelled from the spec: reading an artifact [IV || ciphertext] back:
    split off the 16-byte IV, decrypt, strip the padding. *)
Definition decrypt_artifact (key artifact : bytes) : bytes :=
  pkcs7_unpad (cbc_decrypt key (take 16 artifact) (drop 16 artifact)).

End CBC.

(** ** The file encryptor: [MediaProcessor.encrypt_file] *)

(** What the body of the [try] block of [encrypt_file] does on one run: it
    runs to its end, or something in it raises before the output file is
    created (open, read, cipher set-up), or after (write, stat, unlink). *)
Inductive try_outcome : Type := Runs | RaisesBeforeWrite | RaisesAfterWrite.

Inductive log_event : Type :=
| LogMissing (p : string)
| LogEmpty (p : string)
| LogSuspiciouslySmall (n : nat)
| LogPlaceholder (p : string)
| LogEncryptedTooSmall (n : nat)
| LogEncryptionFailed (p : string).

(** The part of the machine the encryptor touches: the files, the operating
    system's random source (a stream of bytes and a read position), the
    outcomes of the coming runs of the [try] block, and the log. *)
Record world : Type := {
  fs : gmap string bytes;
  entropy : nat -> byte;
  cursor : nat;
  io_faults : list try_outcome;
  log : list log_event }.

Definition set_fs (f : gmap string bytes -> gmap string bytes) (w : world) : world :=
  {| fs := f (fs w); entropy := entropy w; cursor := cursor w;
     io_faults := io_faults w; log := log w |}.

Definition add_log (e : log_event) (w : world) : world :=
  {| fs := fs w; entropy := entropy w; cursor := cursor w;
     io_faults := io_faults w; log := log w ++ [e] |}.

(** [os.urandom(n)] *)
Definition os_urandom (n : nat) (w : world) : bytes * world :=
  (map (entropy w) (seq (cursor w) n),
   {| fs := fs w; entropy := entropy w; cursor := cursor w + n;
      io_faults := io_faults w; log := log w |}).

Definition next_outcome (w : world) : try_outcome * world :=
  match io_faults w with
  | [] => (Runs, w)
  | o :: rest =>
      (o, {| fs := fs w; entropy := entropy w; cursor := cursor w;
             io_faults := rest; log := log w |})
  end.

(** The 1x1 black WebP literal of [encrypt_file] (43 bytes). *)
Definition placeholder_webp : bytes :=
  [x52; x49; x46; x46; x24; x00; x00; x00; x57; x45; x42; x50; x56; x50; x38; x20;
   x18; x00; x00; x00; x30; x01; x00; x9d; x01; x2a; x01; x00; x01; x00; x01; x40;
   x25; xa4; x00; x03; x70; x00; xfe; xfb; x94; x00; x00].

(** [Path("non-existent")], the path the encryptor calls itself with to reach
    its placeholder branch. *)
Definition sentinel_path : string := "non-existent".

(** [file_path.with_suffix(file_path.suffix + '.enc')] *)
Definition enc_path (file_path : string) : string := file_path +:+ ".enc".

Section Encryptor.

Variable aes_block : bytes -> bytes -> bytes.

(** The branch [if not file_path.exists()]. *)
Definition encrypt_placeholder (file_path key_hex : string) (w : world)
  : result string * world :=
  let encrypted_path := enc_path file_path in
  let w := add_log (LogMissing file_path) w in
  match fromhex key_hex with
  | None => (Raise (ValueError "non-hexadecimal number found in fromhex() arg"), w)
  | Some key =>
      let iv := repeat x00 16 in
      let padded := pkcs7_pad placeholder_webp in
      if valid_aes_key key then
        let ciphertext := cbc_encrypt aes_block key iv padded in
        let w := set_fs (insert encrypted_path (iv ++ ciphertext)) w in
        (Ok encrypted_path, add_log (LogPlaceholder encrypted_path) w)
      else (Raise (ValueError "Invalid key size for AES"), w)
  end.

(** [encrypt_file]; [fuel] bounds the depth of the recursive calls the way
    the interpreter's recursion limit does. *)
Fixpoint encrypt_file (fuel : nat) (file_path key_hex : string) (w : world)
  : result string * world :=
  match fuel with
  | 0 => (Raise RecursionError, w)
  | S fuel' =>
      let encrypted_path := enc_path file_path in
      match fs w !! file_path with
      | None => encrypt_placeholder file_path key_hex w
      | Some content =>
          let file_size := length content in
          if file_size =? 0 then
            let w := add_log (LogEmpty file_path) w in
            let w := set_fs (delete file_path) w in
            encrypt_file fuel' sentinel_path key_hex w
          else
            let w := if file_size <? 100
                     then add_log (LogSuspiciouslySmall file_size) w else w in
            match fromhex key_hex with
            | None =>
                (Raise (ValueError "non-hexadecimal number found in fromhex() arg"), w)
            | Some key =>
                let '(iv, w) := os_urandom 16 w in
                let '(outcome, w) := next_outcome w in
                let handler (w : world) :=
                  let w := add_log (LogEncryptionFailed file_path) w in
                  let w := set_fs (delete encrypted_path) w in
                  encrypt_file fuel' sentinel_path key_hex w in
                match outcome with
                | RaisesBeforeWrite => handler w
                | _ =>
                    let plaintext := pkcs7_pad content in
                    if valid_aes_key key then
                      let ciphertext := cbc_encrypt aes_block key iv plaintext in
                      let w := set_fs (insert encrypted_path (iv ++ ciphertext)) w in
                      match outcome with
                      | RaisesAfterWrite => handler w
                      | _ =>
                          let encrypted_size := length (iv ++ ciphertext) in
                          let w := if encrypted_size <? 32
                                   then add_log (LogEncryptedTooSmall encrypted_size) w
                                   else w in
                          (Ok encrypted_path, set_fs (delete file_path) w)
                      end
                    else handler w
                end
            end
      end
  end.

End Encryptor.

(** ** The catalog: tables, clock and files *)

Inductive job_status : Type := queued | processing | completed | failed.

Inductive media_type : Type := image | video.

(** A row of [processing_queue]. *)
Record QueueJob : Type := {
  job_id : nat;
  file_path : string;
  file_type : media_type;
  status : job_status;
  retry_count : Z;
  max_retries : Z;
  priority : Z;
  queued_at : Z;
  started_at : option Z;
  completed_at : option Z;
  error_message : option string }.

(** A row of [media_files]. *)
Record MediaAsset : Type := {
  asset_id : string;
  original_name : string;
  file_hash : string;
  asset_type : media_type;
  mime_type : string;
  file_size_bytes : nat;
  width : Z;
  height : Z;
  duration_seconds : option float;
  storage_path : string;
  thumbnail_path : option string;
  preview_path : option string;
  encryption_key_id : nat;
  processing_completed_at : Z;
  metadata_iv : option string }.

(** A row of [encryption_keys]. *)
Record EncryptionKey : Type := {
  key_id : nat;
  key_value : string;
  iv_value : string;
  is_active : bool }.

(** What [process_image] and [process_video] return. *)
Record transform_result : Type := {
  r_width : Z;
  r_height : Z;
  r_duration_seconds : option float;
  r_storage_path : string;
  r_thumbnail_path : option string;
  r_preview_path : option string;
  r_extra_iv : option string }.

(** The database, the files, the database clock ([NOW()], in seconds), the
    answers of the coming database statements ([true]: the statement raises
    a psycopg2 error) and the random source of [secrets]. *)
Record state : Type := {
  processing_queue : list QueueJob;
  media_files : list MediaAsset;
  encryption_keys : list EncryptionKey;
  files : gmap string bytes;
  clock : Z;
  db_faults : list bool;
  random : nat -> byte;
  random_pos : nat }.

Definition with_queue (f : list QueueJob -> list QueueJob) (s : state) : state :=
  {| processing_queue := f (processing_queue s); media_files := media_files s;
     encryption_keys := encryption_keys s; files := files s; clock := clock s;
     db_faults := db_faults s; random := random s; random_pos := random_pos s |}.

Definition with_media (f : list MediaAsset -> list MediaAsset) (s : state) : state :=
  {| processing_queue := processing_queue s; media_files := f (media_files s);
     encryption_keys := encryption_keys s; files := files s; clock := clock s;
     db_faults := db_faults s; random := random s; random_pos := random_pos s |}.

Definition with_keys (f : list EncryptionKey -> list EncryptionKey) (s : state) : state :=
  {| processing_queue := processing_queue s; media_files := media_files s;
     encryption_keys := f (encryption_keys s); files := files s; clock := clock s;
     db_faults := db_faults s; random := random s; random_pos := random_pos s |}.

Definition with_files (f : gmap string bytes -> gmap string bytes) (s : state) : state :=
  {| processing_queue := processing_queue s; media_files := media_files s;
     encryption_keys := encryption_keys s; files := f (files s); clock := clock s;
     db_faults := db_faults s; random := random s; random_pos := random_pos s |}.

Definition with_clock (f : Z -> Z) (s : state) : state :=
  {| processing_queue := processing_queue s; media_files := media_files s;
     encryption_keys := encryption_keys s; files := files s; clock := f (clock s);
     db_faults := db_faults s; random := random s; random_pos := random_pos s |}.

Definition with_db_faults (f : list bool -> list bool) (s : state) : state :=
  {| processing_queue := processing_queue s; media_files := media_files s;
     encryption_keys := encryption_keys s; files := files s; clock := clock s;
     db_faults := f (db_faults s); random := random s; random_pos := random_pos s |}.

Definition with_random_pos (f : nat -> nat) (s : state) : state :=
  {| processing_queue := processing_queue s; media_files := media_files s;
     encryption_keys := encryption_keys s; files := files s; clock := clock s;
     db_faults := db_faults s; random := random s; random_pos := f (random_pos s) |}.

(** ** A state and exception monad for the Python methods *)

Definition M (A : Type) : Type := state -> result A * state.

Definition ret {A : Type} (a : A) : M A := fun s => (Ok a, s).

Definition raise {A : Type} (e : exn) : M A := fun s => (Raise e, s).

Definition bind {A B : Type} (m : M A) (k : A -> M B) : M B :=
  fun s =>
    match m s with
    | (Ok a, s') => k a s'
    | (Raise e, s') => (Raise e, s')
    end.

(** [try: m  except Exception as e: h e] *)
Definition try_except {A : Type} (m : M A) (h : exn -> M A) : M A :=
  fun s =>
    match m s with
    | (Ok a, s') => (Ok a, s')
    | (Raise e, s') => h e s'
    end.

Definition gets {A : Type} (f : state -> A) : M A := fun s => (Ok (f s), s).

Definition modify (f : state -> state) : M unit := fun s => (Ok tt, f s).

Declare Scope monad_scope.
Delimit Scope monad_scope with monad.
Notation "'let*' x ':=' m 'in' k" := (bind m (fun x => k))
  (at level 10, x name, m at level 100, k at level 200) : monad_scope.
Notation "'exec' m 'in' k" := (bind m (fun _ => k))
  (at level 10, m at level 100, k at level 200) : monad_scope.
Local Open Scope monad_scope.

(** One statement sent to the database ([_get_connection], [cursor.execute],
    [conn.commit]): it raises when the next fault flag says so. *)
Definition db_statement : M unit :=
  fun s =>
    match db_faults s with
    | true :: rest =>
        (Raise (DatabaseError "server closed the connection unexpectedly"),
         with_db_faults (fun _ => rest) s)
    | false :: rest => (Ok tt, with_db_faults (fun _ => rest) s)
    | [] => (Ok tt, s)
    end.

(** [DatabaseManager.execute]: the statement and its commit are one step; a
    statement that raises changes nothing (rollback). *)
Definition execute (f : state -> state) : M unit :=
  exec db_statement in modify f.

(** [DatabaseManager.fetch_one] and [fetch_all]. *)
Definition fetch {A : Type} (f : state -> A) : M A :=
  exec db_statement in gets f.

(** [secrets.token_hex(n)] *)
Definition token_hex (n : nat) : M string :=
  fun s => (Ok (hex (map (random s) (seq (random_pos s) n))),
            with_random_pos (fun p => p + n) s).

(** ** Paths and the configured extensions *)

Definition lower_ascii (c : ascii) : ascii :=
  let n := N_of_ascii c in
  if ((65 <=? n) && (n <=? 90))%N then ascii_of_N (n + 32) else c.

(** [str.lower] on ASCII text. *)
Fixpoint lower (s : string) : string :=
  match s with
  | EmptyString => EmptyString
  | String c s' => String (lower_ascii c) (lower s')
  end.

Fixpoint take_until (c : ascii) (l : list ascii) : list ascii :=
  match l with
  | [] => []
  | x :: l' => if Ascii.eqb x c then [] else x :: take_until c l'
  end.

(** [Path.name]: the final component. *)
Definition path_name (p : string) : string :=
  string_of_list_ascii (rev (take_until "/"%char (rev (list_ascii_of_string p)))).

(** [Path.suffix]: with [i = name.rfind('.')], the text from [i] on when
    [0 < i < len(name) - 1], else the empty string. *)
Definition path_suffix (p : string) : string :=
  let name := list_ascii_of_string (path_name p) in
  let after := take_until "."%char (rev name) in
  if (length after =? 0) || (length name <=? S (length after)) then ""
  else string_of_list_ascii ("."%char :: rev after).

Definition image_extensions : list string :=
  [".jpg"; ".jpeg"; ".png"; ".gif"; ".webp"; ".heic"; ".heif"; ".dng"].

Definition video_extensions : list string :=
  [".mp4"; ".avi"; ".mov"; ".mkv"; ".wmv"; ".flv"; ".webm"].

Definition str_in (x : string) (l : list string) : bool :=
  existsb (String.eqb x) l.

(** [MediaProcessor.get_mime_type] *)
Definition get_mime_type (p : string) : string :=
  let ext := lower (path_suffix p) in
  if str_in ext [".jpg"; ".jpeg"] then "image/jpeg"
  else if String.eqb ext ".png" then "image/png"
  else if String.eqb ext ".gif" then "image/gif"
  else if String.eqb ext ".webp" then "image/webp"
  else if String.eqb ext ".heic" then "image/heic"
  else if String.eqb ext ".dng" then "image/dng"
  else if String.eqb ext ".mp4" then "video/mp4"
  else if String.eqb ext ".avi" then "video/avi"
  else if String.eqb ext ".mov" then "video/quicktime"
  else if String.eqb ext ".mkv" then "video/x-matroska"
  else if String.eqb ext ".webm" then "video/webm"
  else "application/octet-stream".

(** ** Catalog operations: [DatabaseManager] *)

Definition key_file_path : string := "/app/private/encryption.key".

Definition status_eqb (a b : job_status) : bool :=
  match a, b with
  | queued, queued | processing, processing
  | completed, completed | failed, failed => true
  | _, _ => false
  end.

(** Modelled from the spec: the schema of [processing_queue] is not in the
    source; a new row takes the defaults named by the spec ([retry_count] 0,
    [max_retries] 3, [priority] 0, [queued_at] now, the rest NULL). *)
Definition new_job (id : nat) (path : string) (ftype : media_type) (now : Z) : QueueJob :=
  {| job_id := id; file_path := path; file_type := ftype; status := queued;
     retry_count := 0; max_retries := 3; priority := 0; queued_at := now;
     started_at := None; completed_at := None; error_message := None |}.

Definition fresh_job_id (q : list QueueJob) : nat :=
  S (list_max (map job_id q)).

(** [INSERT ... VALUES (path, type, 'queued') ON CONFLICT (file_path) DO NOTHING] *)
Definition add_to_processing_queue (path : string) (ftype : media_type) : M unit :=
  execute (fun s =>
    if existsb (fun j => String.eqb (file_path j) path) (processing_queue s) then s
    else with_queue (fun q => q ++ [new_job (fresh_job_id q) path ftype (clock s)]) s).

(** The [SET] clause of [update_queue_status] on one row. *)
Definition set_status (new_status : job_status) (msg : option string) (now : Z)
    (j : QueueJob) : QueueJob :=
  {| job_id := job_id j; file_path := file_path j; file_type := file_type j;
     status := new_status;
     retry_count := retry_count j; max_retries := max_retries j;
     priority := priority j; queued_at := queued_at j;
     started_at := if status_eqb new_status processing then Some now else started_at j;
     completed_at := if status_eqb new_status completed || status_eqb new_status failed
                     then Some now else completed_at j;
     error_message := msg |}.

Definition update_rows (sel : QueueJob -> bool) (f : QueueJob -> QueueJob)
    (q : list QueueJob) : list QueueJob :=
  map (fun j => if sel j then f j else j) q.

Definition update_queue_status (path : string) (new_status : job_status)
    (msg : option string) : M unit :=
  execute (fun s =>
    with_queue (update_rows (fun j => String.eqb (file_path j) path)
                            (set_status new_status msg (clock s))) s).

(** [SELECT ... FROM media_files WHERE file_hash = %s LIMIT 1] *)
Definition check_duplicate_by_hash (h : string) : M (option MediaAsset) :=
  fetch (fun s => List.find (fun a => String.eqb (file_hash a) h) (media_files s)).

Definition save_media_metadata (a : MediaAsset) : M unit :=
  execute (with_media (fun m => m ++ [a])).

(** [ORDER BY priority DESC, queued_at ASC] *)
Definition job_before (a b : QueueJob) : bool :=
  (priority b <? priority a)%Z
  || ((priority a =? priority b)%Z && (queued_at a <=? queued_at b)%Z).

Fixpoint insert_job (j : QueueJob) (l : list QueueJob) : list QueueJob :=
  match l with
  | [] => [j]
  | x :: l' => if job_before x j then x :: insert_job j l' else j :: l
  end.

Definition order_jobs (l : list QueueJob) : list QueueJob :=
  foldr insert_job [] (rev l).

Definition get_pending_jobs (limit : nat) : M (list QueueJob) :=
  fetch (fun s =>
    take limit (order_jobs
      (List.filter (fun j => status_eqb (status j) queued
                             && (retry_count j <? max_retries j)%Z)
                   (processing_queue s)))).

Definition get_failed_jobs_for_retry (limit : nat) : M (list QueueJob) :=
  fetch (fun s =>
    take limit (order_jobs
      (List.filter (fun j => status_eqb (status j) failed
                             && (retry_count j <? max_retries j)%Z
                             && match completed_at j with
                                | None => true
                                | Some t => (t <? clock s - 300)%Z
                                end)
                   (processing_queue s)))).

(** The [SET] clause of [increment_retry_count]. *)
Definition reset_for_retry (j : QueueJob) : QueueJob :=
  {| job_id := job_id j; file_path := file_path j; file_type := file_type j;
     status := queued;
     retry_count := retry_count j + 1; max_retries := max_retries j;
     priority := priority j; queued_at := queued_at j;
     started_at := None; completed_at := None; error_message := None |}.

Definition increment_retry_count (queue_id : nat) : M unit :=
  execute (with_queue (update_rows (fun j => job_id j =? queue_id) reset_for_retry)).

(** The [SET] clause of [mark_job_as_processing]. *)
Definition set_processing (now : Z) (j : QueueJob) : QueueJob :=
  {| job_id := job_id j; file_path := file_path j; file_type := file_type j;
     status := processing;
     retry_count := retry_count j; max_retries := max_retries j;
     priority := priority j; queued_at := queued_at j;
     started_at := Some now; completed_at := completed_at j;
     error_message := error_message j |}.

Definition mark_job_as_processing (queue_id : nat) : M unit :=
  execute (fun s =>
    with_queue (update_rows (fun j => job_id j =? queue_id) (set_processing (clock s))) s).

(** *** The key store *)

(** [SELECT id, key_value, iv_value FROM encryption_keys WHERE is_active = true
    LIMIT 1] *)
Definition select_active_key (s : state) : option EncryptionKey :=
  List.find is_active (encryption_keys s).

Definition fresh_key_id (ks : list EncryptionKey) : nat :=
  S (list_max (map key_id ks)).

(** [_write_binary_key_file] *)
Definition _write_binary_key_file (key_hex : string) : M unit :=
  match fromhex key_hex with
  | None => raise (ValueError "non-hexadecimal number found in fromhex() arg")
  | Some key_bytes => modify (with_files (insert key_file_path key_bytes))
  end.

(** The [try] block of [get_or_create_encryption_key]: connect, draw key and
    IV, insert, commit, read back. *)
Definition create_encryption_key : M EncryptionKey :=
  exec db_statement in
  let* new_key := token_hex 16 in
  let* new_iv := token_hex 16 in
  exec db_statement in
  let* id := gets (fun s => fresh_key_id (encryption_keys s)) in
  let key := {| key_id := id; key_value := new_key; iv_value := new_iv;
                is_active := true |} in
  exec db_statement in
  exec modify (with_keys (fun ks => ks ++ [key])) in
  exec db_statement in
  let* verification := gets select_active_key in
  match verification with
  | None => raise (Exception "Encryption key was not properly saved to database")
  | Some _ => ret key
  end.

Definition get_or_create_encryption_key : M EncryptionKey :=
  let* found := fetch select_active_key in
  let* key :=
    match found with
    | Some k => ret k
    | None =>
        try_except create_encryption_key
          (fun _ =>
             let* again := fetch select_active_key in
             match again with
             | None => raise (Exception "Unable to create or retrieve encryption key")
             | Some k => ret k
             end)
    end in
  exec _write_binary_key_file (key_value key) in
  ret key.

(** ** The job processor: [MediaProcessor.process_file] *)

(** [Path.unlink] *)
Definition unlink (path : string) : M unit :=
  fun s =>
    match files s !! path with
    | Some _ => (Ok tt, with_files (delete path) s)
    | None => (Raise (OSError "No such file or directory"), s)
    end.

(** [open(path, 'rb')] followed by reading the whole file. *)
Definition read_file (path : string) : M bytes :=
  fun s =>
    match files s !! path with
    | Some content => (Ok content, s)
    | None => (Raise (OSError "No such file or directory"), s)
    end.

Definition path_exists (path : string) : M bool :=
  gets (fun s => bool_decide (is_Some (files s !! path))).

Definition duplicate_note (a : MediaAsset) : string :=
  "Duplicate of existing file ID: " +:+ asset_id a.

Section Processor.

(** SHA-256 of a byte string, as a hexadecimal digest. *)
Variable sha256_hex : bytes -> string.
(** [generate_file_id], a digest of the path and the wall clock. *)
Variable generate_file_id : string -> Z -> string.
(** The two transformers; they write artifacts and may raise. *)
Variable process_image : string -> string -> EncryptionKey -> M transform_result.
Variable process_video : string -> string -> EncryptionKey -> M transform_result.

(** [calculate_file_hash]: the digest of the file's content, read in chunks. *)
Definition calculate_file_hash (path : string) : M string :=
  let* content := read_file path in
  ret (sha256_hex content).

Definition build_metadata (file_id path file_hash_ : string) (ftype : media_type)
    (size : nat) (key : EncryptionKey) (r : transform_result) (now : Z) : MediaAsset :=
  {| asset_id := file_id; original_name := path_name path; file_hash := file_hash_;
     asset_type := ftype; mime_type := get_mime_type path; file_size_bytes := size;
     width := r_width r; height := r_height r;
     duration_seconds := r_duration_seconds r;
     storage_path := r_storage_path r; thumbnail_path := r_thumbnail_path r;
     preview_path := r_preview_path r; encryption_key_id := key_id key;
     processing_completed_at := now; metadata_iv := r_extra_iv r |}.

(** The body of the [try] block of [process_file]. *)
Definition process_file_body (path : string) : M unit :=
  exec update_queue_status path processing None in
  let* file_hash_ := calculate_file_hash path in
  let* duplicate := check_duplicate_by_hash file_hash_ in
  match duplicate with
  | Some d =>
      exec update_queue_status path completed (Some (duplicate_note d)) in
      unlink path
  | None =>
      let* content := read_file path in
      let* now := gets clock in
      let file_id := generate_file_id path now in
      let* encryption_key := get_or_create_encryption_key in
      let ext := lower (path_suffix path) in
      let* typed :=
        if str_in ext image_extensions then
          let* r := process_image path file_id encryption_key in ret (r, image)
        else if str_in ext video_extensions then
          let* r := process_video path file_id encryption_key in ret (r, video)
        else raise (ValueError ("Unsupported file type: " +:+ ext)) in
      let* key_check :=
        fetch (fun s => List.find (fun k => key_id k =? key_id encryption_key)
                                  (encryption_keys s)) in
      match key_check with
      | None => raise (Exception "Encryption key not found in database")
      | Some _ =>
          let* now' := gets clock in
          exec save_media_metadata
                 (build_metadata file_id path file_hash_ (snd typed) (length content)
                                 encryption_key (fst typed) now') in
          exec update_queue_status path completed None in
          unlink path
      end
  end.

(** [process_file]: every exception of the body is caught here and recorded
    on the queue row; nothing is raised again. *)
Definition process_file (path : string) : M unit :=
  try_except (process_file_body path)
    (fun e => update_queue_status path failed (Some (exn_str e))).

(** ** The queue worker: [process_queue_worker] *)

(** The body of the [for job in all_jobs] loop; [false] is its [break]. *)
Definition process_job (job : QueueJob) : M bool :=
  try_except
    (let* present := path_exists (file_path job) in
     if negb present then
       exec update_queue_status (file_path job) failed (Some "File not found") in
       ret true
     else
       exec mark_job_as_processing (job_id job) in
       exec process_file (file_path job) in
       ret true)
    (fun e =>
       if is_db_error e then ret false
       else
         exec try_except
                (if (retry_count job + 1 <? max_retries job)%Z
                 then increment_retry_count (job_id job)
                 else ret tt)
                (fun _ => ret tt) in
         ret true).

Fixpoint process_jobs (jobs : list QueueJob) : M unit :=
  match jobs with
  | [] => ret tt
  | job :: rest =>
      let* continue := process_job job in
      if continue then process_jobs rest else ret tt
  end.

(** One turn of the [while True] loop: the new count of consecutive errors
    and the seconds slept. *)
Definition worker_round (consecutive_errors : nat) : M (nat * Z) :=
  try_except
    (let* pending_jobs := get_pending_jobs 5 in
     let* failed_jobs := get_failed_jobs_for_retry 3 in
     exec process_jobs (pending_jobs ++ failed_jobs) in
     ret (0, 5%Z))
    (fun e =>
       let n := S consecutive_errors in
       if is_db_error e then
         if 5 <=? n then ret (0, 60%Z) else ret (n, (10 * Z.of_nat n)%Z)
       else ret (n, (10 * Z.of_nat (Nat.min n 6))%Z)).

(** [asyncio.sleep]: the clock moves on. *)
Definition sleep (seconds : Z) : M unit :=
  modify (with_clock (fun t => (t + seconds)%Z)).

(** [rounds] turns of the worker loop. *)
Fixpoint process_queue_worker (rounds : nat) (consecutive_errors : nat) : M unit :=
  match rounds with
  | 0 => ret tt
  | S rounds' =>
      let* r := worker_round consecutive_errors in
      exec sleep (snd r) in
      process_queue_worker rounds' (fst r)
  end.

End Processor.

(** ** Queue operations as a transition system *)

(** The statements that change [processing_queue], and the passing of time. *)
Inductive queue_op : Type :=
| OpEnqueue (path : string) (ftype : media_type)
| OpMarkProcessing (queue_id : nat)
| OpStart (path : string)
| OpComplete (path : string) (note : option string)
| OpFail (path : string) (msg : string)
| OpRetryReset (queue_id : nat)
| OpTick (seconds : Z).

Definition op_action (op : queue_op) : M unit :=
  match op with
  | OpEnqueue path ftype => add_to_processing_queue path ftype
  | OpMarkProcessing id => mark_job_as_processing id
  | OpStart path => update_queue_status path processing None
  | OpComplete path note => update_queue_status path completed note
  | OpFail path msg => update_queue_status path failed (Some msg)
  | OpRetryReset id => increment_retry_count id
  | OpTick seconds => sleep seconds
  end.

Definition run_op (s : state) (op : queue_op) : state := snd (op_action op s).

Definition run_ops (ops : list queue_op) (s : state) : state :=
  fold_left run_op ops s.

(** A service that starts on an empty queue. *)
Definition initial_state (fs0 : gmap string bytes) (media : list MediaAsset)
    (keys : list EncryptionKey) (now : Z) (faults : list bool)
    (rnd : nat -> byte) : state :=
  {| processing_queue := []; media_files := media; encryption_keys := keys;
     files := fs0; clock := now; db_faults := faults; random := rnd;
     random_pos := 0 |}.

Definition is_null {A : Type} (o : option A) : bool :=
  match o with None => true | Some _ => false end.

(** The status and timestamp invariant as the specification words it. *)
Definition timestamps_as_specified (j : QueueJob) : bool :=
  match status j with
  | queued => is_null (started_at j)
  | processing => negb (is_null (started_at j)) && is_null (completed_at j)
  | completed | failed => negb (is_null (completed_at j))
  end.

(** The invariant the operations do keep: a processing row may carry the
    completion time of an earlier failed attempt. *)
Definition timestamps_kept (j : QueueJob) : bool :=
  match status j with
  | queued => is_null (started_at j) && is_null (completed_at j)
  | processing => negb (is_null (started_at j))
  | completed | failed => negb (is_null (completed_at j))
  end.

(** ** Concrete oracles and scenarios used in examples *)

(** A stand-in digest: the content's own hexadecimal text. *)
Definition example_digest (content : bytes) : string := hex content.

Definition example_file_id (path : string) (now : Z) : string := "00000000000000a1".

(** A transformer that fails the way Pillow does on an undecodable file. *)
Definition broken_transformer (path file_id : string) (key : EncryptionKey)
  : M transform_result :=
  raise (Exception "cannot identify image file").

Definition intake_a : string := "/app/imports/a.jpg".

(** One queued job whose file exists but cannot be decoded. *)
Definition undecodable_job_state : state :=
  {| processing_queue := [new_job 1 intake_a image 100];
     media_files := []; encryption_keys := [];
     files := {[ intake_a := [x00; x01; x02] ]};
     clock := 100; db_faults := []; random := fun _ => x2a; random_pos := 0 |}.

(** The catalog already holds an asset with the digest of [intake_a]'s
    content; [intake_a] is queued again. *)
Definition earlier_asset : MediaAsset :=
  {| asset_id := "5f3a9c0012ab77e1"; original_name := "first.jpg";
     file_hash := example_digest [x00; x01; x02]; asset_type := image;
     mime_type := "image/jpeg"; file_size_bytes := 3; width := 1; height := 1;
     duration_seconds := None; storage_path := "images/5f3a9c0012ab77e1.webp.enc";
     thumbnail_path := Some "images/5f3a9c0012ab77e1_thumb.webp.enc";
     preview_path := None; encryption_key_id := 1;
     processing_completed_at := 50; metadata_iv := None |}.

Definition duplicate_job_state : state :=
  {| processing_queue := [new_job 1 intake_a image 100];
     media_files := [earlier_asset]; encryption_keys := [];
     files := {[ intake_a := [x00; x01; x02] ]};
     clock := 100; db_faults := []; random := fun _ => x2a; random_pos := 0 |}.

(** A job is enqueued, picked, fails, and is picked again five minutes
    later. *)
Definition retry_trace : list queue_op :=
  [OpEnqueue intake_a image; OpMarkProcessing 1; OpStart intake_a;
   OpFail intake_a "cannot identify image file"; OpTick 301; OpMarkProcessing 1].

(** The artifact the placeholder branch writes: an all-zero IV followed by
    the encrypted, padded placeholder image. *)
Definition placeholder_artifact (aes_block : bytes -> bytes -> bytes) (key : bytes) : bytes :=
  repeat x00 16 ++ cbc_encrypt aes_block key (repeat x00 16) (pkcs7_pad placeholder_webp).

(** A stand-in block cipher for examples: XOR with the key, cut or
    zero-extended to one block.  It is its own inverse. *)
Definition example_block (key block : bytes) : bytes :=
  xor_bytes block (take 16 (key ++ repeat x00 16)).

Definition example_key_hex : string := "000102030405060708090a0b0c0d0e0f".

Definition example_key : bytes :=
  [x00; x01; x02; x03; x04; x05; x06; x07; x08; x09; x0a; x0b; x0c; x0d; x0e; x0f].

Definition thumb_path : string := "/app/assets/images/00000000000000a1_thumb.webp".

(** A thumbnail file of three bytes waits to be encrypted. *)
Definition small_file_world : world :=
  {| fs := {[ thumb_path := [x52; x49; x46] ]}; entropy := fun _ => x2a; cursor := 0;
     io_faults := []; log := [] |}.

(** The thumbnail file exists and is empty. *)
Definition empty_file_world : world :=
  {| fs := {[ thumb_path := [] ]}; entropy := fun _ => x2a; cursor := 0;
     io_faults := []; log := [] |}.

(** The thumbnail file is empty and the working directory holds a file
    named [non-existent]. *)
Definition sentinel_world : world :=
  {| fs := <[ sentinel_path := [x41] ]> {[ thumb_path := [] ]};
     entropy := fun _ => x2a; cursor := 0; io_faults := []; log := [] |}.

(** A row of [encryption_keys] as this program creates them: [key_value] is
    the lower-case hexadecimal text of 16 bytes. *)
Definition key_well_formed (k : EncryptionKey) : bool :=
  match fromhex (key_value k) with
  | Some b => (length b =? 16) && String.eqb (hex b) (key_value k)
  | None => false
  end.

(** ** Python numbers: [int] as [Z], [float] as binary64 *)

(** [float(n)] for [0 <= n < 2^53], where the conversion is exact. *)
Definition float_of_int (n : Z) : float := PrimFloat.of_uint63 (Uint63.of_Z n).

(** [a / b] on integers (true division, correctly rounded); for operands
    below [2^53] it is the binary64 quotient of the converted operands. *)
Definition py_truediv (a b : Z) : float :=
  PrimFloat.div (float_of_int a) (float_of_int b).

(** [int(x)]: truncation towards zero (it raises on infinities and NaN, which
    positive image sizes do not produce; 0 stands in there). *)
Definition py_int (x : float) : Z :=
  match Prim2SF x with
  | S754_finite s m e =>
      let v := if (0 <=? e)%Z then (Z.pos m * 2 ^ e)%Z else (Z.pos m / 2 ^ (- e))%Z in
      if s then (- v)%Z else v
  | _ => 0%Z
  end.

(** [max(n, x)] for an [int] [n] and a [float] [x]: Python keeps the first
    argument unless the second is greater. *)
Definition py_max (n : Z) (x : float) : float :=
  if PrimFloat.ltb (float_of_int n) x then x else float_of_int n.

(** ** The image transformer: output sizes *)

Definition max_width : Z := 3840.
Definition max_height : Z := 2160.
Definition thumbnail_width : Z := 320.

Section ImageSizes.

(** The size Pillow's [Image.thumbnail(box, LANCZOS)] gives an image:
    [pil_thumbnail_size (w, h) box]. *)
Variable pil_thumbnail_size : Z * Z -> Z * Z -> Z * Z.

(** The size of the main image written by [process_image]. *)
Definition process_image_size (w h : Z) : Z * Z :=
  if (max_width <? w)%Z || (max_height <? h)%Z
  then pil_thumbnail_size (w, h) (max_width, max_height)
  else (w, h).

End ImageSizes.

(** The size [generate_image_thumbnail] asks [img.resize] for:
    [(thumbnail_width, int(thumbnail_width * (img.height / img.width)))]. *)
Definition thumbnail_size (w h : Z) : Z * Z :=
  let aspect_ratio := py_truediv h w in
  let thumbnail_height :=
    py_int (PrimFloat.mul (float_of_int thumbnail_width) aspect_ratio) in
  (thumbnail_width, thumbnail_height).

(** Pillow's [Image.resize] refuses a size with a side below one pixel
    ("height and width must be > 0"). *)
Definition pil_resize (size : Z * Z) : result (Z * Z) :=
  if (1 <=? fst size)%Z && (1 <=? snd size)%Z then Ok size
  else Raise (ValueError "height and width must be > 0").

(** [generate_image_thumbnail], as far as sizes go. *)
Definition generate_image_thumbnail (w h : Z) : result (Z * Z) :=
  pil_resize (thumbnail_size w h).

(** ** The video thumbnail protocol: [generate_animated_thumbnail] *)

(** What one run of the encoder does: its exit status and, when it wrote
    its output file, the size of that file. *)
Record ffmpeg_outcome : Type := {
  returncode : Z;
  written : option nat }.

(** The external commands and file operations of the protocol, with the
    seek position [-ss] where there is one. *)
Inductive media_call : Type :=
| AnimatedThumbnail (ss : float)
| AnimatedPreview (ss : float)
| StaticFrame (output : string) (ss : float)
| StaticFrameDefaultCodec (output : string) (ss : float)
| CopyFile (src dst : string)
| PillowPlaceholder (output : string)
| MinimalWebP (output : string).

(** The sizes of the files of the job's directory, the outcomes of the
    coming encoder runs, whether Pillow manages to save its 320x180
    placeholder (and how large), and the calls made so far. *)
Record video_world : Type := {
  sizes : gmap string nat;
  ffmpeg_outcomes : list ffmpeg_outcome;
  pillow_placeholder : option nat;
  calls : list media_call }.

(** [subprocess.run(cmd)] writing to [output]. *)
Definition run_ffmpeg (call : media_call) (output : string) (w : video_world)
  : ffmpeg_outcome * video_world :=
  let o := match ffmpeg_outcomes w with
           | o :: _ => o
           | [] => {| returncode := 1; written := None |}
           end in
  (o, {| sizes := match written o with
                  | Some n => <[output := n]> (sizes w)
                  | None => sizes w
                  end;
         ffmpeg_outcomes := tl (ffmpeg_outcomes w);
         pillow_placeholder := pillow_placeholder w;
         calls := calls w ++ [call] |}).

(** [path.exists() and path.stat().st_size > 1000] *)
Definition larger_than_1000 (path : string) (w : video_world) : bool :=
  match sizes w !! path with
  | Some n => 1000 <? n
  | None => false
  end.

Definition write_file (call : media_call) (output : string) (n : nat)
    (w : video_world) : video_world :=
  {| sizes := <[output := n]> (sizes w); ffmpeg_outcomes := ffmpeg_outcomes w;
     pillow_placeholder := pillow_placeholder w; calls := calls w ++ [call] |}.

(** [create_static_thumbnail]: two encoder attempts, then Pillow's
    placeholder, then the 43-byte literal. *)
Definition create_static_thumbnail (output : string) (start_time : float)
    (w : video_world) : video_world :=
  let '(o1, w1) := run_ffmpeg (StaticFrame output start_time) output w in
  if (returncode o1 =? 0)%Z && larger_than_1000 output w1 then w1
  else
    let earlier := py_max 0 (PrimFloat.sub start_time (float_of_int 2)) in
    let '(o2, w2) := run_ffmpeg (StaticFrameDefaultCodec output earlier) output w1 in
    if (returncode o2 =? 0)%Z && larger_than_1000 output w2 then w2
    else
      match pillow_placeholder w2 with
      | Some n => write_file (PillowPlaceholder output) output n w2
      | None => write_file (MinimalWebP output) output (length placeholder_webp) w2
      end.

Definition thumbnail_webp : string := "thumbnail.webp".
Definition preview_webp : string := "preview.webp".

(** [start_time = max(5, duration * 0.1)] *)
Definition start_time_of (duration : float) : float :=
  py_max 5 (PrimFloat.mul duration 0x1.999999999999ap-4%float).

(** The first stage: the animated thumbnail and its fallback; the boolean
    is [animated_success]. *)
Definition thumbnail_stage (duration : float) (w : video_world) : bool * video_world :=
  let start_time := start_time_of duration in
  let '(result_thumb, w) := run_ffmpeg (AnimatedThumbnail start_time) thumbnail_webp w in
  if negb (returncode result_thumb =? 0)%Z then
    (false, create_static_thumbnail thumbnail_webp start_time w)
  else if larger_than_1000 thumbnail_webp w then (true, w)
  else (false, create_static_thumbnail thumbnail_webp start_time w).

(** The second stage: the preview. *)
Definition preview_stage (duration : float) (animated_success : bool) (w : video_world)
  : video_world :=
  let start_time := start_time_of duration in
  if animated_success then
    let '(result_preview, w) := run_ffmpeg (AnimatedPreview start_time) preview_webp w in
    if negb (returncode result_preview =? 0)%Z then
      if larger_than_1000 thumbnail_webp w
      then write_file (CopyFile thumbnail_webp preview_webp) preview_webp
             (default 0 (sizes w !! thumbnail_webp)) w
      else create_static_thumbnail preview_webp
             (PrimFloat.add start_time (float_of_int 5)) w
    else w
  else
    create_static_thumbnail preview_webp (PrimFloat.add start_time (float_of_int 5)) w.

(** The closing loop over the two files. *)
Definition validate_file (duration : float) (path : string) (w : video_world)
  : video_world :=
  match sizes w !! path with
  | None => create_static_thumbnail path (start_time_of duration) w
  | Some n =>
      if n <? 1000 then create_static_thumbnail path (start_time_of duration) w else w
  end.

Definition generate_animated_thumbnail (duration : float) (w : video_world)
  : video_world :=
  let '(animated_success, w) := thumbnail_stage duration w in
  let w := preview_stage duration animated_success w in
  let w := validate_file duration thumbnail_webp w in
  validate_file duration preview_webp w.

(** The fallback condition in the specification's words: the encoder exits
    non-zero or the produced file is smaller than 1000 bytes. *)
Definition fallback_as_specified (o : ffmpeg_outcome) : bool :=
  negb (returncode o =? 0)%Z
  || match written o with Some n => n <? 1000 | None => false end.

(** The fallback condition of the code, for a thumbnail file that did not
    exist before the run: non-zero exit, no file, or a file of at most 1000
    bytes. *)
Definition fallback_in_code (o : ffmpeg_outcome) : bool :=
  negb (returncode o =? 0)%Z
  || match written o with Some n => n <=? 1000 | None => true end.

(** An animated thumbnail of exactly 1000 bytes, encoder exit status 0. *)
Definition thousand_byte_world : video_world :=
  {| sizes := ∅;
     ffmpeg_outcomes := [ {| returncode := 0; written := Some 1000 |};
                          {| returncode := 0; written := Some 4000 |};
                          {| returncode := 0; written := Some 5000 |} ];
     pillow_placeholder := Some 900; calls := [] |}.

(** The calls [create_static_thumbnail] can make. *)
Definition is_fallback_call (c : media_call) : bool :=
  match c with
  | StaticFrame _ _ | StaticFrameDefaultCodec _ _
  | PillowPlaceholder _ | MinimalWebP _ => true
  | _ => false
  end.

(** ** Start-up: [main] and the asyncio event loop *)

(** What the tasks do that matters for the order of start-up. *)
Inductive event : Type :=
| EvKeyInit
| EvObserverStart
| EvStartupEnqueue (path : string) (ftype : media_type)
| EvWorkerRound (k : nat)
| EvScannerCheck (k : nat)
| EvHealthCheck (k : nat).

(** A coroutine: plain statements, [asyncio.create_task] and suspension
    points ([await asyncio.sleep(..)], [await asyncio.gather(..)]). *)
Inductive coro : Type :=
| Return
| Do (e : event) (k : coro)
| CreateTask (task : coro) (k : coro)
| Await (k : coro).

(** [process_queue_worker]: each turn of its loop fetches and processes
    jobs, then sleeps. *)
Fixpoint worker_coro (rounds k : nat) : coro :=
  match rounds with
  | 0 => Return
  | S r => Do (EvWorkerRound k) (Await (worker_coro r (S k)))
  end.

(** [scan_for_new_files]: a time check, then [await asyncio.sleep(10)]. *)
Fixpoint scanner_coro (rounds k : nat) : coro :=
  match rounds with
  | 0 => Return
  | S r => Do (EvScannerCheck k) (Await (scanner_coro r (S k)))
  end.

(** [database_health_monitor]: it sleeps first, then checks. *)
Fixpoint health_coro (rounds k : nat) : coro :=
  match rounds with
  | 0 => Return
  | S r => Await (Do (EvHealthCheck k) (health_coro r (S k)))
  end.

(** The type a directory entry is queued with, if it is eligible. *)
Definition eligible (path : string) : option media_type :=
  let ext := lower (path_suffix path) in
  if str_in ext image_extensions then Some image
  else if str_in ext video_extensions then Some video
  else None.

(** The loop of [main] over [imports_path.iterdir()]: no [await] in it. *)
Fixpoint startup_scan (entries : list string) (k : coro) : coro :=
  match entries with
  | [] => k
  | path :: rest =>
      match eligible path with
      | Some ftype => Do (EvStartupEnqueue path ftype) (startup_scan rest k)
      | None => startup_scan rest k
      end
  end.

(** [main]: the three tasks are created first, the start-up scan follows,
    and only then does [main] await. *)
Definition main_coro (entries : list string) (rounds : nat) : coro :=
  Do EvKeyInit
    (Do EvObserverStart
       (CreateTask (worker_coro rounds 0)
          (CreateTask (scanner_coro rounds 0)
             (CreateTask (health_coro rounds 0)
                (startup_scan entries (Await Return)))))).

(** One task runs until it suspends or returns; the tasks it creates are
    appended to [spawned]. *)
Fixpoint run_until_await (c : coro) (spawned : list coro) (trace : list event)
  : option coro * list coro * list event :=
  match c with
  | Return => (None, spawned, trace)
  | Do e k => run_until_await k spawned (trace ++ [e])
  | CreateTask task k => run_until_await k (spawned ++ [task]) trace
  | Await k => (Some k, spawned, trace)
  end.

(** The event loop: the ready queue is served first in, first out; a task
    created by [create_task] is queued, it does not run before the running
    task suspends; a suspended task is queued again behind the others. *)
Fixpoint event_loop (fuel : nat) (ready : list coro) (trace : list event) : list event :=
  match fuel with
  | 0 => trace
  | S fuel' =>
      match ready with
      | [] => trace
      | c :: rest =>
          let '(suspended, spawned, trace') := run_until_await c [] trace in
          event_loop fuel'
            (rest ++ spawned ++ match suspended with Some k => [k] | None => [] end)
            trace'
      end
  end.

(** The enqueues of the start-up scan, in directory order. *)
Fixpoint startup_events (entries : list string) : list event :=
  match entries with
  | [] => []
  | path :: rest =>
      match eligible path with
      | Some ftype => EvStartupEnqueue path ftype :: startup_events rest
      | None => startup_events rest
      end
  end.

Definition is_startup_enqueue (e : event) : bool :=
  match e with EvStartupEnqueue _ _ => true | _ => false end.

Definition is_worker_round (e : event) : bool :=
  match e with EvWorkerRound _ => true | _ => false end.

(** No start-up enqueue anywhere in a coroutine or in the tasks it creates. *)
Fixpoint scan_free (c : coro) : bool :=
  match c with
  | Return => true
  | Do e k => negb (is_startup_enqueue e) && scan_free k
  | CreateTask task k => scan_free task && scan_free k
  | Await k => scan_free k
  end.

(** ** Further parts of the program *)

(** *** Hashing in blocks: [calculate_file_hash] *)

(** [iter(lambda: f.read(4096), b"")]: the blocks read from a file, up to
    the first empty read. *)
Fixpoint read_blocks (fuel : nat) (content : bytes) : list bytes :=
  match fuel with
  | 0 => []
  | S fuel' =>
      match content with
      | [] => []
      | _ => take 4096 content :: read_blocks fuel' (drop 4096 content)
      end
  end.

Definition file_blocks (content : bytes) : list bytes :=
  read_blocks (length content) content.

Section StreamingHash.

(** [hashlib.sha256()], [update] and [hexdigest]. *)
Variable hash_state : Type.
Variable sha256_new : hash_state.
Variable sha256_update : hash_state -> bytes -> hash_state.
Variable sha256_hexdigest : hash_state -> string.

(** [calculate_file_hash] with its loop over 4096-byte blocks. *)
Definition calculate_file_hash_in_blocks (path : string) : M string :=
  let* content := read_file path in
  ret (sha256_hexdigest (fold_left sha256_update (file_blocks content) sha256_new)).

End StreamingHash.

(** *** Intake discovery: [FileWatcher.on_created] and the scans *)

(** [on_created]: [is_directory] and [src_path] are the event's fields,
    the path as [str(Path(src_path))] gives it. *)
Definition on_created (is_directory : bool) (src_path : string) : M unit :=
  if is_directory then ret tt
  else
    match eligible src_path with
    | Some ftype =>
        try_except (add_to_processing_queue src_path ftype) (fun _ => ret tt)
    | None => ret tt
    end.

(** [SELECT id FROM processing_queue WHERE file_path = %s] *)
Definition select_job_by_path (path : string) (s : state) : option QueueJob :=
  List.find (fun j => String.eqb (file_path j) path) (processing_queue s).

(** The loop of [scan_for_new_files] over the regular files of the intake
    directory; the result is [new_files_found]. *)
Fixpoint scan_entries (entries : list string) (new_files_found : nat) : M nat :=
  match entries with
  | [] => ret new_files_found
  | path :: rest =>
      match eligible path with
      | Some ftype =>
          let* found :=
            try_except
              (let* existing := fetch (select_job_by_path path) in
               match existing with
               | None =>
                   exec add_to_processing_queue path ftype in
                   ret (S new_files_found)
               | Some _ => ret new_files_found
               end)
              (fun _ => ret new_files_found) in
          scan_entries rest found
      | None => scan_entries rest new_files_found
      end
  end.

(** One turn of the [while True] loop of [scan_for_new_files]: [entries]
    are the files that [imports_path.iterdir()] yields before it ends or,
    with [listing_fails], raises; the result is the new [last_scan_time] and
    the new count of consecutive errors. *)
Definition scanner_turn (entries : list string) (listing_fails : bool)
    (last_scan_time : Z) (consecutive_errors : nat) : M (Z * nat) :=
  let* current_time := gets clock in
  if (60 <=? current_time - last_scan_time)%Z then
    let* _found := scan_entries entries 0 in
    if listing_fails then
      let n := S consecutive_errors in
      if 5 <=? n then exec sleep 120 in ret (last_scan_time, 0)
      else exec sleep (30 * Z.of_nat n) in ret (last_scan_time, n)
    else
      exec sleep 10 in
      ret (current_time, 0)
  else
    exec sleep 10 in
    ret (last_scan_time, consecutive_errors).

(** The loop of [main] over the files found at start-up: no look-up first,
    the insert itself skips paths already queued. *)
Fixpoint startup_enqueue (entries : list string) (startup_files_added : nat) : M nat :=
  match entries with
  | [] => ret startup_files_added
  | path :: rest =>
      match eligible path with
      | Some ftype =>
          let* added :=
            try_except
              (exec add_to_processing_queue path ftype in ret (S startup_files_added))
              (fun _ => ret startup_files_added) in
          startup_enqueue rest added
      | None => startup_enqueue rest startup_files_added
      end
  end.

(** *** Connections: [DatabaseManager._get_connection] *)

(** The pool (present or not), the outcomes of the coming calls of
    [connect] and of the coming probes ([getconn] and [SELECT 1]; [false]: a
    psycopg2 error), and the seconds slept so far. *)
Record conn_state : Type := {
  pool : bool;
  connect_results : list bool;
  probe_results : list bool;
  slept : Z;
  probes : nat }.

(** [self.connect()]: a new pool, or an exception. *)
Definition pool_connect (c : conn_state) : bool * conn_state :=
  let ok := hd false (connect_results c) in
  (ok, {| pool := ok || pool c; connect_results := tl (connect_results c);
          probe_results := probe_results c; slept := slept c; probes := probes c |}).

Definition pool_probe (c : conn_state) : bool * conn_state :=
  (hd false (probe_results c),
   {| pool := pool c; connect_results := connect_results c;
      probe_results := tl (probe_results c); slept := slept c;
      probes := S (probes c) |}).

Definition pool_close (c : conn_state) : conn_state :=
  {| pool := false; connect_results := connect_results c;
     probe_results := probe_results c; slept := slept c; probes := probes c |}.

Definition pool_sleep (seconds : Z) (c : conn_state) : conn_state :=
  {| pool := pool c; connect_results := connect_results c;
     probe_results := probe_results c; slept := (slept c + seconds)%Z;
     probes := probes c |}.

Definition max_connection_retries : nat := 3.
Definition retry_delay : Z := 2.

(** The [except] clause of one attempt: tear the pool down, then sleep and
    reconnect, or raise on the last attempt. *)
Definition connection_failed (attempt : nat) (c : conn_state) : bool * conn_state :=
  let c := pool_close c in
  if attempt <? max_connection_retries - 1 then
    let c := pool_sleep (retry_delay * (Z.of_nat attempt + 1)) c in
    (true, snd (pool_connect c))
  else (false, c).

(** [_get_connection] from attempt number [attempt] on, with [remaining]
    attempts left of the [for] loop.  The bare [raise] of the last attempt
    re-raises the error of the failed connect or probe, written
    "connection failed" here; the [raise] after the loop has a text of its
    own. *)
Fixpoint get_connection_from (remaining attempt : nat) (c : conn_state)
  : result unit * conn_state :=
  match remaining with
  | 0 => (Raise (DatabaseError "Could not establish database connection after retries"), c)
  | S remaining' =>
      let '(connected, c1) :=
        if pool c then (true, c) else pool_connect c in
      let '(healthy, c2) :=
        if connected then pool_probe c1 else (false, c1) in
      if healthy then (Ok tt, c2)
      else
        let '(again, c3) := connection_failed attempt c2 in
        if again then get_connection_from remaining' (S attempt) c3
        else (Raise (DatabaseError "connection failed"), c3)
  end.

Definition _get_connection (c : conn_state) : result unit * conn_state :=
  get_connection_from max_connection_retries 0 c.

(** *** Vocabulary for the properties of the queue *)

(** The columns of a queue row that identify it and its place in the
    order. *)
Definition job_identity (j : QueueJob)
  : nat * string * media_type * Z * Z * Z :=
  (job_id j, file_path j, file_type j, max_retries j, priority j, queued_at j).

(** Every job comes before all the jobs after it. *)
Fixpoint jobs_ordered (l : list QueueJob) : Prop :=
  match l with
  | [] => True
  | a :: rest => Forall (fun b => job_before a b = true) rest /\ jobs_ordered rest
  end.

(** The [WHERE] clause of [get_pending_jobs]. *)
Definition is_pending (j : QueueJob) : bool :=
  status_eqb (status j) queued && (retry_count j <? max_retries j)%Z.

(** The [WHERE] clause of [get_failed_jobs_for_retry] at time [now]. *)
Definition is_retryable (now : Z) (j : QueueJob) : bool :=
  status_eqb (status j) failed && (retry_count j <? max_retries j)%Z
  && match completed_at j with
     | None => true
     | Some t => (t <? now - 300)%Z
     end.

(** *** Vocabulary and examples for the paths through [process_file] *)

(** The transformer that [process_file] picks for a type of file. *)
Definition transformer_for
    (process_image process_video : string -> string -> EncryptionKey -> M transform_result)
    (ftype : media_type) : string -> string -> EncryptionKey -> M transform_result :=
  match ftype with image => process_image | video => process_video end.

Definition example_key_row : EncryptionKey :=
  {| key_id := 7; key_value := example_key_hex;
     iv_value := "0f0e0d0c0b0a09080706050403020100"; is_active := true |}.

(** A transformer that writes one artifact and reports it. *)
Definition example_transformer (path file_id : string) (key : EncryptionKey)
  : M transform_result :=
  exec modify (with_files (insert ("/app/assets/images/" +:+ file_id +:+ ".webp.enc")
                                  [x00; x01])) in
  ret {| r_width := 4; r_height := 3; r_duration_seconds := None;
         r_storage_path := "images/" +:+ file_id +:+ ".webp.enc";
         r_thumbnail_path := Some ("images/" +:+ file_id +:+ "_thumb.webp.enc");
         r_preview_path := None; r_extra_iv := None |}.

(** One queued image, an active key in the table. *)
Definition keyed_job_state : state :=
  {| processing_queue := [new_job 1 intake_a image 100];
     media_files := []; encryption_keys := [example_key_row];
     files := {[ intake_a := [x00; x01; x02] ]};
     clock := 100; db_faults := []; random := fun _ => x2a; random_pos := 0 |}.

Definition intake_notes : string := "/app/imports/notes.txt".

Definition intake_clip : string := "/app/imports/clip.MP4".

(** A queue row for a text file. *)
Definition text_file_state : state :=
  {| processing_queue := [new_job 1 intake_notes image 100];
     media_files := []; encryption_keys := [example_key_row];
     files := {[ intake_notes := [x68; x69] ]};
     clock := 100; db_faults := []; random := fun _ => x2a; random_pos := 0 |}.

(** *** Examples for the encryptor *)

(** The write of the artifact fails half-way. *)
Definition failing_write_world : world :=
  {| fs := {[ thumb_path := [x52; x49; x46] ]}; entropy := fun _ => x2a; cursor := 0;
     io_faults := [RaisesAfterWrite]; log := [] |}.

(** A key of two bytes. *)
Definition short_key_hex : string := "0001".

(** *** Vocabulary for the video thumbnail protocol *)



(** * Theorems *)

(** ** The monad *)

Lemma db_statement_no_faults (s : state) :
  db_faults s = [] -> db_statement s = (Ok tt, s).
Proof. unfold db_statement. intros ->. reflexivity. Qed.

Lemma db_statement_raises_db_only (s s' : state) (e : exn) :
  db_statement s = (Raise e, s') -> is_db_error e = true.
Proof.
  unfold db_statement. destruct (db_faults s) as [|[] rest]; intros H;
    inversion H; reflexivity.
Qed.

Lemma execute_raises_db_only (f : state -> state) (s s' : state) (e : exn) :
  execute f s = (Raise e, s') -> is_db_error e = true.
Proof.
  unfold execute, bind. destruct (db_statement s) as [[[]|e0] s0] eqn:E.
  - unfold modify. discriminate.
  - intros H. inversion H; subst. eapply db_statement_raises_db_only, E.
Qed.

Lemma execute_no_faults (f : state -> state) (s : state) :
  db_faults s = [] -> execute f s = (Ok tt, f s).
Proof.
  intros H. unfold execute, bind. rewrite (db_statement_no_faults s H). reflexivity.
Qed.

Lemma fetch_no_faults {A : Type} (f : state -> A) (s : state) :
  db_faults s = [] -> fetch f s = (Ok (f s), s).
Proof.
  intros H. unfold fetch, bind. rewrite (db_statement_no_faults s H). reflexivity.
Qed.

(** ** Paths *)

Example path_examples :
  path_suffix "/app/imports/a.jpg" = ".jpg"
  /\ path_suffix "/srv/.profile" = ""
  /\ path_suffix "/p.d/a.tar.GZ" = ".GZ"
  /\ path_name "/p.d/noext" = "noext"
  /\ eligible "/app/imports/x.HEIC" = Some image
  /\ eligible "/app/imports/notes.txt" = None
  /\ enc_path "images/ab.webp" = "images/ab.webp.enc".
Proof. repeat split. Qed.

(** ** The queue worker and the retry bookkeeping *)

Section WorkerFacts.

Variable sha256_hex : bytes -> string.
Variable generate_file_id : string -> Z -> string.
Variable process_image : string -> string -> EncryptionKey -> M transform_result.
Variable process_video : string -> string -> EncryptionKey -> M transform_result.

Local Abbreviation process_file' := (process_file sha256_hex generate_file_id process_image process_video).
Local Abbreviation process_job' := (process_job sha256_hex generate_file_id process_image process_video).

(** Whatever the transformers do, [process_file] hands no exception to its
    caller except a database error raised while recording the failure. *)
Lemma process_file_raises_db_only (path : string) (s s' : state) (e : exn) :
  process_file' path s = (Raise e, s') -> is_db_error e = true.
Proof.
  unfold process_file, try_except.
  destruct (process_file_body _ _ _ _ path s) as [[[]|e0] s0]; [discriminate|].
  unfold update_queue_status. apply execute_raises_db_only.
Qed.

(** Hence the [except Exception] clause of the worker, the only caller of
    [increment_retry_count], is never entered: the worker behaves as if the
    clause only said "carry on". *)
Lemma process_job_retry_branch_dead (job : QueueJob) (s : state) :
  process_job' job s =
  try_except
    (let* present := path_exists (file_path job) in
     if negb present then
       exec update_queue_status (file_path job) failed (Some "File not found") in
       ret true
     else
       exec mark_job_as_processing (job_id job) in
       exec process_file' (file_path job) in
       ret true)
    (fun _ => ret false) s.
Proof.
  unfold process_job, try_except, bind, path_exists, gets. simpl.
  destruct (negb _).
  - destruct (update_queue_status _ _ _ s) as [[[]|e] s1] eqn:E; [reflexivity|].
    apply execute_raises_db_only in E. rewrite E. reflexivity.
  - destruct (mark_job_as_processing _ s) as [[[]|e] s1] eqn:E.
    + destruct (process_file _ _ _ _ _ s1) as [[[]|e] s2] eqn:E2; [reflexivity|].
      apply process_file_raises_db_only in E2. rewrite E2. reflexivity.
    + apply execute_raises_db_only in E. rewrite E. reflexivity.
Qed.

End WorkerFacts.

(** C1 (observed behaviour at the failing input): a queued job with
    [retry_count = 0] and [max_retries = 3] whose file exists but whose
    transformation raises is left [failed] with the error string,
    [retry_count] still 0 and both timestamps set; it is not reset to
    [queued] although [retry_count + 1 < max_retries]. *)
Theorem failed_job_is_not_reset :
  let job := new_job 1 intake_a image 100 in
  let s' := snd (process_job example_digest example_file_id
                   broken_transformer broken_transformer job undecodable_job_state) in
  (retry_count job + 1 <? max_retries job)%Z = true /\
  map (fun j => (status j, retry_count j, error_message j,
                 started_at j, completed_at j)) (processing_queue s')
  = [(failed, 0%Z, Some "cannot identify image file", Some 100%Z, Some 100%Z)].
Proof. vm_compute. split; reflexivity. Qed.

(** ** The status and timestamp invariant *)

Lemma execute_queue_property (P : list QueueJob -> Prop) (f : state -> state) (s : state) :
  (forall s0, P (processing_queue s0) -> P (processing_queue (f s0))) ->
  P (processing_queue s) -> P (processing_queue (snd (execute f s))).
Proof.
  intros Hf HP. unfold execute, bind, db_statement, modify.
  destruct (db_faults s) as [|[] rest]; simpl; auto.
Qed.

Lemma update_rows_Forall (P : QueueJob -> Prop) (sel : QueueJob -> bool)
    (f : QueueJob -> QueueJob) (q : list QueueJob) :
  (forall j, P (f j)) -> Forall P q -> Forall P (update_rows sel f q).
Proof.
  intros Hf Hq. unfold update_rows. induction Hq as [|j q Hj Hq IH]; simpl.
  - constructor.
  - constructor; [destruct (sel j); auto | exact IH].
Qed.

Lemma set_status_kept (st : job_status) (msg : option string) (now : Z) (j : QueueJob) :
  st <> queued -> timestamps_kept (set_status st msg now j) = true.
Proof. destruct st; intros H; try reflexivity. congruence. Qed.

Lemma run_op_keeps_timestamps (op : queue_op) (s : state) :
  Forall (fun j => timestamps_kept j = true) (processing_queue s) ->
  Forall (fun j => timestamps_kept j = true) (processing_queue (run_op s op)).
Proof.
  intros H. unfold run_op.
  destruct op as [path ftype|id|path|path note|path msg|id|dt]; simpl;
    try (apply (execute_queue_property
                  (Forall (fun j => timestamps_kept j = true))); [|exact H];
         intros s0 H0; simpl).
  - destruct (existsb _ _); [exact H0|]. simpl.
    apply Forall_app; split; [exact H0|]. constructor; [reflexivity|constructor].
  - apply update_rows_Forall; [reflexivity|exact H0].
  - apply update_rows_Forall; [|exact H0]. intros j. apply set_status_kept. discriminate.
  - apply update_rows_Forall; [|exact H0]. intros j. apply set_status_kept. discriminate.
  - apply update_rows_Forall; [|exact H0]. intros j. apply set_status_kept. discriminate.
  - apply update_rows_Forall; [reflexivity|exact H0].
  - exact H.
Qed.

Lemma run_ops_keep_timestamps (ops : list queue_op) (s : state) :
  Forall (fun j => timestamps_kept j = true) (processing_queue s) ->
  Forall (fun j => timestamps_kept j = true) (processing_queue (run_ops ops s)).
Proof.
  revert s. induction ops as [|op ops IH]; intros s H; simpl; [exact H|].
  apply IH, run_op_keeps_timestamps, H.
Qed.

(** C3 (amended): in every state reached from an empty queue by enqueue,
    mark processing, mark completed or failed, retry reset and the passing
    of time, a queued row has [started_at] (and [completed_at]) NULL, a
    processing row has [started_at] set and a completed or failed row has
    [completed_at] set.  A row marked processing from [queued] also has
    [completed_at] NULL, as specified; a row marked processing from [failed]
    keeps the completion time of the failed attempt. *)
Theorem queue_timestamps_invariant (ops : list queue_op) (fs0 : gmap string bytes)
    (media : list MediaAsset) (keys : list EncryptionKey) (t0 : Z)
    (faults : list bool) (rnd : nat -> byte) (j : QueueJob) (now : Z) :
  Forall (fun r => timestamps_kept r = true)
         (processing_queue (run_ops ops (initial_state fs0 media keys t0 faults rnd)))
  /\ (timestamps_kept j = true -> status j = queued ->
      timestamps_as_specified (set_processing now j) = true
      /\ timestamps_as_specified (set_status processing None now j) = true)
  /\ (timestamps_kept j = true -> status j = failed ->
      status (set_processing now j) = processing
      /\ started_at (set_processing now j) = Some now
      /\ completed_at (set_processing now j) = completed_at j
      /\ completed_at j <> None).
Proof.
  split; [|split].
  - apply run_ops_keep_timestamps. constructor.
  - unfold timestamps_kept, timestamps_as_specified. intros H Hq. rewrite Hq in H.
    simpl. destruct (completed_at j); [|split; reflexivity].
    rewrite andb_false_r in H. discriminate.
  - unfold timestamps_kept. intros H Hf. rewrite Hf in H. simpl.
    repeat split. destruct (completed_at j); [discriminate|discriminate].
Qed.

Lemma queue_timestamps_invariant_witness :
  let j := new_job 1 intake_a image 100 in
  (timestamps_kept j = true /\ status j = queued) /\
  timestamps_as_specified (set_processing 105 j) = true.
Proof.
  split; [split; reflexivity|].
  apply (queue_timestamps_invariant [] ∅ [] [] 0 [] (fun _ => x00)
           (new_job 1 intake_a image 100) 105); reflexivity.
Defined.

(** C3 (counterexample to the invariant as specified): after a failed
    attempt, the worker's next round selects the job through
    [get_failed_jobs_for_retry] and marks it processing; the row is then
    [processing] with [completed_at] still set. *)
Lemma retried_job_is_processing_with_completed_at :
  let s1 := snd (worker_round example_digest example_file_id broken_transformer
                   broken_transformer 0 undecodable_job_state) in
  let s2 := snd (sleep 301 s1) in
  fst (get_failed_jobs_for_retry 3 s2) = Ok (processing_queue s2)
  /\ map job_id (processing_queue s2) = [1]
  /\ map (fun j => (status j, started_at j, completed_at j, timestamps_as_specified j))
         (processing_queue (snd (mark_job_as_processing 1 s2)))
     = [(processing, Some 401%Z, Some 100%Z, false)]
  /\ ~ Forall (fun j => timestamps_as_specified j = true)
         (processing_queue (run_ops retry_trace
            (initial_state ∅ [] [] 100 [] (fun _ => x00)))).
Proof.
  vm_compute. repeat split. intros H. inversion H; discriminate.
Qed.

(** ** The duplicate gate *)

(** A row of the queue after the two status updates of the duplicate path:
    it comes from a row [j0] of the old queue. *)
Ltac updated_row Hin Hpath :=
  simpl in Hin; unfold update_rows in Hin; rewrite map_map in Hin;
  apply in_map_iff in Hin; destruct Hin as [?j0 [Hin _]]; subst;
  match goal with
  | |- context [String.eqb (file_path ?j) ?p] =>
      let E := fresh "E" in
      destruct (String.eqb (file_path j) p) eqn:E;
      [ simpl; rewrite E; reflexivity
      | rewrite E in Hpath |- *; apply String.eqb_neq in E; contradiction ]
  end.

Section DuplicateGate.

Variable sha256_hex : bytes -> string.
Variable generate_file_id : string -> Z -> string.
Variable process_image : string -> string -> EncryptionKey -> M transform_result.
Variable process_video : string -> string -> EncryptionKey -> M transform_result.

Lemma find_some_hash (h : string) (m : list MediaAsset) (d : MediaAsset) :
  List.find (fun a => String.eqb (file_hash a) h) m = Some d ->
  In d m /\ file_hash d = h.
Proof.
  intros H. apply List.find_some in H. destruct H as [Hin Heq].
  split; [exact Hin|]. apply String.eqb_eq, Heq.
Qed.

(** C4: when the digest of the input file is the [file_hash] of an asset [d]
    already in the catalog (and the database answers), [process_file]
    returns normally after marking every queue row of that path [completed]
    with the note "Duplicate of existing file ID: <id of d>" and deleting the
    intake file; the media table and the key table are unchanged and no file
    is created.  The transformers are arbitrary: they are never run. *)
Theorem duplicate_short_circuit (path : string) (s : state) (content : bytes)
    (d : MediaAsset) :
  db_faults s = [] ->
  files s !! path = Some content ->
  List.find (fun a => String.eqb (file_hash a) (sha256_hex content)) (media_files s)
    = Some d ->
  exists s',
    process_file sha256_hex generate_file_id process_image process_video path s
      = (Ok tt, s')
    /\ In d (media_files s) /\ file_hash d = sha256_hex content
    /\ media_files s' = media_files s
    /\ encryption_keys s' = encryption_keys s
    /\ files s' = delete path (files s)
    /\ map job_id (processing_queue s') = map job_id (processing_queue s)
    /\ (forall j, In j (processing_queue s') -> file_path j = path ->
          status j = completed
          /\ error_message j = Some ("Duplicate of existing file ID: " +:+ asset_id d)
          /\ completed_at j = Some (clock s)).
Proof.
  intros Hdb Hfile Hdup.
  destruct (find_some_hash _ _ _ Hdup) as [Hin Hhash].
  eexists. split.
  - unfold process_file, try_except, process_file_body, bind.
    unfold update_queue_status at 1. rewrite execute_no_faults by exact Hdb.
    unfold calculate_file_hash, bind, read_file. simpl files. rewrite Hfile.
    unfold ret. unfold check_duplicate_by_hash. rewrite fetch_no_faults by exact Hdb.
    cbn [media_files with_queue]. rewrite Hdup.
    unfold update_queue_status. rewrite execute_no_faults by exact Hdb.
    unfold unlink. simpl files. rewrite Hfile. reflexivity.
  - repeat split; try assumption; try reflexivity.
    + simpl. unfold update_rows. rewrite !map_map. apply map_ext.
      intros j. destruct (String.eqb (file_path j) path) eqn:E; simpl; [|rewrite E; reflexivity].
      rewrite E. reflexivity.
    + updated_row H H0.
    + updated_row H H0.
    + updated_row H H0.
Qed.

End DuplicateGate.

Lemma duplicate_short_circuit_witness :
  (db_faults duplicate_job_state = []
   /\ files duplicate_job_state !! intake_a = Some [x00; x01; x02]
   /\ List.find (fun a => String.eqb (file_hash a) (example_digest [x00; x01; x02]))
        (media_files duplicate_job_state) = Some earlier_asset)
  /\ exists s',
       process_file example_digest example_file_id broken_transformer
         broken_transformer intake_a duplicate_job_state = (Ok tt, s')
       /\ media_files s' = [earlier_asset]
       /\ files s' = delete intake_a (files duplicate_job_state).
Proof.
  split; [repeat split|].
  destruct (duplicate_short_circuit example_digest example_file_id
              broken_transformer broken_transformer intake_a duplicate_job_state
              [x00; x01; x02] earlier_asset)
    as [s' [Hrun [_ [_ [Hmedia [_ [Hfiles _]]]]]]]; try reflexivity.
  exists s'. split; [exact Hrun|]. split; [exact Hmedia|exact Hfiles].
Defined.

(** ** Bytes, padding and CBC *)

Lemma byte_to_N_lt (a : byte) : (Byte.to_N a < 2 ^ 8)%N.
Proof. pose proof (Byte.to_N_bounded a). change (2 ^ 8)%N with 256%N. lia. Qed.

Lemma N_log2_lt_8 (n : N) : (n < 2 ^ 8)%N -> (N.log2 n < 8)%N.
Proof.
  intros H. destruct (N.eq_dec n 0%N) as [->|Hn]; [reflexivity|].
  apply N.log2_lt_pow2; [lia|exact H].
Qed.

Lemma N_lxor_lt_256 (a b : N) :
  (a < 2 ^ 8)%N -> (b < 2 ^ 8)%N -> (N.lxor a b < 2 ^ 8)%N.
Proof.
  intros Ha Hb. destruct (N.eq_dec (N.lxor a b) 0%N) as [->|Hn]; [reflexivity|].
  apply N.log2_lt_pow2; [lia|].
  pose proof (N.log2_lxor a b). pose proof (N_log2_lt_8 a Ha).
  pose proof (N_log2_lt_8 b Hb). lia.
Qed.

Lemma byte_xor_to_N (a b : byte) :
  Byte.to_N (byte_xor a b) = N.lxor (Byte.to_N a) (Byte.to_N b).
Proof.
  unfold byte_xor.
  destruct (Byte.of_N (N.lxor (Byte.to_N a) (Byte.to_N b))) as [c|] eqn:E.
  - apply Byte.to_of_N, E.
  - apply Byte.of_N_None_iff in E.
    pose proof (N_lxor_lt_256 _ _ (byte_to_N_lt a) (byte_to_N_lt b)) as H.
    change (2 ^ 8)%N with 256%N in H. lia.
Qed.

Lemma byte_xor_cancel (a b : byte) : byte_xor (byte_xor a b) b = a.
Proof.
  assert (H : Byte.to_N (byte_xor (byte_xor a b) b) = Byte.to_N a).
  { rewrite !byte_xor_to_N, N.lxor_assoc, N.lxor_nilpotent, N.lxor_0_r. reflexivity. }
  pose proof (Byte.of_to_N (byte_xor (byte_xor a b) b)) as H1.
  pose proof (Byte.of_to_N a) as H2. rewrite H in H1. congruence.
Qed.

Lemma xor_bytes_length (a b : bytes) :
  length a = length b -> length (xor_bytes a b) = length a.
Proof.
  revert b. induction a as [|x a IH]; intros [|y b] H; simpl in *; try lia.
  rewrite IH; lia.
Qed.

Lemma xor_bytes_cancel (a b : bytes) :
  length a = length b -> xor_bytes (xor_bytes a b) b = a.
Proof.
  revert b. induction a as [|x a IH]; intros [|y b] H; simpl in *; try lia.
  - reflexivity.
  - rewrite byte_xor_cancel, IH; [reflexivity|lia].
Qed.

Lemma pad_len_bounds (n : nat) : 1 <= pad_len n <= 16.
Proof. unfold pad_len. pose proof (Nat.mod_upper_bound n 16). lia. Qed.

Lemma pad_len_fills_block (n : nat) : (n + pad_len n) mod 16 = 0.
Proof.
  unfold pad_len. pose proof (Nat.mod_upper_bound n 16 ltac:(lia)) as Hlt.
  rewrite (Nat.div_mod_eq n 16) at 1.
  replace (16 * (n / 16) + n mod 16 + (16 - n mod 16)) with ((n / 16 + 1) * 16) by lia.
  apply Nat.Div0.mod_mul.
Qed.

Lemma pkcs7_pad_length (p : bytes) :
  length (pkcs7_pad p) = length p + pad_len (length p).
Proof. unfold pkcs7_pad. rewrite length_app, repeat_length. reflexivity. Qed.

Lemma byte_of_nat_to_nat (k : nat) : k <= 16 -> Byte.to_nat (byte_of_nat k) = k.
Proof.
  intros H. do 17 (destruct k as [|k]; [reflexivity|]). lia.
Qed.

Lemma last_app_repeat (p : bytes) (x d : byte) (k : nat) :
  1 <= k -> List.last (p ++ repeat x k) d = x.
Proof.
  intros Hk. destruct k as [|k]; [lia|].
  replace (repeat x (S k)) with (repeat x k ++ [x]).
  - rewrite app_assoc. apply List.last_last.
  - change [x] with (repeat x 1). rewrite <- repeat_app. f_equal. lia.
Qed.

(** Stripping the padding undoes [pkcs7_pad], for every length. *)
Lemma pkcs7_unpad_pad (p : bytes) : pkcs7_unpad (pkcs7_pad p) = p.
Proof.
  pose proof (pad_len_bounds (length p)) as Hb.
  unfold pkcs7_unpad. rewrite pkcs7_pad_length. unfold pkcs7_pad.
  rewrite last_app_repeat by lia. rewrite byte_of_nat_to_nat by lia.
  replace (length p + pad_len (length p) - pad_len (length p)) with (length p) by lia.
  rewrite take_app_length. reflexivity.
Qed.

Lemma chunks16_concat (fuel : nat) (l : bytes) :
  length l <= fuel -> concat (chunks16 fuel l) = l.
Proof.
  revert l. induction fuel as [|fuel IH]; intros l H.
  - destruct l; [reflexivity|simpl in H; lia].
  - destruct l as [|x l]; [reflexivity|].
    cbn [chunks16 concat]. rewrite IH.
    + apply take_drop.
    + rewrite length_drop. simpl in *. lia.
Qed.

Lemma chunks16_blocks (fuel : nat) (l : bytes) :
  length l <= fuel -> length l mod 16 = 0 ->
  Forall (fun b => length b = 16) (chunks16 fuel l).
Proof.
  revert l. induction fuel as [|fuel IH]; intros l H Hmod; [constructor|].
  destruct l as [|x l]; [constructor|].
  assert (Hge : 16 <= length (x :: l)).
  { destruct (Nat.lt_ge_cases (length (x :: l)) 16) as [Hlt|]; [|assumption].
    rewrite Nat.mod_small in Hmod by exact Hlt. simpl in Hmod. lia. }
  cbn [chunks16]. constructor.
  - rewrite length_take. lia.
  - apply IH.
    + rewrite length_drop. simpl in *. lia.
    + rewrite length_drop.
      replace (length (x :: l)) with ((length (x :: l) - 16) + 1 * 16) in Hmod by lia.
      rewrite Nat.Div0.mod_add in Hmod. exact Hmod.
Qed.

Lemma chunks16_of_concat (bs : list bytes) (fuel : nat) :
  Forall (fun b => length b = 16) bs -> length (concat bs) <= fuel ->
  chunks16 fuel (concat bs) = bs.
Proof.
  intros Hbs. revert fuel. induction Hbs as [|b bs Hb Hbs IH]; intros fuel Hfuel.
  - destruct fuel; reflexivity.
  - cbn [concat] in *. rewrite length_app in Hfuel.
    destruct fuel as [|fuel]; [lia|].
    destruct b as [|x b]; [discriminate|].
    change (chunks16 (S fuel) ((x :: b) ++ concat bs))
      with (take 16 ((x :: b) ++ concat bs)
            :: chunks16 fuel (drop 16 ((x :: b) ++ concat bs))).
    rewrite (take_app_length' _ _ 16 (eq_sym Hb)), (drop_app_length' _ _ 16 (eq_sym Hb)).
    rewrite IH; [reflexivity|lia].
Qed.

Lemma concat_blocks_length (bs : list bytes) :
  Forall (fun b => length b = 16) bs -> length (concat bs) = 16 * length bs.
Proof.
  induction 1 as [|b bs Hb Hbs IH]; [reflexivity|].
  cbn [concat]. rewrite length_app, IH, Hb. simpl. lia.
Qed.

Section CipherFacts.

Variable aes_block : bytes -> bytes -> bytes.
Variable aes_block_inv : bytes -> bytes -> bytes.

(** What is assumed of AES: on a key it accepts, a 16-byte block is mapped
    to a 16-byte block, and the inverse cipher maps it back. *)
Hypothesis aes_block_length :
  forall key b, valid_aes_key key = true -> length b = 16 ->
                length (aes_block key b) = 16.
Hypothesis aes_block_inverse :
  forall key b, valid_aes_key key = true -> length b = 16 ->
                aes_block_inv key (aes_block key b) = b.

Lemma cbc_encrypt_blocks_length (key prev : bytes) (bs : list bytes) :
  length (cbc_encrypt_blocks aes_block key prev bs) = length bs.
Proof.
  revert prev. induction bs as [|b bs IH]; intros prev; simpl; [reflexivity|].
  rewrite IH. reflexivity.
Qed.

Lemma cbc_encrypt_blocks_sized (key prev : bytes) (bs : list bytes) :
  valid_aes_key key = true -> length prev = 16 ->
  Forall (fun b => length b = 16) bs ->
  Forall (fun b => length b = 16) (cbc_encrypt_blocks aes_block key prev bs).
Proof.
  intros Hkey Hprev Hbs. revert prev Hprev.
  induction Hbs as [|b bs Hb Hbs IH]; intros prev Hprev; simpl; [constructor|].
  assert (Hc : length (aes_block key (xor_bytes b prev)) = 16).
  { apply aes_block_length; [exact Hkey|]. rewrite xor_bytes_length; lia. }
  constructor; [exact Hc|]. apply IH, Hc.
Qed.

Lemma cbc_blocks_round_trip (key prev : bytes) (bs : list bytes) :
  valid_aes_key key = true -> length prev = 16 ->
  Forall (fun b => length b = 16) bs ->
  cbc_decrypt_blocks aes_block_inv key prev (cbc_encrypt_blocks aes_block key prev bs) = bs.
Proof.
  intros Hkey Hprev Hbs. revert prev Hprev.
  induction Hbs as [|b bs Hb Hbs IH]; intros prev Hprev; simpl; [reflexivity|].
  assert (Hx : length (xor_bytes b prev) = 16) by (rewrite xor_bytes_length; lia).
  rewrite aes_block_inverse by assumption.
  rewrite xor_bytes_cancel by lia.
  rewrite IH; [reflexivity|]. apply aes_block_length; assumption.
Qed.

(** CBC keeps the length of block-aligned data. *)
Lemma cbc_encrypt_length (key iv data : bytes) :
  valid_aes_key key = true -> length iv = 16 -> length data mod 16 = 0 ->
  length (cbc_encrypt aes_block key iv data) = length data.
Proof.
  intros Hkey Hiv Hmod. unfold cbc_encrypt, blocks16.
  pose proof (chunks16_blocks (length data) data ltac:(lia) Hmod) as Hbs.
  rewrite concat_blocks_length by (apply cbc_encrypt_blocks_sized; assumption).
  rewrite cbc_encrypt_blocks_length.
  rewrite <- concat_blocks_length by exact Hbs.
  rewrite chunks16_concat by lia. reflexivity.
Qed.

Lemma cbc_decrypt_encrypt (key iv data : bytes) :
  valid_aes_key key = true -> length iv = 16 -> length data mod 16 = 0 ->
  cbc_decrypt aes_block_inv key iv (cbc_encrypt aes_block key iv data) = data.
Proof.
  intros Hkey Hiv Hmod. unfold cbc_decrypt, cbc_encrypt, blocks16.
  pose proof (chunks16_blocks (length data) data ltac:(lia) Hmod) as Hbs.
  rewrite chunks16_of_concat.
  - rewrite cbc_blocks_round_trip by assumption. apply chunks16_concat. lia.
  - apply cbc_encrypt_blocks_sized; assumption.
  - lia.
Qed.

(** An artifact [IV || ciphertext] of padded data reads back as the data. *)
Lemma decrypt_artifact_of_encrypted (key iv p : bytes) :
  valid_aes_key key = true -> length iv = 16 ->
  decrypt_artifact aes_block_inv key (iv ++ cbc_encrypt aes_block key iv (pkcs7_pad p)) = p.
Proof.
  intros Hkey Hiv. unfold decrypt_artifact.
  rewrite (take_app_length' _ _ 16 (eq_sym Hiv)), (drop_app_length' _ _ 16 (eq_sym Hiv)).
  rewrite cbc_decrypt_encrypt; [apply pkcs7_unpad_pad|assumption..|].
  rewrite pkcs7_pad_length. apply pad_len_fills_block.
Qed.

End CipherFacts.

(** ** The file encryptor *)

Lemma enc_path_ne (p : string) : enc_path p <> p.
Proof.
  unfold enc_path. induction p as [|c p IH]; simpl; [discriminate|].
  intros H. injection H as H. exact (IH H).
Qed.

Lemma example_block_length (key b : bytes) :
  valid_aes_key key = true -> length b = 16 -> length (example_block key b) = 16.
Proof.
  intros _ Hb. unfold example_block. rewrite xor_bytes_length; [exact Hb|].
  rewrite length_take, length_app, repeat_length. lia.
Qed.

Lemma example_block_inverse (key b : bytes) :
  valid_aes_key key = true -> length b = 16 ->
  example_block key (example_block key b) = b.
Proof.
  intros _ Hb. unfold example_block. apply xor_bytes_cancel.
  rewrite length_take, length_app, repeat_length. lia.
Qed.

Section EncryptorFacts.

Variable aes_block : bytes -> bytes -> bytes.

(** The path through [encrypt_file] for an existing, non-empty file when
    nothing raises: the state it leaves. *)
Lemma encrypt_file_runs (fuel : nat) (path key_hex : string) (w : world)
    (content key : bytes) :
  fs w !! path = Some content ->
  1 <= length content ->
  fromhex key_hex = Some key ->
  valid_aes_key key = true ->
  hd Runs (io_faults w) = Runs ->
  let iv := map (entropy w) (seq (cursor w) 16) in
  let artifact := iv ++ cbc_encrypt aes_block key iv (pkcs7_pad content) in
  exists w',
    encrypt_file aes_block (S fuel) path key_hex w = (Ok (enc_path path), w')
    /\ fs w' = delete path (<[enc_path path := artifact]> (fs w))
    /\ cursor w' = cursor w + 16
    /\ log w' = log w
         ++ (if length content <? 100 then [LogSuspiciouslySmall (length content)] else [])
         ++ (if length artifact <? 32 then [LogEncryptedTooSmall (length artifact)] else []).
Proof.
  intros Hfile Hlen Hhex Hkey Hrun iv artifact.
  cbn [encrypt_file]. rewrite Hfile.
  destruct content as [|x content]; [simpl in Hlen; lia|].
  change (length (x :: content) =? 0) with false. cbv iota.
  rewrite Hhex. unfold os_urandom, next_outcome.
  set (n := length (x :: content)) in *.
  destruct (n <? 100) eqn:Hsmall; cbn [io_faults add_log cursor entropy fs log];
    destruct (io_faults w) as [|o rest] eqn:Hfaults;
    simpl in Hrun; subst; rewrite Hkey; fold iv; fold artifact;
    destruct (length artifact <? 32) eqn:Hshort;
    eexists; (split; [reflexivity|]);
    cbn [fs cursor log set_fs add_log]; rewrite ?app_nil_r, <- ?app_assoc;
    repeat split; reflexivity.
Qed.

End EncryptorFacts.

Section EncryptedArtifacts.

Variable aes_block : bytes -> bytes -> bytes.
Variable aes_block_inv : bytes -> bytes -> bytes.

Hypothesis aes_block_length :
  forall key b, valid_aes_key key = true -> length b = 16 ->
                length (aes_block key b) = 16.

Lemma urandom_length (w : world) (n : nat) : length (fst (os_urandom n w)) = n.
Proof. unfold os_urandom. simpl. rewrite length_map, length_seq. reflexivity. Qed.

Lemma artifact_length (key iv content : bytes) :
  valid_aes_key key = true -> length iv = 16 ->
  length (iv ++ cbc_encrypt aes_block key iv (pkcs7_pad content))
  = 16 + length content + (16 - length content mod 16).
Proof.
  intros Hkey Hiv. rewrite length_app, Hiv.
  rewrite (cbc_encrypt_length aes_block aes_block_length) by
    (try assumption; rewrite pkcs7_pad_length; apply pad_len_fills_block).
  rewrite pkcs7_pad_length. unfold pad_len. lia.
Qed.

(** C10: for an existing file of [n >= 1] bytes, a well-formed key and a run
    in which nothing raises, [encrypt_file] writes to [{path}.enc] exactly
    [16 + n + (16 - n mod 16)] bytes, a multiple of 16 and at least 32, and
    the "encrypted file too small" message is not logged. *)
Theorem encrypted_size_of_nonempty_file (fuel : nat) (path key_hex : string)
    (w : world) (content key : bytes) :
  fs w !! path = Some content ->
  1 <= length content ->
  fromhex key_hex = Some key ->
  valid_aes_key key = true ->
  hd Runs (io_faults w) = Runs ->
  exists artifact w',
    encrypt_file aes_block (S fuel) path key_hex w = (Ok (enc_path path), w')
    /\ fs w' !! enc_path path = Some artifact
    /\ length artifact = 16 + length content + (16 - length content mod 16)
    /\ length artifact mod 16 = 0
    /\ 32 <= length artifact
    /\ (forall k, In (LogEncryptedTooSmall k) (log w') ->
                  In (LogEncryptedTooSmall k) (log w)).
Proof.
  intros Hfile Hlen Hhex Hkey Hrun.
  destruct (encrypt_file_runs aes_block fuel path key_hex w content key
              Hfile Hlen Hhex Hkey Hrun) as [w' [Hrun' [Hfs [_ Hlog]]]].
  set (iv := map (entropy w) (seq (cursor w) 16)) in *.
  set (artifact := iv ++ cbc_encrypt aes_block key iv (pkcs7_pad content)) in *.
  assert (Hiv : length iv = 16) by (unfold iv; rewrite length_map, length_seq; reflexivity).
  assert (Hsize : length artifact = 16 + length content + (16 - length content mod 16))
    by (apply artifact_length; assumption).
  assert (Hmod : length artifact mod 16 = 0).
  { rewrite Hsize. pose proof (pad_len_fills_block (length content)) as Hp.
    unfold pad_len in Hp.
    replace (16 + length content + (16 - length content mod 16))
      with ((length content + (16 - length content mod 16)) + 1 * 16) by lia.
    rewrite Nat.Div0.mod_add. exact Hp. }
  assert (Hge : 32 <= length artifact).
  { rewrite Hsize. pose proof (Nat.mod_upper_bound (length content) 16 ltac:(lia)).
    pose proof (Nat.Div0.mod_le (length content) 16). lia. }
  exists artifact, w'. repeat split; try assumption.
  - rewrite Hfs, lookup_delete_ne by (intros E; symmetry in E; exact (enc_path_ne path E)).
    apply lookup_insert_eq.
  - intros k Hin. rewrite Hlog in Hin.
    apply Nat.ltb_ge in Hge. rewrite Hge, app_nil_r in Hin.
    apply in_app_or in Hin. destruct Hin as [Hin|Hin]; [exact Hin|].
    destruct (length content <? 100); simpl in Hin; [|contradiction].
    destruct Hin as [Hin|[]]. discriminate.
Qed.

Hypothesis aes_block_inverse :
  forall key b, valid_aes_key key = true -> length b = 16 ->
                aes_block_inv key (aes_block key b) = b.

(** C2 (amended): for every non-empty plaintext file, a well-formed key and
    a run in which nothing raises, [encrypt_file] pads with PKCS#7 (pad
    length in 1..16, to a multiple of 16), encrypts in CBC mode under 16
    fresh bytes of [os.urandom] and writes [IV || ciphertext] to
    [{path}.enc]; decrypting what it wrote under the same key and the stored
    IV and stripping the padding gives back the plaintext. *)
Theorem encrypted_file_round_trip (fuel : nat) (path key_hex : string)
    (w : world) (content key : bytes) :
  fs w !! path = Some content ->
  1 <= length content ->
  fromhex key_hex = Some key ->
  valid_aes_key key = true ->
  hd Runs (io_faults w) = Runs ->
  exists iv ciphertext w',
    encrypt_file aes_block (S fuel) path key_hex w = (Ok (enc_path path), w')
    /\ fs w' !! enc_path path = Some (iv ++ ciphertext)
    /\ iv = fst (os_urandom 16 w) /\ length iv = 16
    /\ cursor w' = cursor w + 16
    /\ ciphertext = cbc_encrypt aes_block key iv (pkcs7_pad content)
    /\ 1 <= length (pkcs7_pad content) - length content <= 16
    /\ length (pkcs7_pad content) mod 16 = 0
    /\ pkcs7_unpad (cbc_decrypt aes_block_inv key iv ciphertext) = content
    /\ decrypt_artifact aes_block_inv key (iv ++ ciphertext) = content.
Proof.
  intros Hfile Hlen Hhex Hkey Hrun.
  destruct (encrypt_file_runs aes_block fuel path key_hex w content key
              Hfile Hlen Hhex Hkey Hrun) as [w' [Hrun' [Hfs [Hcur _]]]].
  set (iv := map (entropy w) (seq (cursor w) 16)) in *.
  assert (Hiv : length iv = 16) by (unfold iv; rewrite length_map, length_seq; reflexivity).
  assert (Hpad : length (pkcs7_pad content) mod 16 = 0)
    by (rewrite pkcs7_pad_length; apply pad_len_fills_block).
  exists iv, (cbc_encrypt aes_block key iv (pkcs7_pad content)), w'.
  repeat split; try assumption; try reflexivity.
  - rewrite Hfs, lookup_delete_ne by (intros E; symmetry in E; exact (enc_path_ne path E)).
    apply lookup_insert_eq.
  - rewrite pkcs7_pad_length. pose proof (pad_len_bounds (length content)). lia.
  - rewrite pkcs7_pad_length. pose proof (pad_len_bounds (length content)). lia.
  - rewrite (cbc_decrypt_encrypt aes_block aes_block_inv aes_block_length aes_block_inverse)
      by assumption.
    apply pkcs7_unpad_pad.
  - apply (decrypt_artifact_of_encrypted aes_block aes_block_inv aes_block_length
             aes_block_inverse); assumption.
Qed.

End EncryptedArtifacts.

Lemma encrypted_size_of_nonempty_file_witness :
  (fs small_file_world !! thumb_path = Some [x52; x49; x46]
   /\ fromhex example_key_hex = Some example_key
   /\ valid_aes_key example_key = true)
  /\ exists artifact w',
       encrypt_file example_block 1 thumb_path example_key_hex small_file_world
         = (Ok (enc_path thumb_path), w')
       /\ fs w' !! enc_path thumb_path = Some artifact
       /\ length artifact = 32.
Proof.
  split; [repeat split|].
  destruct (encrypted_size_of_nonempty_file example_block example_block_length
              0 thumb_path example_key_hex small_file_world [x52; x49; x46] example_key)
    as [artifact [w' [Hrun [Hfs [Hlen _]]]]];
    [reflexivity | simpl; lia | reflexivity | reflexivity | reflexivity |].
  exists artifact, w'. split; [exact Hrun|]. split; [exact Hfs|exact Hlen].
Defined.

Lemma encrypted_file_round_trip_witness :
  (fs small_file_world !! thumb_path = Some [x52; x49; x46]
   /\ fromhex example_key_hex = Some example_key
   /\ valid_aes_key example_key = true)
  /\ exists artifact w',
       encrypt_file example_block 1 thumb_path example_key_hex small_file_world
         = (Ok (enc_path thumb_path), w')
       /\ fs w' !! enc_path thumb_path = Some artifact
       /\ decrypt_artifact example_block example_key artifact = [x52; x49; x46].
Proof.
  split; [repeat split|].
  destruct (encrypted_file_round_trip example_block example_block example_block_length
              example_block_inverse 0 thumb_path example_key_hex small_file_world
              [x52; x49; x46] example_key)
    as [iv [ct [w' [Hrun [Hfs [_ [_ [_ [_ [_ [_ [_ Hdec]]]]]]]]]]]];
    [reflexivity | simpl; lia | reflexivity | reflexivity | reflexivity |].
  exists (iv ++ ct), w'. split; [exact Hrun|]. split; [exact Hfs|exact Hdec].
Defined.

(** C2 (counterexample to "for every plaintext length"): for an existing
    empty file the encryptor does not pad and encrypt the plaintext; it
    deletes the file and writes the placeholder under an all-zero IV to
    [non-existent.enc].  What it wrote decrypts to the 43-byte placeholder
    image, not to the empty plaintext, and [{path}.enc] does not exist. *)
Lemma empty_file_does_not_round_trip :
  let r := encrypt_file example_block 2 thumb_path example_key_hex empty_file_world in
  fs empty_file_world !! thumb_path = Some []
  /\ fst r = Ok "non-existent.enc"
  /\ fs (snd r) !! enc_path thumb_path = None
  /\ fs (snd r) !! "non-existent.enc" = Some (placeholder_artifact example_block example_key)
  /\ take 16 (placeholder_artifact example_block example_key) = repeat x00 16
  /\ decrypt_artifact example_block example_key
       (placeholder_artifact example_block example_key) = placeholder_webp
  /\ placeholder_webp <> [].
Proof. vm_compute. repeat split. discriminate. Qed.

Lemma enc_path_not_sentinel (p : string) : enc_path p <> sentinel_path.
Proof.
  unfold enc_path, sentinel_path. intros H.
  do 12 (destruct p as [|? p]; [discriminate|]; simpl in H; injection H as _ H).
  destruct p; discriminate.
Qed.

Section PlaceholderFacts.

Variable aes_block : bytes -> bytes -> bytes.

(** A missing file: the placeholder is written to [{path}.enc]. *)
Lemma encrypt_file_missing (fuel : nat) (path key_hex : string) (w : world) (key : bytes) :
  fs w !! path = None ->
  fromhex key_hex = Some key ->
  valid_aes_key key = true ->
  exists w',
    encrypt_file aes_block (S fuel) path key_hex w = (Ok (enc_path path), w')
    /\ fs w' = <[enc_path path := placeholder_artifact aes_block key]> (fs w).
Proof.
  intros Hfile Hhex Hkey. cbn [encrypt_file]. rewrite Hfile.
  unfold encrypt_placeholder. rewrite Hhex, Hkey. eexists. split; reflexivity.
Qed.

(** An empty file, with nothing at the sentinel path: the file is deleted
    and the placeholder is written to [non-existent.enc]. *)
Lemma encrypt_file_empty (fuel : nat) (path key_hex : string) (w : world) (key : bytes) :
  fs w !! path = Some [] ->
  fs w !! sentinel_path = None ->
  fromhex key_hex = Some key ->
  valid_aes_key key = true ->
  exists w',
    encrypt_file aes_block (S (S fuel)) path key_hex w = (Ok (enc_path sentinel_path), w')
    /\ fs w' = <[enc_path sentinel_path := placeholder_artifact aes_block key]>
                 (delete path (fs w)).
Proof.
  intros Hfile Hsent Hhex Hkey.
  assert (Hne : path <> sentinel_path) by congruence.
  remember (S fuel) as fuel1 eqn:Hfuel. cbn [encrypt_file].
  rewrite Hfile. cbn [length Nat.eqb]. subst fuel1.
  destruct (encrypt_file_missing fuel sentinel_path key_hex
              (set_fs (delete path) (add_log (LogEmpty path) w)) key) as [w' [Hrun Hfs]];
    try assumption.
  - cbn [fs set_fs add_log]. rewrite lookup_delete_ne by exact Hne. exact Hsent.
  - exists w'. split; [exact Hrun|exact Hfs].
Qed.

(** A run of the [try] block that raises, with nothing at the sentinel
    path: whatever was written to [{path}.enc] is removed, the plaintext
    stays, and the placeholder is written to [non-existent.enc]. *)
Lemma encrypt_file_raising (fuel : nat) (path key_hex : string) (w : world)
    (content key : bytes) :
  fs w !! path = Some content ->
  1 <= length content ->
  hd Runs (io_faults w) <> Runs ->
  fs w !! sentinel_path = None ->
  fromhex key_hex = Some key ->
  valid_aes_key key = true ->
  exists w',
    encrypt_file aes_block (S (S fuel)) path key_hex w = (Ok (enc_path sentinel_path), w')
    /\ fs w' = <[enc_path sentinel_path := placeholder_artifact aes_block key]>
                 (delete (enc_path path) (fs w)).
Proof.
  intros Hfile Hlen Hrun Hsent Hhex Hkey.
  pose proof (enc_path_not_sentinel path) as Hne.
  remember (S fuel) as fuel1 eqn:Hfuel.
  cbn [encrypt_file]. rewrite Hfile.
  destruct content as [|x content]; [simpl in Hlen; lia|].
  change (length (x :: content) =? 0) with false. cbv iota.
  rewrite Hhex. unfold os_urandom, next_outcome.
  set (n := length (x :: content)) in *.
  destruct (io_faults w) as [|o rest] eqn:Hfaults; [simpl in Hrun; congruence|].
  simpl in Hrun. subst fuel1.
  destruct (n <? 100) eqn:Hsmall; cbn [io_faults add_log cursor entropy fs log];
    rewrite Hfaults; destruct o; try congruence; rewrite ?Hkey;
    match goal with
    | |- context [encrypt_file aes_block (S fuel) sentinel_path key_hex ?w0] =>
        destruct (encrypt_file_missing fuel sentinel_path key_hex w0 key)
          as [w' [Hrun' Hfs]]; try assumption;
        [ cbn [fs set_fs add_log]; rewrite lookup_delete_ne by exact Hne;
          rewrite ?lookup_insert_ne by exact Hne; exact Hsent
        | exists w'; split; [exact Hrun'|];
          rewrite Hfs; cbn [fs set_fs add_log]; rewrite ?delete_insert_eq; reflexivity ]
    end.
Qed.

End PlaceholderFacts.

(** C5 (observed behaviour at the failing input): the plaintext file is
    empty and a file named [non-existent] lies in the working directory.
    The encryptor deletes the empty file, then encrypts the file
    [non-existent] under a random IV into [non-existent.enc] and deletes it;
    the path returned does not hold the placeholder, and [{path}.enc] does
    not exist.  Without the file [non-existent] the placeholder is written,
    but again to [non-existent.enc] and not to [{path}.enc]. *)
Theorem sentinel_file_defeats_placeholder :
  let r := encrypt_file example_block 2 thumb_path example_key_hex sentinel_world in
  let r0 := encrypt_file example_block 2 thumb_path example_key_hex empty_file_world in
  let iv := repeat x2a 16 in
  fs sentinel_world !! thumb_path = Some []
  /\ fs sentinel_world !! sentinel_path = Some [x41]
  /\ fst r = Ok "non-existent.enc"
  /\ fs (snd r) !! "non-existent.enc"
     = Some (iv ++ cbc_encrypt example_block example_key iv (pkcs7_pad [x41]))
  /\ fs (snd r) !! "non-existent.enc"
     <> Some (placeholder_artifact example_block example_key)
  /\ fs (snd r) !! enc_path thumb_path = None
  /\ fs (snd r) !! sentinel_path = None
  /\ fst r0 = Ok "non-existent.enc"
  /\ fs (snd r0) !! "non-existent.enc"
     = Some (placeholder_artifact example_block example_key)
  /\ fs (snd r0) !! enc_path thumb_path = None.
Proof.
  vm_compute. repeat split. intros H. discriminate H.
Qed.

(** ** Hexadecimal text *)

Lemma fromhex_hex_byte (x : byte) (s : string) :
  fromhex (String (hex_digit (Byte.to_N x / 16))
             (String (hex_digit (Byte.to_N x mod 16)) s))
  = match fromhex s with Some r => Some (x :: r) | None => None end.
Proof. destruct x; reflexivity. Qed.

Example fromhex_examples :
  fromhex "00 ff 0A" = Some [x00; xff; x0a]
  /\ fromhex "0" = None /\ fromhex "0g" = None
  /\ hex [x00; xff; x0a] = "00ff0a".
Proof. repeat split. Qed.

(** [bytes.fromhex(b.hex()) == b] *)
Lemma fromhex_hex (b : bytes) : fromhex (hex b) = Some b.
Proof.
  induction b as [|x b IH]; [reflexivity|].
  cbn [hex]. rewrite fromhex_hex_byte, IH. reflexivity.
Qed.

Lemma hex_well_formed (id : nat) (b : bytes) (iv : string) (active : bool) :
  length b = 16 ->
  key_well_formed {| key_id := id; key_value := hex b; iv_value := iv;
                     is_active := active |} = true.
Proof.
  intros H. unfold key_well_formed. cbn [key_value]. rewrite fromhex_hex.
  rewrite H, String.eqb_refl. reflexivity.
Qed.

(** ** The key store *)

Lemma db_statement_eq (s : state) :
  db_statement s
  = (if hd false (db_faults s)
     then Raise (DatabaseError "server closed the connection unexpectedly")
     else Ok tt,
     with_db_faults (fun _ => tl (db_faults s)) s).
Proof.
  unfold db_statement. destruct s as [q m k f c faults r p]. cbn [db_faults].
  destruct faults as [|[] rest]; reflexivity.
Qed.

Lemma find_app_new {A : Type} (f : A -> bool) (l : list A) (x : A) :
  List.find f l = None -> f x = true -> List.find f (l ++ [x]) = Some x.
Proof.
  intros Hnone Hx. induction l as [|y l IH]; simpl in *.
  - rewrite Hx. reflexivity.
  - destruct (f y); [discriminate|]. apply IH, Hnone.
Qed.

Lemma write_key_file_ok (k : EncryptionKey) (s : state) :
  key_well_formed k = true ->
  exists b,
    _write_binary_key_file (key_value k) s
      = (Ok tt, with_files (insert key_file_path b) s)
    /\ fromhex (key_value k) = Some b /\ length b = 16 /\ hex b = key_value k.
Proof.
  unfold key_well_formed, _write_binary_key_file. intros H.
  destruct (fromhex (key_value k)) as [b|]; [|discriminate].
  apply andb_true_iff in H. destruct H as [Hlen Hhex].
  exists b. repeat split.
  - apply Nat.eqb_eq, Hlen.
  - apply String.eqb_eq, Hhex.
Qed.

Lemma random_bytes_length (s : state) (n : nat) :
  length (map (random s) (seq (random_pos s) n)) = n.
Proof. rewrite length_map, length_seq. reflexivity. Qed.

Lemma active_key_found (s : state) (k : EncryptionKey) :
  Forall (fun r => key_well_formed r = true) (encryption_keys s) ->
  select_active_key s = Some k ->
  In k (encryption_keys s) /\ is_active k = true /\ key_well_formed k = true.
Proof.
  intros Hwf Hsel. apply List.find_some in Hsel. destruct Hsel as [Hin Hact].
  repeat split; try assumption.
  rewrite Forall_forall in Hwf. apply Hwf. apply list_elem_of_In, Hin.
Qed.

Ltac db_step_in E :=
  rewrite db_statement_eq in E;
  match type of E with
  | context [hd false (db_faults ?s)] =>
      let F := fresh "Hfault" in
      destruct (hd false (db_faults s)) eqn:F
  end;
  cbv beta iota zeta in E.

Ltac state_simpl :=
  cbn [encryption_keys files processing_queue media_files clock random random_pos
       with_db_faults with_random_pos with_keys with_files with_queue with_media
       with_clock] in *.

(** The [try] block of key creation either leaves the table as it was and
    raises, or appends one well-formed active row (and may still raise while
    reading it back). *)
Lemma create_encryption_key_outcome (s s1 : state) (r : result EncryptionKey) :
  create_encryption_key s = (r, s1) ->
  select_active_key s = None ->
  files s1 = files s
  /\ ((encryption_keys s1 = encryption_keys s /\ exists e, r = Raise e)
      \/ exists key,
           encryption_keys s1 = encryption_keys s ++ [key]
           /\ is_active key = true /\ key_well_formed key = true
           /\ select_active_key s1 = Some key
           /\ (r = Ok key \/ exists e, r = Raise e)).
Proof.
  intros E Hsel.
  unfold create_encryption_key, bind, token_hex, gets, modify in E.
  db_step_in E; [inversion E; subst; state_simpl; split; [reflexivity|left; eauto]|].
  db_step_in E; [inversion E; subst; state_simpl; split; [reflexivity|left; eauto]|].
  db_step_in E; [inversion E; subst; state_simpl; split; [reflexivity|left; eauto]|].
  match type of E with
  | context [with_keys (fun ks => ks ++ [?k]) _] => set (key := k) in *
  end.
  assert (Hact : is_active key = true) by reflexivity.
  assert (Hk : key_well_formed key = true).
  { apply hex_well_formed. rewrite length_map, length_seq. reflexivity. }
  assert (Hfind : forall st, encryption_keys st = encryption_keys s ++ [key] ->
                             select_active_key st = Some key).
  { intros st Hst. unfold select_active_key. rewrite Hst.
    apply find_app_new; [exact Hsel|exact Hact]. }
  db_step_in E.
  - inversion E; subst. state_simpl. split; [reflexivity|]. right. exists key.
    repeat split; try assumption; try reflexivity.
    + apply Hfind. reflexivity.
    + right. eauto.
  - rewrite Hfind in E by reflexivity.
    unfold ret in E. inversion E; subst. state_simpl. split; [reflexivity|].
    right. exists key. repeat split; try assumption; try reflexivity.
    + apply Hfind. reflexivity.
    + left. reflexivity.
Qed.

Lemma keys_well_formed_app (ks : list EncryptionKey) (key : EncryptionKey) :
  Forall (fun k => key_well_formed k = true) ks ->
  key_well_formed key = true ->
  Forall (fun k => key_well_formed k = true) (ks ++ [key]).
Proof. intros H Hk. apply Forall_app. split; [exact H|]. constructor; [exact Hk|constructor]. Qed.

(** Every way [get_or_create_encryption_key] can end. *)
Lemma acquisition_outcome (s s' : state) (r : result EncryptionKey) :
  Forall (fun k => key_well_formed k = true) (encryption_keys s) ->
  get_or_create_encryption_key s = (r, s') ->
  Forall (fun k => key_well_formed k = true) (encryption_keys s')
  /\ match r with
     | Ok key =>
         is_active key = true
         /\ In key (encryption_keys s')
         /\ exists b,
              files s' !! key_file_path = Some b
              /\ length b = 16 /\ hex b = key_value key
     | Raise e =>
         is_db_error e = true
         \/ (e = Exception "Unable to create or retrieve encryption key"
             /\ select_active_key s' = None)
     end.
Proof.
  intros Hwf E.
  unfold get_or_create_encryption_key, fetch, bind, gets in E.
  db_step_in E.
  { inversion E; subst. split; [exact Hwf|]. left. reflexivity. }
  change (select_active_key (with_db_faults ?f s)) with (select_active_key s) in E.
  set (s0 := with_db_faults (fun _ => tl (db_faults s)) s) in *.
  assert (Hfinish : forall k st,
            In k (encryption_keys st) -> is_active k = true ->
            key_well_formed k = true ->
            Forall (fun k => key_well_formed k = true) (encryption_keys st) ->
            (let (r0, s'0) := _write_binary_key_file (key_value k) st in
             match r0 with
             | Ok _ => ret k s'0
             | Raise e => (Raise e, s'0)
             end) = (r, s') ->
            Forall (fun k => key_well_formed k = true) (encryption_keys s')
            /\ match r with
               | Ok key =>
                   is_active key = true
                   /\ In key (encryption_keys s')
                   /\ exists b,
                        files s' !! key_file_path = Some b
                        /\ length b = 16 /\ hex b = key_value key
               | Raise e =>
                   is_db_error e = true
                   \/ (e = Exception "Unable to create or retrieve encryption key"
                       /\ select_active_key s' = None)
               end).
  { intros k st Hin Hact Hk Hst E'.
    destruct (write_key_file_ok k st Hk) as [b [Hw [_ [Hlen Hhex]]]].
    rewrite Hw in E'. unfold ret in E'. inversion E'; subst.
    split; [exact Hst|]. repeat split; try assumption.
    exists b. cbn [files with_files]. rewrite lookup_insert_eq.
    repeat split; assumption. }
  destruct (select_active_key s) as [k|] eqn:Hsel.
  { destruct (active_key_found s k Hwf Hsel) as [Hin [Hact Hk]].
    unfold ret at 1 in E. apply (Hfinish k s0); assumption. }
  unfold try_except in E.
  destruct (create_encryption_key s0) as [rc s1] eqn:Ec.
  destruct (create_encryption_key_outcome s0 s1 rc Ec Hsel) as [Hfiles Hcases].
  destruct Hcases as [[Hkeys [e He]]|[key [Hkeys [Hact [Hk [Hsel1 Hr]]]]]].
  - subst rc. unfold bind in E. db_step_in E.
    { inversion E; subst. state_simpl. rewrite Hkeys. split; [exact Hwf|]. left. reflexivity. }
    change (select_active_key (with_db_faults ?f s1)) with (select_active_key s1) in E.
    assert (Hnone : select_active_key s1 = None)
      by (unfold select_active_key in *; rewrite Hkeys; exact Hsel).
    rewrite Hnone in E. unfold raise in E. inversion E; subst. state_simpl.
    rewrite Hkeys. split; [exact Hwf|]. right. split; [reflexivity|].
    exact Hnone.
  - assert (Hwf1 : Forall (fun k => key_well_formed k = true) (encryption_keys s1)).
    { rewrite Hkeys. apply keys_well_formed_app; assumption. }
    assert (Hin1 : In key (encryption_keys s1)).
    { rewrite Hkeys. apply in_or_app. right. left. reflexivity. }
    destruct Hr as [->|[e ->]].
    + apply (Hfinish key s1); assumption.
    + unfold bind in E. db_step_in E.
      { inversion E; subst. state_simpl. split; [exact Hwf1|]. left. reflexivity. }
      change (select_active_key (with_db_faults ?f s1)) with (select_active_key s1) in E.
      rewrite Hsel1 in E. unfold ret at 1 in E.
      apply (Hfinish key (with_db_faults (fun _ => tl (db_faults s1)) s1)); assumption.
Qed.

(** An active row exists and the select succeeds: that row is returned and
    nothing is inserted. *)
Lemma existing_key_selected (s s' : state) (r : result EncryptionKey) (k : EncryptionKey) :
  Forall (fun k => key_well_formed k = true) (encryption_keys s) ->
  get_or_create_encryption_key s = (r, s') ->
  select_active_key s = Some k ->
  hd false (db_faults s) = false ->
  r = Ok k /\ encryption_keys s' = encryption_keys s /\ random_pos s' = random_pos s.
Proof.
  intros Hwf E Hsel Hfault.
  destruct (active_key_found s k Hwf Hsel) as [_ [_ Hk]].
  unfold get_or_create_encryption_key, fetch, bind, gets in E.
  rewrite db_statement_eq, Hfault in E. cbv beta iota zeta in E.
  change (select_active_key (with_db_faults ?f s)) with (select_active_key s) in E.
  rewrite Hsel in E. unfold ret at 1 in E.
  destruct (write_key_file_ok k (with_db_faults (fun _ => tl (db_faults s)) s) Hk)
    as [b [Hw _]].
  rewrite Hw in E. unfold ret in E. inversion E; subst. repeat split.
Qed.

(** Key creation when the database answers every statement. *)
Lemma create_encryption_key_no_faults (s : state) :
  db_faults s = [] ->
  select_active_key s = None ->
  let key := {| key_id := fresh_key_id (encryption_keys s);
                key_value := hex (map (random s) (seq (random_pos s) 16));
                iv_value := hex (map (random s) (seq (random_pos s + 16) 16));
                is_active := true |} in
  create_encryption_key s
  = (Ok key,
     with_keys (fun ks => ks ++ [key])
       (with_random_pos (fun p => p + 16) (with_random_pos (fun p => p + 16) s))).
Proof.
  intros Hfaults Hsel key.
  unfold create_encryption_key, bind, token_hex, gets, modify.
  rewrite (db_statement_no_faults s Hfaults).
  rewrite (db_statement_no_faults
             (with_random_pos (fun p => p + 16) (with_random_pos (fun p => p + 16) s))
             Hfaults).
  rewrite (db_statement_no_faults
             (with_random_pos (fun p => p + 16) (with_random_pos (fun p => p + 16) s))
             Hfaults).
  cbn [random random_pos encryption_keys with_random_pos]. fold key.
  rewrite (db_statement_no_faults
             (with_keys (fun ks => ks ++ [key])
                (with_random_pos (fun p => p + 16)
                   (with_random_pos (fun p => p + 16) s))) Hfaults).
  unfold select_active_key. cbn [encryption_keys with_keys with_random_pos].
  rewrite (find_app_new is_active (encryption_keys s) key Hsel eq_refl).
  reflexivity.
Qed.

(** No active row and no database fault: a row is inserted whose key and IV
    are the hexadecimal text of two successive draws of 16 random bytes, with
    [is_active = true]; the read-back finds it. *)
Lemma fresh_key_created (s s' : state) (r : result EncryptionKey) :
  get_or_create_encryption_key s = (r, s') ->
  select_active_key s = None ->
  db_faults s = [] ->
  exists key,
    r = Ok key
    /\ key_value key = hex (map (random s) (seq (random_pos s) 16))
    /\ iv_value key = hex (map (random s) (seq (random_pos s + 16) 16))
    /\ is_active key = true
    /\ encryption_keys s' = encryption_keys s ++ [key]
    /\ select_active_key s' = Some key.
Proof.
  intros E Hsel Hfaults.
  unfold get_or_create_encryption_key, fetch, bind, gets in E.
  rewrite (db_statement_no_faults s Hfaults), Hsel in E.
  unfold try_except in E.
  rewrite (create_encryption_key_no_faults s Hfaults Hsel) in E.
  cbv beta iota zeta in E.
  set (key := {| key_id := fresh_key_id (encryption_keys s);
                 key_value := hex (map (random s) (seq (random_pos s) 16));
                 iv_value := hex (map (random s) (seq (random_pos s + 16) 16));
                 is_active := true |}) in *.
  assert (Hk : key_well_formed key = true).
  { apply hex_well_formed. rewrite length_map, length_seq. reflexivity. }
  match type of E with
  | context [_write_binary_key_file _ ?st] =>
      destruct (write_key_file_ok key st Hk) as [b [Hw _]]
  end.
  rewrite Hw in E. unfold ret in E.
  assert (Hr : r = Ok key) by congruence.
  assert (Hs : s' = with_files (insert key_file_path b)
                      (with_keys (fun ks => ks ++ [key])
                         (with_random_pos (fun p => p + 16)
                            (with_random_pos (fun p => p + 16) s)))) by congruence.
  exists key. rewrite Hs. repeat split; try assumption.
  unfold select_active_key. cbn [encryption_keys with_files with_keys with_random_pos].
  apply find_app_new; [exact Hsel|reflexivity].
Qed.

Ltac acquisition_step :=
  cbv beta iota zeta
      delta [get_or_create_encryption_key create_encryption_key _write_binary_key_file
             fetch bind try_except gets modify token_hex db_statement ret raise
             select_active_key with_db_faults with_random_pos with_keys with_files
             db_faults encryption_keys random random_pos files processing_queue
             media_files clock key_value].

(** The run of key acquisition on a table without an active row, for every
    pattern of answers of the database: [faults] are the answers to the
    select, the connection, the insert, the commit, the read-back and the
    second select, in this order. *)
Lemma acquisition_without_active_key (q : list QueueJob) (m : list MediaAsset)
    (ks : list EncryptionKey) (fl : gmap string bytes) (c : Z) (faults : list bool)
    (rnd : nat -> byte) (pos : nat) :
  List.find is_active ks = None ->
  let s := {| processing_queue := q; media_files := m; encryption_keys := ks;
              files := fl; clock := c; db_faults := faults; random := rnd;
              random_pos := pos |} in
  let key := {| key_id := fresh_key_id ks;
                key_value := hex (map rnd (seq pos 16));
                iv_value := hex (map rnd (seq (pos + 16) 16));
                is_active := true |} in
  let db_error := DatabaseError "server closed the connection unexpectedly" in
  let run := get_or_create_encryption_key s in
  (forallb negb (take 5 faults) = true ->
     fst run = Ok key
     /\ encryption_keys (snd run) = ks ++ [key]
     /\ db_faults (snd run) = drop 5 faults)
  /\ (forall n rest, 1 <= n <= 3 -> faults = replicate n false ++ true :: rest ->
        fst run = Raise (if hd false rest then db_error
                         else Exception "Unable to create or retrieve encryption key")
        /\ encryption_keys (snd run) = ks
        /\ files (snd run) = fl
        /\ db_faults (snd run) = tl rest)
  /\ (forall rest, faults = [false; false; false; false; true] ++ rest ->
        fst run = (if hd false rest then Raise db_error else Ok key)
        /\ encryption_keys (snd run) = ks ++ [key]
        /\ db_faults (snd run) = tl rest).
Proof.
  intros Hsel s key db_error run. subst s run.
  assert (Hnew : List.find is_active (ks ++ [key]) = Some key)
    by (apply find_app_new; [exact Hsel|reflexivity]).
  subst key db_error. split; [|split].
  - intros Hclean.
    destruct faults as [|[] [|[] [|[] [|[] [|[] rest]]]]]; try discriminate Hclean;
      acquisition_step; rewrite Hsel; acquisition_step; rewrite Hnew;
      acquisition_step; rewrite fromhex_hex; repeat split.
  - intros n rest Hn ->.
    destruct n as [|[|[|[|n]]]]; try lia; cbn [replicate app];
      destruct rest as [|[] rest];
      acquisition_step; rewrite Hsel; acquisition_step; rewrite ?Hsel;
      repeat split.
  - intros rest ->. cbn [app].
    destruct rest as [|[] rest];
      acquisition_step; rewrite Hsel; acquisition_step; rewrite ?Hnew;
      acquisition_step; rewrite ?fromhex_hex; repeat split.
Qed.

(** C7: key acquisition ([get_or_create_encryption_key], run by
    [MediaProcessor.__init__] and by [process_file]) on a key table whose
    rows were created by this program, for every pattern of answers of the
    database.  It returns the active row when one exists.  When none exists
    it inserts a row made of 16 random bytes each for key and IV,
    hex-encoded, with [is_active = true], and reads it back: a clean run
    takes five statements (select, connection, insert, commit, read-back).
    When the connection, the insert or the commit raises, no row is left,
    the select is run again and, finding nothing, the acquisition fails with
    "Unable to create or retrieve encryption key".  When the read-back
    raises, the row is committed, the select is run again, finds it, and the
    acquisition succeeds.  A database error comes out only of the first or
    of the second select.  After every successful acquisition the key file
    holds exactly 16 bytes whose hexadecimal text is the returned row's
    [key_value]. *)
Theorem key_acquisition (s s' : state) (r : result EncryptionKey) :
  Forall (fun k => key_well_formed k = true) (encryption_keys s) ->
  get_or_create_encryption_key s = (r, s') ->
  let new_key := {| key_id := fresh_key_id (encryption_keys s);
                    key_value := hex (map (random s) (seq (random_pos s) 16));
                    iv_value := hex (map (random s) (seq (random_pos s + 16) 16));
                    is_active := true |} in
  let db_error := DatabaseError "server closed the connection unexpectedly" in
  Forall (fun k => key_well_formed k = true) (encryption_keys s')
  /\ (hd false (db_faults s) = true ->
        r = Raise db_error
        /\ encryption_keys s' = encryption_keys s /\ files s' = files s)
  /\ (forall k, select_active_key s = Some k -> hd false (db_faults s) = false ->
        r = Ok k /\ encryption_keys s' = encryption_keys s)
  /\ (select_active_key s = None ->
        (forallb negb (take 5 (db_faults s)) = true ->
           r = Ok new_key
           /\ encryption_keys s' = encryption_keys s ++ [new_key]
           /\ select_active_key s' = Some new_key
           /\ db_faults s' = drop 5 (db_faults s))
        /\ (forall n rest,
              1 <= n <= 3 -> db_faults s = replicate n false ++ true :: rest ->
              r = Raise (if hd false rest then db_error
                         else Exception "Unable to create or retrieve encryption key")
              /\ encryption_keys s' = encryption_keys s
              /\ files s' = files s
              /\ db_faults s' = tl rest)
        /\ (forall rest,
              db_faults s = [false; false; false; false; true] ++ rest ->
              r = (if hd false rest then Raise db_error else Ok new_key)
              /\ encryption_keys s' = encryption_keys s ++ [new_key]
              /\ select_active_key s' = Some new_key
              /\ db_faults s' = tl rest))
  /\ (forall e, r = Raise e ->
        is_db_error e = true
        \/ (e = Exception "Unable to create or retrieve encryption key"
            /\ select_active_key s' = None))
  /\ (forall key, r = Ok key ->
        is_active key = true
        /\ In key (encryption_keys s')
        /\ exists b,
             files s' !! key_file_path = Some b
             /\ length b = 16 /\ hex b = key_value key).
Proof.
  intros Hwf E new_key db_error.
  destruct (acquisition_outcome s s' r Hwf E) as [Hwf' Hout].
  split; [exact Hwf'|]. split; [|split; [|split; [|split]]].
  - intros Hfault.
    unfold get_or_create_encryption_key, fetch, bind in E.
    rewrite db_statement_eq, Hfault in E. cbv beta iota zeta in E. subst db_error.
    assert (Hr : r = Raise (DatabaseError "server closed the connection unexpectedly"))
      by congruence.
    assert (Hs : s' = with_db_faults (fun _ => tl (db_faults s)) s) by congruence.
    rewrite Hs. repeat split. exact Hr.
  - intros k Hsel Hfault.
    destruct (existing_key_selected s s' r k Hwf E Hsel Hfault) as [Hr [Hkeys _]].
    split; assumption.
  - intros Hsel.
    assert (Hfound : forall st, encryption_keys st = encryption_keys s ++ [new_key] ->
                                select_active_key st = Some new_key).
    { intros st Hst. unfold select_active_key. rewrite Hst.
      apply find_app_new; [exact Hsel|reflexivity]. }
    assert (Hr : fst (get_or_create_encryption_key s) = r) by (rewrite E; reflexivity).
    assert (Hs : snd (get_or_create_encryption_key s) = s') by (rewrite E; reflexivity).
    clear E Hout. subst new_key db_error.
    destruct s as [q m ks fl c faults rnd pos].
    destruct (acquisition_without_active_key q m ks fl c faults rnd pos Hsel)
      as [Hclean [Hbefore Hafter]].
    rewrite Hr, Hs in Hclean, Hbefore, Hafter.
    cbn [encryption_keys db_faults files random random_pos] in *.
    split; [|split].
    + intros H. destruct (Hclean H) as [H1 [H2 H3]].
      repeat split; try assumption. apply Hfound, H2.
    + intros n rest Hn H. exact (Hbefore n rest Hn H).
    + intros rest H. destruct (Hafter rest H) as [H1 [H2 H3]].
      repeat split; try assumption. apply Hfound, H2.
  - intros e ->. exact Hout.
  - intros key ->. exact Hout.
Qed.

Lemma key_acquisition_witness :
  let s := with_db_faults (fun _ => [false; false; false; false; true])
             undecodable_job_state in
  let run := get_or_create_encryption_key s in
  (Forall (fun k => key_well_formed k = true) (encryption_keys s)
   /\ run = (fst run, snd run))
  /\ exists key b,
       fst run = Ok key
       /\ encryption_keys (snd run) = [key]
       /\ files (snd run) !! key_file_path = Some b
       /\ length b = 16 /\ hex b = key_value key.
Proof.
  intros s run.
  assert (Hwf : Forall (fun k => key_well_formed k = true) (encryption_keys s))
    by constructor.
  assert (Hrun : run = (fst run, snd run)) by (destruct run; reflexivity).
  split; [split; assumption|].
  destruct (key_acquisition s (snd run) (fst run) Hwf Hrun)
    as [_ [_ [_ [Hnew [_ Hok]]]]].
  destruct (Hnew eq_refl) as [_ [_ Hafter]].
  destruct (Hafter [] eq_refl) as [Hr [Hkeys _]].
  destruct (Hok _ Hr) as [_ [_ [b Hb]]].
  eexists _, b. split; [exact Hr|]. split; [exact Hkeys|exact Hb].
Defined.

(** When the read-back after the commit raises, the second select finds the
    row that was committed and the acquisition succeeds. *)
Example key_read_back_failure_recovers :
  let s := with_db_faults (fun _ => [false; false; false; false; true])
             undecodable_job_state in
  let run := get_or_create_encryption_key s in
  fst run = Ok {| key_id := 1; key_value := "2a2a2a2a2a2a2a2a2a2a2a2a2a2a2a2a";
                  iv_value := "2a2a2a2a2a2a2a2a2a2a2a2a2a2a2a2a"; is_active := true |}
  /\ length (encryption_keys (snd run)) = 1
  /\ files (snd run) !! key_file_path = Some (repeat x2a 16).
Proof. vm_compute. repeat split. Qed.

(** ** Image sizes *)

Section ImageSizeFacts.

Variable pil_thumbnail_size : Z * Z -> Z * Z -> Z * Z.

(** What Pillow documents of [Image.thumbnail]: the result is no larger
    than the box. *)
Hypothesis pil_thumbnail_fits :
  forall size box,
    (fst (pil_thumbnail_size size box) <= fst box)%Z
    /\ (snd (pil_thumbnail_size size box) <= snd box)%Z.

(** The main image is handed to [Image.thumbnail] exactly when a side
    exceeds the cap, is left alone otherwise, and fits the cap either way. *)
Lemma process_image_size_cases (w h : Z) :
  ((max_width < w \/ max_height < h)%Z ->
     process_image_size pil_thumbnail_size w h
     = pil_thumbnail_size (w, h) (max_width, max_height))
  /\ ((w <= max_width /\ h <= max_height)%Z ->
        process_image_size pil_thumbnail_size w h = (w, h))
  /\ (fst (process_image_size pil_thumbnail_size w h) <= max_width)%Z
  /\ (snd (process_image_size pil_thumbnail_size w h) <= max_height)%Z.
Proof.
  unfold process_image_size.
  destruct (max_width <? w)%Z eqn:Hw; destruct (max_height <? h)%Z eqn:Hh;
    cbn [orb]; try apply Z.ltb_lt in Hw; try apply Z.ltb_lt in Hh;
    try apply Z.ltb_ge in Hw; try apply Z.ltb_ge in Hh;
    pose proof (pil_thumbnail_fits (w, h) (max_width, max_height)) as [Hf1 Hf2];
    cbn [fst snd] in *; repeat split; intros; try reflexivity; try assumption; lia.
Qed.

End ImageSizeFacts.

(** The thumbnail of a 4000x3000 image is 320x240. *)
Example thumbnail_of_4000x3000 :
  generate_image_thumbnail 4000 3000 = Ok (320%Z, 240%Z).
Proof. reflexivity. Qed.

(** C8 (observed behaviour at the failing input): for a decoded image of
    1000x1 pixels the thumbnail height computed as
    [int(320 * (1 / 1000))] is 0, the size asked of Pillow is 320x0, and no
    thumbnail is produced. *)
Theorem flat_image_has_no_thumbnail :
  thumbnail_size 1000 1 = (320%Z, 0%Z)
  /\ generate_image_thumbnail 1000 1 = Raise (ValueError "height and width must be > 0")
  /\ process_image_size (fun size _ => size) 1000 1 = (1000%Z, 1%Z).
Proof. repeat split. Qed.

(** ** The video thumbnail protocol *)

Lemma run_ffmpeg_calls (c : media_call) (out : string) (w : video_world) :
  calls (snd (run_ffmpeg c out w)) = calls w ++ [c].
Proof. reflexivity. Qed.

Lemma create_static_thumbnail_calls (out : string) (t : float) (w : video_world) :
  exists more,
    calls (create_static_thumbnail out t w) = calls w ++ StaticFrame out t :: more
    /\ forallb is_fallback_call more = true.
Proof.
  unfold create_static_thumbnail.
  destruct (run_ffmpeg (StaticFrame out t) out w) as [o1 w1] eqn:E1.
  assert (H1 : calls w1 = calls w ++ [StaticFrame out t])
    by (rewrite <- (run_ffmpeg_calls (StaticFrame out t) out w), E1; reflexivity).
  destruct ((returncode o1 =? 0)%Z && larger_than_1000 out w1).
  { exists []. rewrite H1. split; reflexivity. }
  set (earlier := py_max 0 (PrimFloat.sub t (float_of_int 2))).
  destruct (run_ffmpeg (StaticFrameDefaultCodec out earlier) out w1) as [o2 w2] eqn:E2.
  assert (H2 : calls w2 = calls w ++ [StaticFrame out t; StaticFrameDefaultCodec out earlier]).
  { pose proof (run_ffmpeg_calls (StaticFrameDefaultCodec out earlier) out w1) as H.
    rewrite E2 in H. cbn [snd] in H. rewrite H, H1, <- app_assoc. reflexivity. }
  destruct ((returncode o2 =? 0)%Z && larger_than_1000 out w2).
  { exists [StaticFrameDefaultCodec out earlier]. rewrite H2. split; reflexivity. }
  destruct (pillow_placeholder w2) as [n|]; cbn [write_file calls]; rewrite H2, <- app_assoc.
  - exists [StaticFrameDefaultCodec out earlier; PillowPlaceholder out]. split; reflexivity.
  - exists [StaticFrameDefaultCodec out earlier; MinimalWebP out]. split; reflexivity.
Qed.

Lemma validate_file_calls (duration : float) (path : string) (w : video_world) :
  exists more,
    calls (validate_file duration path w) = calls w ++ more
    /\ forallb is_fallback_call more = true.
Proof.
  unfold validate_file.
  destruct (create_static_thumbnail_calls path (start_time_of duration) w)
    as [more [Hc Hm]].
  assert (Hs : exists more',
             calls (create_static_thumbnail path (start_time_of duration) w)
             = calls w ++ more' /\ forallb is_fallback_call more' = true).
  { eexists. split; [exact Hc|]. cbn [forallb is_fallback_call]. exact Hm. }
  assert (Hn : exists more', calls w = calls w ++ more'
                             /\ forallb is_fallback_call more' = true).
  { exists []. rewrite app_nil_r. split; reflexivity. }
  destruct (sizes w !! path) as [n|]; [destruct (n <? 1000)|]; assumption.
Qed.

Lemma fallback_calls_no_animated_preview (l : list media_call) (ss : float) :
  forallb is_fallback_call l = true -> ~ In (AnimatedPreview ss) l.
Proof.
  intros H Hin. rewrite forallb_forall in H. apply H in Hin. discriminate.
Qed.

Lemma thumbnail_stage_calls (duration : float) (w : video_world) :
  let start := start_time_of duration in
  let run1 := run_ffmpeg (AnimatedThumbnail start) thumbnail_webp w in
  let fallback := negb (returncode (fst run1) =? 0)%Z
                  || negb (larger_than_1000 thumbnail_webp (snd run1)) in
  fst (thumbnail_stage duration w) = negb fallback
  /\ exists more,
       forallb is_fallback_call more = true
       /\ calls (snd (thumbnail_stage duration w))
          = calls w ++ AnimatedThumbnail start
              :: (if fallback then StaticFrame thumbnail_webp start :: more else []).
Proof.
  cbv zeta. unfold thumbnail_stage.
  set (start := start_time_of duration).
  pose proof (run_ffmpeg_calls (AnimatedThumbnail start) thumbnail_webp w) as H1.
  destruct (run_ffmpeg (AnimatedThumbnail start) thumbnail_webp w) as [o w1].
  cbn [fst snd] in *.
  destruct (create_static_thumbnail_calls thumbnail_webp start w1) as [more [Hc Hm]].
  destruct (returncode o =? 0)%Z; cbn [negb orb].
  - destruct (larger_than_1000 thumbnail_webp w1); cbn [negb fst snd].
    + split; [reflexivity|]. exists []. split; [reflexivity|exact H1].
    + split; [reflexivity|]. exists more. split; [exact Hm|].
      etransitivity; [exact Hc|]. rewrite H1, <- app_assoc. reflexivity.
  - split; [reflexivity|]. exists more. split; [exact Hm|].
    etransitivity; [exact Hc|]. rewrite H1, <- app_assoc. reflexivity.
Qed.

Lemma preview_stage_static_calls (duration : float) (w : video_world) :
  exists more,
    forallb is_fallback_call more = true
    /\ calls (preview_stage duration false w)
       = calls w ++ StaticFrame preview_webp
                      (PrimFloat.add (start_time_of duration) (float_of_int 5)) :: more.
Proof.
  unfold preview_stage.
  destruct (create_static_thumbnail_calls preview_webp
              (PrimFloat.add (start_time_of duration) (float_of_int 5)) w)
    as [more [Hc Hm]].
  exists more. split; assumption.
Qed.

Lemma preview_stage_animated_calls (duration : float) (w : video_world) :
  exists more,
    calls (preview_stage duration true w)
    = calls w ++ AnimatedPreview (start_time_of duration) :: more.
Proof.
  unfold preview_stage.
  destruct (run_ffmpeg (AnimatedPreview (start_time_of duration)) preview_webp w)
    as [o w1] eqn:E1.
  assert (H1 : calls w1 = calls w ++ [AnimatedPreview (start_time_of duration)]).
  { pose proof (run_ffmpeg_calls (AnimatedPreview (start_time_of duration)) preview_webp w)
      as H. rewrite E1 in H. exact H. }
  destruct (negb (returncode o =? 0)%Z).
  - destruct (larger_than_1000 thumbnail_webp w1).
    + cbn [write_file calls]. rewrite H1, <- app_assoc. eexists. reflexivity.
    + destruct (create_static_thumbnail_calls preview_webp
                  (PrimFloat.add (start_time_of duration) (float_of_int 5)) w1)
        as [more [Hc _]].
      rewrite Hc, H1, <- app_assoc. eexists. reflexivity.
  - exists []. exact H1.
Qed.

(** C9 (amended): the thumbnail seek position is [max(5, duration * 0.1)];
    the animated thumbnail is replaced by a static frame at the same
    position exactly when the encoder exits non-zero or the thumbnail file
    is afterwards missing or not larger than 1000 bytes; the animated
    preview is attempted exactly when that fallback did not happen, and
    otherwise a static preview is made at the position plus 5. *)
Theorem thumbnail_protocol (duration : float) (w : video_world) :
  let start := start_time_of duration in
  let run1 := run_ffmpeg (AnimatedThumbnail start) thumbnail_webp w in
  let fallback := negb (returncode (fst run1) =? 0)%Z
                  || negb (larger_than_1000 thumbnail_webp (snd run1)) in
  start = py_max 5 (PrimFloat.mul duration 0x1.999999999999ap-4%float)
  /\ (sizes w !! thumbnail_webp = None -> fallback = fallback_in_code (fst run1))
  /\ exists rest,
       calls (generate_animated_thumbnail duration w)
       = calls w ++ AnimatedThumbnail start :: rest
       /\ (fallback = true ->
             (exists rest', rest = StaticFrame thumbnail_webp start :: rest')
             /\ (forall ss, ~ In (AnimatedPreview ss) rest)
             /\ In (StaticFrame preview_webp (PrimFloat.add start (float_of_int 5))) rest)
       /\ (fallback = false -> exists rest', rest = AnimatedPreview start :: rest').
Proof.
  intros start run1 fallback. split; [reflexivity|]. split.
  - intros Hfresh. subst fallback run1. unfold fallback_in_code, run_ffmpeg, larger_than_1000.
    cbn [fst snd sizes]. f_equal.
    destruct (written _) as [n|].
    + rewrite lookup_insert_eq. destruct (1000 <? n) eqn:E1; destruct (n <=? 1000) eqn:E2;
        try reflexivity.
      * apply Nat.ltb_lt in E1. apply Nat.leb_le in E2. lia.
      * apply Nat.ltb_ge in E1. apply Nat.leb_gt in E2. lia.
    + rewrite Hfresh. reflexivity.
  - destruct (thumbnail_stage_calls duration w) as [Hflag [more1 [Hm1 Hc1]]].
    fold start in Hflag, Hc1. fold run1 in Hflag, Hc1. fold fallback in Hflag, Hc1.
    unfold generate_animated_thumbnail.
    destruct (thumbnail_stage duration w) as [animated_success w1].
    cbn [fst snd] in Hflag, Hc1. subst animated_success.
    destruct (validate_file_calls duration thumbnail_webp
                (preview_stage duration (negb fallback) w1)) as [more3 [Hc3 Hm3]].
    destruct (validate_file_calls duration preview_webp
                (validate_file duration thumbnail_webp
                   (preview_stage duration (negb fallback) w1))) as [more4 [Hc4 Hm4]].
    rewrite Hc4, Hc3. clear Hc4 Hc3.
    destruct fallback; cbn [negb] in *.
    + destruct (preview_stage_static_calls duration w1) as [more2 [Hm2 Hc2]].
      fold start in Hc2. rewrite Hc2, Hc1.
      exists (StaticFrame thumbnail_webp start :: more1
              ++ StaticFrame preview_webp (PrimFloat.add start (float_of_int 5)) :: more2
              ++ more3 ++ more4).
      split; [|split; [intros _|discriminate]].
      * repeat (rewrite <- ?app_assoc; cbn [app]). reflexivity.
      * split; [eexists; reflexivity|]. split.
        -- intros ss. apply fallback_calls_no_animated_preview.
           cbn [forallb is_fallback_call andb]. rewrite forallb_app, Hm1. cbn [andb forallb is_fallback_call].
           rewrite !forallb_app, Hm2, Hm3, Hm4. reflexivity.
        -- right. apply in_or_app. right. left. reflexivity.
    + destruct (preview_stage_animated_calls duration w1) as [more2 Hc2].
      fold start in Hc2. rewrite Hc2, Hc1.
      exists (AnimatedPreview start :: more2 ++ more3 ++ more4).
      split; [|split; [discriminate|intros _; eexists; reflexivity]].
      repeat (rewrite <- ?app_assoc; cbn [app]). reflexivity.
Qed.

Lemma thumbnail_protocol_witness :
  let run1 := run_ffmpeg (AnimatedThumbnail (start_time_of 100)) thumbnail_webp
                thousand_byte_world in
  (sizes thousand_byte_world !! thumbnail_webp = None
   /\ negb (returncode (fst run1) =? 0)%Z
      || negb (larger_than_1000 thumbnail_webp (snd run1)) = true)
  /\ exists rest,
       calls (generate_animated_thumbnail 100 thousand_byte_world)
       = AnimatedThumbnail (start_time_of 100) :: rest
       /\ In (StaticFrame preview_webp
                (PrimFloat.add (start_time_of 100) (float_of_int 5))) rest.
Proof.
  intros run1. split; [split; reflexivity|].
  destruct (thumbnail_protocol 100 thousand_byte_world) as [_ [_ [rest [Hc [Hfb _]]]]].
  exists rest. split; [exact Hc|]. apply Hfb. reflexivity.
Defined.

(** C9 (counterexample to "smaller than 1000 bytes"): the encoder exits
    with status 0 and leaves an animated thumbnail of exactly 1000 bytes.
    The file is not smaller than 1000 bytes, yet the static fallback runs at
    the same position and no animated preview is attempted. *)
Lemma thousand_byte_thumbnail_falls_back :
  let o := {| returncode := 0; written := Some 1000 |} in
  hd o (ffmpeg_outcomes thousand_byte_world) = o
  /\ fallback_as_specified o = false
  /\ fallback_in_code o = true
  /\ start_time_of 100 = 10%float
  /\ calls (generate_animated_thumbnail 100 thousand_byte_world)
     = [AnimatedThumbnail 10; StaticFrame thumbnail_webp 10; StaticFrame preview_webp 15].
Proof. repeat split. Qed.

(** ** Start-up order *)

Lemma run_until_await_acc (c : coro) (spawned : list coro) (trace : list event) :
  run_until_await c spawned trace
  = (fst (fst (run_until_await c [] [])),
     spawned ++ snd (fst (run_until_await c [] [])),
     trace ++ snd (run_until_await c [] [])).
Proof.
  revert spawned trace. induction c as [|e k IH|task _ k IH|k _]; intros spawned trace.
  - cbn. rewrite !app_nil_r. reflexivity.
  - cbn [run_until_await]. rewrite (IH spawned (trace ++ [e])), (IH [] ([] ++ [e])).
    cbn [fst snd app]. rewrite <- app_assoc. reflexivity.
  - cbn [run_until_await]. rewrite (IH (spawned ++ [task]) trace), (IH ([] ++ [task]) []).
    cbn [fst snd app]. rewrite <- app_assoc. reflexivity.
  - cbn. rewrite !app_nil_r. reflexivity.
Qed.

Lemma run_until_await_scan_free (c : coro) :
  scan_free c = true ->
  forallb (fun e => negb (is_startup_enqueue e)) (snd (run_until_await c [] [])) = true
  /\ forallb scan_free (snd (fst (run_until_await c [] []))) = true
  /\ match fst (fst (run_until_await c [] [])) with
     | Some k => scan_free k = true
     | None => True
     end.
Proof.
  induction c as [|e k IH|task IHt k IH|k _]; cbn [scan_free]; intros H.
  - cbn. auto.
  - apply andb_true_iff in H. destruct H as [He Hk]. destruct (IH Hk) as [H1 [H2 H3]].
    cbn [run_until_await]. rewrite run_until_await_acc. cbn [fst snd app forallb].
    rewrite He, H1. auto.
  - apply andb_true_iff in H. destruct H as [Ht Hk]. destruct (IH Hk) as [H1 [H2 H3]].
    cbn [run_until_await]. rewrite run_until_await_acc. cbn [fst snd app forallb].
    rewrite Ht, H1, H2. auto.
  - cbn. auto.
Qed.

(** Tasks without start-up enqueues never add one to the trace. *)
Lemma event_loop_scan_free (fuel : nat) (ready : list coro) (trace : list event) :
  forallb scan_free ready = true ->
  exists post,
    event_loop fuel ready trace = trace ++ post
    /\ forallb (fun e => negb (is_startup_enqueue e)) post = true.
Proof.
  revert ready trace. induction fuel as [|fuel IH]; intros ready trace Hready.
  - exists []. rewrite app_nil_r. split; reflexivity.
  - destruct ready as [|c rest].
    + exists []. rewrite app_nil_r. split; reflexivity.
    + cbn [forallb] in Hready. apply andb_true_iff in Hready. destruct Hready as [Hc Hrest].
      destruct (run_until_await_scan_free c Hc) as [H1 [H2 H3]].
      cbn [event_loop]. rewrite run_until_await_acc.
      destruct (run_until_await c [] []) as [[suspended spawned] tr]. cbn [fst snd app] in *.
      destruct (IH (rest ++ spawned ++ match suspended with Some k => [k] | None => [] end)
                   (trace ++ tr)) as [post [Hrun Hpost]].
      { rewrite !forallb_app, Hrest, H2. destruct suspended; cbn; [rewrite H3|]; reflexivity. }
      exists (tr ++ post). rewrite Hrun, <- app_assoc. split; [reflexivity|].
      rewrite forallb_app, H1, Hpost. reflexivity.
Qed.

Lemma startup_scan_runs (entries : list string) (k : coro) (spawned : list coro)
    (trace : list event) :
  run_until_await (startup_scan entries k) spawned trace
  = run_until_await k spawned (trace ++ startup_events entries).
Proof.
  revert trace. induction entries as [|path rest IH]; intros trace.
  - cbn. rewrite app_nil_r. reflexivity.
  - cbn [startup_scan startup_events].
    destruct (eligible path) as [ftype|]; cbn [run_until_await].
    + rewrite IH, <- app_assoc. reflexivity.
    + apply IH.
Qed.

Lemma worker_coro_scan_free (rounds k : nat) : scan_free (worker_coro rounds k) = true.
Proof. revert k. induction rounds as [|r IH]; intros k; cbn; auto. Qed.

Lemma scanner_coro_scan_free (rounds k : nat) : scan_free (scanner_coro rounds k) = true.
Proof. revert k. induction rounds as [|r IH]; intros k; cbn; auto. Qed.

Lemma health_coro_scan_free (rounds k : nat) : scan_free (health_coro rounds k) = true.
Proof. revert k. induction rounds as [|r IH]; intros k; cbn; auto. Qed.

Lemma startup_events_only_enqueue (entries : list string) :
  Forall (fun e => is_worker_round e = false) (startup_events entries).
Proof.
  induction entries as [|path rest IH]; [constructor|].
  cbn [startup_events].
  destruct (eligible path); [constructor; [reflexivity|]|]; exact IH.
Qed.

(** C6: on start-up the scan of the intake directory runs once, inside
    [main] and without suspension, and every one of its enqueues comes
    before the queue worker begins its first round, although the worker
    task is created before the scan: a created task does not run until
    [main] awaits. *)
Theorem startup_scan_precedes_worker (entries : list string) (rounds fuel : nat) :
  exists rest,
    event_loop (S (S fuel)) [main_coro entries (S rounds)] []
    = [EvKeyInit; EvObserverStart] ++ startup_events entries ++ EvWorkerRound 0 :: rest
    /\ Forall (fun e => is_worker_round e = false) (startup_events entries)
    /\ Forall (fun e => is_startup_enqueue e = false) (EvWorkerRound 0 :: rest).
Proof.
  unfold main_coro.
  change (event_loop (S (S fuel)) [?c] [])
    with (let '(suspended, spawned, trace') := run_until_await c [] [] in
          event_loop (S fuel)
            ([] ++ spawned ++ match suspended with Some k => [k] | None => [] end)
            trace').
  cbn [run_until_await app]. rewrite startup_scan_runs. cbn [run_until_await app].
  set (pre := EvKeyInit :: EvObserverStart :: startup_events entries).
  cbn [event_loop worker_coro run_until_await app].
  destruct (event_loop_scan_free fuel
              [scanner_coro (S rounds) 0; health_coro (S rounds) 0; Return;
               worker_coro rounds 1] (pre ++ [EvWorkerRound 0])) as [post [Hrun Hpost]].
  { cbn [forallb]. rewrite scanner_coro_scan_free, health_coro_scan_free,
      worker_coro_scan_free. reflexivity. }
  exists post. split; [|split].
  - etransitivity; [exact Hrun|]. unfold pre. cbn [app]. rewrite <- app_assoc. reflexivity.
  - apply startup_events_only_enqueue.
  - constructor; [reflexivity|]. rewrite forallb_forall in Hpost.
    apply Forall_forall. intros e He. apply list_elem_of_In, Hpost in He.
    destruct (is_startup_enqueue e); [discriminate|reflexivity].
Qed.

(** Two files wait in the intake directory, one of them not a media file. *)
Example startup_order_example :
  event_loop 3 [main_coro ["/app/imports/a.jpg"; "/app/imports/notes.txt";
                           "/app/imports/clip.MP4"] 1] []
  = [EvKeyInit; EvObserverStart;
     EvStartupEnqueue "/app/imports/a.jpg" image;
     EvStartupEnqueue "/app/imports/clip.MP4" video;
     EvWorkerRound 0; EvScannerCheck 0].
Proof. reflexivity. Qed.

(** * Further properties of the program *)

(** ** The queue table *)

Lemma execute_eq (f : state -> state) (s : state) :
  execute f s
  = if hd false (db_faults s)
    then (Raise (DatabaseError "server closed the connection unexpectedly"),
          with_db_faults (fun _ => tl (db_faults s)) s)
    else (Ok tt, f (with_db_faults (fun _ => tl (db_faults s)) s)).
Proof.
  unfold execute, bind. rewrite db_statement_eq.
  destruct (hd false (db_faults s)); reflexivity.
Qed.

Lemma fetch_eq {A : Type} (f : state -> A) (s : state) :
  fetch f s
  = if hd false (db_faults s)
    then (Raise (DatabaseError "server closed the connection unexpectedly"),
          with_db_faults (fun _ => tl (db_faults s)) s)
    else (Ok (f (with_db_faults (fun _ => tl (db_faults s)) s)),
          with_db_faults (fun _ => tl (db_faults s)) s).
Proof.
  unfold fetch, bind. rewrite db_statement_eq.
  destruct (hd false (db_faults s)); reflexivity.
Qed.

(** A statement either fails and leaves the queue alone, or applies its
    change to the queue as it was. *)
Lemma execute_queue_relation (R : list QueueJob -> list QueueJob -> Prop)
    (f : state -> state) (s : state) :
  R (processing_queue s) (processing_queue s) ->
  (forall s0, processing_queue s0 = processing_queue s ->
              R (processing_queue s) (processing_queue (f s0))) ->
  R (processing_queue s) (processing_queue (snd (execute f s))).
Proof.
  intros Hrefl Hf. rewrite execute_eq. destruct (hd false (db_faults s)); cbn [snd].
  - exact Hrefl.
  - apply Hf. reflexivity.
Qed.

Lemma update_rows_identity (sel : QueueJob -> bool) (f : QueueJob -> QueueJob)
    (q : list QueueJob) :
  (forall j, job_identity (f j) = job_identity j) ->
  map job_identity (update_rows sel f q) = map job_identity q.
Proof.
  intros Hf. unfold update_rows. rewrite map_map. apply map_ext.
  intros j. destruct (sel j); [apply Hf|reflexivity].
Qed.

Lemma run_op_identity (op : queue_op) (s : state) :
  exists added,
    map job_identity (processing_queue (run_op s op))
    = map job_identity (processing_queue s) ++ added.
Proof.
  unfold run_op.
  destruct op as [path ftype|id|path|path note|path msg|id|dt]; cbn [op_action];
    try (apply (execute_queue_relation
                  (fun q q' => exists added,
                       map job_identity q' = map job_identity q ++ added));
         [exists []; rewrite app_nil_r; reflexivity|];
         intros s0 Hs0; cbn [processing_queue with_queue]; rewrite ?Hs0;
         try (exists []; rewrite app_nil_r, update_rows_identity by reflexivity;
              reflexivity)).
  - destruct (existsb _ _).
    + rewrite Hs0. exists []. rewrite app_nil_r. reflexivity.
    + cbn [processing_queue with_queue]. rewrite Hs0, map_app. eexists. reflexivity.
  - exists []. rewrite app_nil_r. reflexivity.
Qed.

(** X1: no queue operation deletes a row or changes the identity, type,
    retry limit, priority or queueing time of a row: over any sequence of
    operations the table only grows at its end. *)
Theorem queue_rows_are_never_lost (ops : list queue_op) (s : state) :
  exists added,
    map job_identity (processing_queue (run_ops ops s))
    = map job_identity (processing_queue s) ++ added.
Proof.
  revert s. induction ops as [|op ops IH]; intros s.
  - exists []. rewrite app_nil_r. reflexivity.
  - cbn [run_ops fold_left]. destruct (IH (run_op s op)) as [added2 H2].
    destruct (run_op_identity op s) as [added1 H1].
    exists (added1 ++ added2). unfold run_ops in H2. rewrite H2, H1, app_assoc.
    reflexivity.
Qed.

Lemma fresh_job_id_is_new (q : list QueueJob) : fresh_job_id q ∉ map job_id q.
Proof.
  unfold fresh_job_id. intros Hin.
  assert (H : Forall (fun k => k <= list_max (map job_id q)) (map job_id q))
    by (apply list_max_le; lia).
  rewrite Forall_forall in H. apply H in Hin. lia.
Qed.

Lemma path_not_queued (path : string) (q : list QueueJob) :
  existsb (fun j => String.eqb (file_path j) path) q = false ->
  path ∉ map file_path q.
Proof.
  intros Hex Hin. apply list_elem_of_In, in_map_iff in Hin. destruct Hin as [j [Hj Hin]].
  assert (Ht : existsb (fun j => String.eqb (file_path j) path) q = true).
  { apply existsb_exists. exists j. split; [exact Hin|]. apply String.eqb_eq, Hj. }
  congruence.
Qed.

Lemma NoDup_snoc {A : Type} (l : list A) (x : A) :
  NoDup l -> x ∉ l -> NoDup (l ++ [x]).
Proof.
  intros Hl Hx. apply NoDup_app. repeat split.
  - exact Hl.
  - intros y Hy Hin. apply list_elem_of_singleton in Hin. subst y. exact (Hx Hy).
  - apply NoDup_singleton.
Qed.

Lemma update_rows_keys (sel : QueueJob -> bool) (f : QueueJob -> QueueJob)
    (q : list QueueJob) :
  (forall j, job_identity (f j) = job_identity j) ->
  map file_path (update_rows sel f q) = map file_path q
  /\ map job_id (update_rows sel f q) = map job_id q.
Proof.
  intros Hf. unfold update_rows. rewrite !map_map. split; apply map_ext; intros j;
    (destruct (sel j); [|reflexivity]); pose proof (Hf j) as H; unfold job_identity in H;
    congruence.
Qed.

Ltac rows_keep_keys Hs0 H :=
  match goal with
  | |- context [update_rows ?sel ?f ?q] =>
      destruct (update_rows_keys sel f q) as [-> ->];
      [reflexivity|rewrite Hs0; exact H]
  end.

Lemma run_op_keeps_keys_unique (op : queue_op) (s : state) :
  NoDup (map file_path (processing_queue s))
  /\ NoDup (map job_id (processing_queue s)) ->
  NoDup (map file_path (processing_queue (run_op s op)))
  /\ NoDup (map job_id (processing_queue (run_op s op))).
Proof.
  intros H. unfold run_op.
  destruct op as [path ftype|id|path|path note|path msg|id|dt]; cbn [op_action];
    try (apply (execute_queue_relation
                  (fun _ q' => NoDup (map file_path q') /\ NoDup (map job_id q')));
         [exact H|];
         intros s0 Hs0; cbn [processing_queue with_queue];
         try rows_keep_keys Hs0 H).
  - destruct (existsb _ _) eqn:Hex; [rewrite Hs0; exact H|].
    cbn [processing_queue with_queue]. rewrite !map_app. cbn [map new_job file_path job_id].
    rewrite Hs0 in *. destruct H as [Hp Hi]. split; apply NoDup_snoc; try assumption.
    + apply path_not_queued, Hex.
    + apply fresh_job_id_is_new.
  - exact H.
Qed.

(** X2: in every state reached from an empty queue, no two rows share a
    [file_path] and no two rows share an id. *)
Theorem queue_keys_stay_unique (ops : list queue_op) (fs0 : gmap string bytes)
    (media : list MediaAsset) (keys : list EncryptionKey) (t0 : Z)
    (faults : list bool) (rnd : nat -> byte) :
  let q := processing_queue (run_ops ops (initial_state fs0 media keys t0 faults rnd)) in
  NoDup (map file_path q) /\ NoDup (map job_id q).
Proof.
  cbv zeta.
  assert (Hgen : forall s,
             NoDup (map file_path (processing_queue s))
             /\ NoDup (map job_id (processing_queue s)) ->
             NoDup (map file_path (processing_queue (run_ops ops s)))
             /\ NoDup (map job_id (processing_queue (run_ops ops s)))).
  { induction ops as [|op ops IH]; intros s H; [exact H|].
    cbn [run_ops fold_left]. apply IH, run_op_keeps_keys_unique, H. }
  apply Hgen. cbn. split; apply NoDup_nil_2.
Qed.

Lemma path_queued_iff (path : string) (q : list QueueJob) :
  existsb (fun j => String.eqb (file_path j) path) q = true <-> In path (map file_path q).
Proof.
  rewrite existsb_exists, in_map_iff. split.
  - intros [j [Hin Hj]]. exists j. split; [apply String.eqb_eq, Hj|exact Hin].
  - intros [j [Hj Hin]]. exists j. split; [exact Hin|apply String.eqb_eq, Hj].
Qed.

(** X3: enqueueing is idempotent.  While the database answers, adding a
    path that is already queued changes nothing (whatever its status and
    type), adding a new path appends one fresh [queued] row, and adding the
    same path a second time never adds a second row. *)
Theorem enqueue_is_idempotent (path : string) (t t' : media_type) (s : state) :
  db_faults s = [] ->
  let s1 := snd (add_to_processing_queue path t s) in
  let s2 := snd (add_to_processing_queue path t' s1) in
  processing_queue s2 = processing_queue s1
  /\ In path (map file_path (processing_queue s1))
  /\ (In path (map file_path (processing_queue s)) ->
      processing_queue s1 = processing_queue s)
  /\ (~ In path (map file_path (processing_queue s)) ->
      processing_queue s1
      = processing_queue s
        ++ [new_job (fresh_job_id (processing_queue s)) path t (clock s)]).
Proof.
  intros Hdb. cbv zeta. unfold add_to_processing_queue.
  rewrite (execute_no_faults _ s Hdb). cbn [snd].
  destruct (existsb (fun j => String.eqb (file_path j) path) (processing_queue s)) eqn:Hex.
  - rewrite (execute_no_faults _ s Hdb). cbn [snd]. rewrite Hex.
    apply path_queued_iff in Hex. repeat split; try reflexivity; try assumption.
    intros Hn. contradiction.
  - rewrite execute_no_faults by exact Hdb. cbn [snd processing_queue with_queue].
    assert (Hin : In path (map file_path
                    (processing_queue s
                     ++ [new_job (fresh_job_id (processing_queue s)) path t (clock s)]))).
    { rewrite map_app. apply in_or_app. right. left. reflexivity. }
    pose proof Hin as Hex2. apply path_queued_iff in Hex2. rewrite Hex2.
    repeat split; try reflexivity; try assumption.
    intros Hq. apply path_queued_iff in Hq. congruence.
Qed.

Lemma enqueue_is_idempotent_witness :
  db_faults undecodable_job_state = []
  /\ processing_queue
       (snd (add_to_processing_queue intake_a video
               (snd (add_to_processing_queue intake_a image undecodable_job_state))))
     = processing_queue undecodable_job_state.
Proof.
  split; [reflexivity|].
  destruct (enqueue_is_idempotent intake_a image video undecodable_job_state eq_refl)
    as [H2 [_ [H1 _]]].
  etransitivity; [exact H2|]. apply H1. left. reflexivity.
Defined.

(** ** The order of the worker's queries *)

Lemma job_before_total (a b : QueueJob) : job_before a b = false -> job_before b a = true.
Proof.
  unfold job_before. intros H.
  apply orb_false_iff in H. destruct H as [H1 H2].
  apply Z.ltb_ge in H1. apply andb_false_iff in H2.
  apply orb_true_iff.
  destruct (Z.eq_dec (priority a) (priority b)) as [Heq|Hne].
  - right. apply andb_true_iff. split; [apply Z.eqb_eq; lia|].
    destruct H2 as [H2|H2]; [apply Z.eqb_neq in H2; lia|].
    apply Z.leb_gt in H2. apply Z.leb_le. lia.
  - left. apply Z.ltb_lt. lia.
Qed.

Lemma job_before_trans (a b c : QueueJob) :
  job_before a b = true -> job_before b c = true -> job_before a c = true.
Proof.
  unfold job_before. intros H1 H2.
  apply orb_true_iff in H1, H2. apply orb_true_iff.
  rewrite !andb_true_iff, !Z.ltb_lt, !Z.eqb_eq, !Z.leb_le in *. lia.
Qed.

Lemma insert_job_In (j x : QueueJob) (l : list QueueJob) :
  In x (insert_job j l) <-> x = j \/ In x l.
Proof.
  induction l as [|y l IH]; cbn [insert_job].
  - cbn. intuition.
  - destruct (job_before y j); cbn [In]; [rewrite IH|]; intuition.
Qed.

Lemma insert_job_ordered (j : QueueJob) (l : list QueueJob) :
  jobs_ordered l -> jobs_ordered (insert_job j l).
Proof.
  induction l as [|y l IH]; cbn [insert_job jobs_ordered].
  - intros _. split; [constructor|exact I].
  - intros [Hy Hl]. destruct (job_before y j) eqn:Hyj; cbn [jobs_ordered].
    + split; [|apply IH, Hl].
      apply Forall_forall. intros x Hx. apply list_elem_of_In, insert_job_In in Hx.
      destruct Hx as [->|Hx]; [exact Hyj|].
      rewrite Forall_forall in Hy. apply Hy, list_elem_of_In, Hx.
    + apply job_before_total in Hyj. split; [|split; assumption].
      constructor; [exact Hyj|].
      apply Forall_forall. intros x Hx. rewrite Forall_forall in Hy.
      apply (job_before_trans j y x); [exact Hyj|apply Hy, Hx].
Qed.

Lemma order_jobs_In (x : QueueJob) (l : list QueueJob) : In x (order_jobs l) <-> In x l.
Proof.
  unfold order_jobs. rewrite (in_rev l). generalize (rev l). intros r.
  induction r as [|y r IH]; cbn [foldr]; [reflexivity|].
  rewrite insert_job_In, IH. cbn. intuition.
Qed.

Lemma order_jobs_ordered (l : list QueueJob) : jobs_ordered (order_jobs l).
Proof.
  unfold order_jobs. generalize (rev l). intros r.
  induction r as [|y r IH]; cbn [foldr]; [exact I|]. apply insert_job_ordered, IH.
Qed.

Lemma jobs_ordered_app (l1 l2 : list QueueJob) :
  jobs_ordered (l1 ++ l2) ->
  jobs_ordered l1
  /\ forall a b, In a l1 -> In b l2 -> job_before a b = true.
Proof.
  induction l1 as [|x l1 IH]; cbn [app jobs_ordered].
  - intros _. split; [exact I|]. intros a b [].
  - intros [Hx Hrest]. destruct (IH Hrest) as [Ho Hab].
    apply Forall_app in Hx. destruct Hx as [Hx1 Hx2]. split; [split; assumption|].
    intros a b [<-|Ha] Hb.
    + rewrite Forall_forall in Hx2. apply Hx2, list_elem_of_In, Hb.
    + apply Hab; assumption.
Qed.

(** What [ORDER BY .. LIMIT n] over a [WHERE] clause returns. *)
Lemma selection_properties (p : QueueJob -> bool) (limit : nat) (q : list QueueJob) :
  let jobs := take limit (order_jobs (List.filter p q)) in
  length jobs <= limit
  /\ jobs_ordered jobs
  /\ (forall j, In j jobs -> In j q /\ p j = true)
  /\ (forall j, In j q -> p j = true -> ~ In j jobs ->
        length jobs = limit /\ forall r, In r jobs -> job_before r j = true).
Proof.
  cbv zeta. set (sorted := order_jobs (List.filter p q)).
  pose proof (order_jobs_ordered (List.filter p q)) as Hord. fold sorted in Hord.
  rewrite <- (take_drop limit sorted) in Hord.
  apply jobs_ordered_app in Hord. destruct Hord as [Hord Hsplit].
  split; [rewrite length_take; lia|]. split; [exact Hord|]. split.
  - intros j Hj.
    assert (Hin : In j sorted).
    { rewrite <- (take_drop limit sorted). apply in_or_app. left. exact Hj. }
    apply order_jobs_In, filter_In in Hin. exact Hin.
  - intros j Hq Hp Hnot.
    assert (Hin : In j sorted) by (apply order_jobs_In, filter_In; split; assumption).
    rewrite <- (take_drop limit sorted) in Hin. apply in_app_or in Hin.
    destruct Hin as [Hin|Hin]; [contradiction|]. split.
    + rewrite length_take. destruct (Nat.le_gt_cases (length sorted) limit) as [Hle|Hgt]; [|lia].
      rewrite drop_ge in Hin by exact Hle. destruct Hin.
    + intros r Hr. apply Hsplit; assumption.
Qed.

Lemma status_eqb_eq (a b : job_status) : status_eqb a b = true <-> a = b.
Proof. destruct a, b; cbn; split; intros H; try reflexivity; try discriminate. Qed.

(** X4: what a polling round gets from [get_pending_jobs] when the select
    succeeds: at most [limit] rows of the queue, all [queued] with retries
    left, in the order priority descending then [queued_at] ascending; a
    queued job with retries left is missing from the answer only when the
    limit is exhausted by jobs that come before it in that order. *)
Theorem pending_jobs_selection (limit : nat) (s : state) :
  hd false (db_faults s) = false ->
  exists jobs,
    fst (get_pending_jobs limit s) = Ok jobs
    /\ length jobs <= limit
    /\ jobs_ordered jobs
    /\ (forall j, In j jobs ->
          In j (processing_queue s) /\ status j = queued
          /\ (retry_count j < max_retries j)%Z)
    /\ (forall j, In j (processing_queue s) -> status j = queued ->
          (retry_count j < max_retries j)%Z -> ~ In j jobs ->
          length jobs = limit /\ forall r, In r jobs -> job_before r j = true).
Proof.
  intros Hdb. unfold get_pending_jobs. rewrite fetch_eq, Hdb. cbn [fst processing_queue with_db_faults].
  destruct (selection_properties is_pending limit (processing_queue s))
    as [Hlen [Hord [Hin Hout]]].
  eexists. split; [reflexivity|]. split; [exact Hlen|]. split; [exact Hord|]. split.
  - intros j Hj. destruct (Hin j Hj) as [Hq Hp]. unfold is_pending in Hp.
    apply andb_true_iff in Hp. destruct Hp as [Hs Hr].
    split; [exact Hq|]. split; [apply status_eqb_eq, Hs|apply Z.ltb_lt, Hr].
  - intros j Hq Hs Hr Hnot. apply Hout; try assumption.
    unfold is_pending. rewrite Hs. apply andb_true_iff. split; [reflexivity|apply Z.ltb_lt, Hr].
Qed.

Lemma pending_jobs_selection_witness :
  hd false (db_faults undecodable_job_state) = false
  /\ exists jobs,
       fst (get_pending_jobs 5 undecodable_job_state) = Ok jobs
       /\ forall j, In j jobs -> status j = queued.
Proof.
  split; [reflexivity|].
  destruct (pending_jobs_selection 5 undecodable_job_state eq_refl)
    as [jobs [Hrun [_ [_ [Hin _]]]]].
  exists jobs. split; [exact Hrun|]. intros j Hj. apply (Hin j Hj).
Defined.

(** X5: the cool-down of retries.  When the select succeeds,
    [get_failed_jobs_for_retry] returns at most [limit] rows, in the same
    order, each [failed] with retries left and with [completed_at] NULL or
    more than 300 seconds before now; a job that failed within the last 300
    seconds is never returned. *)
Theorem failed_jobs_cool_down (limit : nat) (s : state) :
  hd false (db_faults s) = false ->
  exists jobs,
    fst (get_failed_jobs_for_retry limit s) = Ok jobs
    /\ length jobs <= limit
    /\ jobs_ordered jobs
    /\ (forall j, In j jobs ->
          In j (processing_queue s) /\ status j = failed
          /\ (retry_count j < max_retries j)%Z
          /\ forall t, completed_at j = Some t -> (t + 300 < clock s)%Z)
    /\ (forall j t, completed_at j = Some t -> (clock s - 300 <= t)%Z -> ~ In j jobs).
Proof.
  intros Hdb. unfold get_failed_jobs_for_retry. rewrite fetch_eq, Hdb.
  cbn [fst processing_queue with_db_faults clock].
  destruct (selection_properties (is_retryable (clock s)) limit (processing_queue s))
    as [Hlen [Hord [Hin _]]].
  assert (Hsel : forall j,
             In j (take limit (order_jobs (List.filter (is_retryable (clock s))
                                                      (processing_queue s)))) ->
             In j (processing_queue s) /\ status j = failed
             /\ (retry_count j < max_retries j)%Z
             /\ forall t, completed_at j = Some t -> (t + 300 < clock s)%Z).
  { intros j Hj. destruct (Hin j Hj) as [Hq Hp]. unfold is_retryable in Hp.
    apply andb_true_iff in Hp. destruct Hp as [Hp Hc].
    apply andb_true_iff in Hp. destruct Hp as [Hs Hr].
    split; [exact Hq|]. split; [apply status_eqb_eq, Hs|]. split; [apply Z.ltb_lt, Hr|].
    intros t Ht. rewrite Ht in Hc. apply Z.ltb_lt in Hc. lia. }
  eexists. split; [reflexivity|]. split; [exact Hlen|]. split; [exact Hord|].
  split; [exact Hsel|].
  intros j t Ht Hrecent Hj. destruct (Hsel j Hj) as [_ [_ [_ Hold]]].
  specialize (Hold t Ht). lia.
Qed.

Lemma failed_jobs_cool_down_witness :
  let s := snd (process_job example_digest example_file_id broken_transformer
                  broken_transformer (new_job 1 intake_a image 100)
                  undecodable_job_state) in
  hd false (db_faults s) = false
  /\ fst (get_failed_jobs_for_retry 3 s) = Ok []
  /\ exists jobs,
       fst (get_failed_jobs_for_retry 3 (snd (sleep 301 s))) = Ok jobs
       /\ length jobs = 1.
Proof.
  cbv zeta. split; [reflexivity|]. split.
  - destruct (failed_jobs_cool_down 3
                (snd (process_job example_digest example_file_id broken_transformer
                        broken_transformer (new_job 1 intake_a image 100)
                        undecodable_job_state)) eq_refl)
      as [jobs [Hrun [_ [_ [_ Hrecent]]]]].
    rewrite Hrun. f_equal. destruct jobs as [|j jobs]; [reflexivity|].
    exfalso. vm_compute in Hrun. inversion Hrun.
  - eexists. split; [vm_compute; reflexivity|reflexivity].
Defined.

(** ** Edge cases of the queue worker *)

Section WorkerEdgeCases.

Variable sha256_hex : bytes -> string.
Variable generate_file_id : string -> Z -> string.
Variable process_image : string -> string -> EncryptionKey -> M transform_result.
Variable process_video : string -> string -> EncryptionKey -> M transform_result.

Local Abbreviation process_job_ :=
  (process_job sha256_hex generate_file_id process_image process_video).
Local Abbreviation process_jobs_ :=
  (process_jobs sha256_hex generate_file_id process_image process_video).
Local Abbreviation worker_round_ :=
  (worker_round sha256_hex generate_file_id process_image process_video).

(** X6: a job whose file has disappeared is marked [failed] with the message
    "File not found" and is not processed: while the database answers, the
    only change is that update of the rows with its path (the media table,
    the key table and the files stay as they are, and [started_at] is not
    set). *)
Theorem missing_file_is_marked_failed (job : QueueJob) (s : state) :
  db_faults s = [] ->
  files s !! file_path job = None ->
  process_job_ job s
  = (Ok true,
     with_queue (update_rows (fun j => String.eqb (file_path j) (file_path job))
                             (set_status failed (Some "File not found") (clock s))) s).
Proof.
  intros Hdb Hfile. unfold process_job, try_except, bind, path_exists, gets.
  rewrite Hfile. cbn [negb bool_decide]. 
  replace (bool_decide (is_Some (@None bytes))) with false
    by (symmetry; apply bool_decide_eq_false; intros [x Hx]; discriminate).
  cbn [negb]. unfold update_queue_status. rewrite execute_no_faults by exact Hdb.
  reflexivity.
Qed.

(** X7: a database error while a job is being marked does not mark the job
    failed; it ends the round.  The queue is left as it was and the jobs
    after it are not touched. *)
Theorem database_error_ends_the_round (job : QueueJob) (rest : list QueueJob) (s : state) :
  hd false (db_faults s) = true ->
  process_jobs_ (job :: rest) s
  = (Ok tt, with_db_faults (fun _ => tl (db_faults s)) s).
Proof.
  intros Hdb. cbn [process_jobs]. unfold bind at 1.
  assert (H : process_job_ job s = (Ok false, with_db_faults (fun _ => tl (db_faults s)) s)).
  { unfold process_job, try_except, bind, path_exists, gets.
    destruct (negb (bool_decide (is_Some (files s !! file_path job)))).
    - unfold update_queue_status. rewrite execute_eq, Hdb. reflexivity.
    - unfold mark_job_as_processing. rewrite execute_eq, Hdb. reflexivity. }
  rewrite H. reflexivity.
Qed.

Lemma process_job_never_raises (job : QueueJob) (s : state) :
  exists b s', process_job_ job s = (Ok b, s').
Proof.
  rewrite process_job_retry_branch_dead. unfold try_except.
  match goal with
  | |- context [match ?m s with _ => _ end] => destruct (m s) as [[b|e] s']
  end; eauto.
Qed.

Lemma process_jobs_never_raise (jobs : list QueueJob) (s : state) :
  exists s', process_jobs_ jobs s = (Ok tt, s').
Proof.
  revert s. induction jobs as [|job jobs IH]; intros s; cbn [process_jobs].
  - eexists. reflexivity.
  - unfold bind. destruct (process_job_never_raises job s) as [b [s1 ->]].
    destruct b; [apply IH|eexists; reflexivity].
Qed.

(** X8: one turn of the worker loop never raises, whatever the jobs, the
    transformers and the database do.  It ends with the error counter at 0
    and a sleep of 5 seconds (a clean round) or 60 seconds (the fifth
    database error in a row), or with the counter raised by one, still below
    5, and a sleep of ten seconds per counted error. *)
Theorem worker_round_never_raises (consecutive_errors : nat) (s : state) :
  exists n secs s',
    worker_round_ consecutive_errors s = (Ok (n, secs), s')
    /\ (5 <= secs <= 60)%Z
    /\ ((n = 0 /\ (secs = 5 \/ secs = 60)%Z)
        \/ (n = S consecutive_errors /\ n < 5 /\ secs = (10 * Z.of_nat n)%Z)).
Proof.
  unfold worker_round, try_except, bind.
  unfold get_pending_jobs at 1. rewrite fetch_eq.
  destruct (hd false (db_faults s)) eqn:H1.
  { cbn [is_db_error]. destruct (5 <=? S consecutive_errors) eqn:H5.
    - do 3 eexists. split; [reflexivity|]. split; [lia|]. left. split; [reflexivity|lia].
    - apply Nat.leb_gt in H5. do 3 eexists. split; [reflexivity|]. split; [lia|].
      right. repeat split; lia. }
  unfold get_failed_jobs_for_retry at 1. rewrite fetch_eq.
  set (s1 := with_db_faults (fun _ => tl (db_faults s)) s).
  destruct (hd false (db_faults s1)) eqn:H2.
  { cbn [is_db_error]. destruct (5 <=? S consecutive_errors) eqn:H5.
    - do 3 eexists. split; [reflexivity|]. split; [lia|]. left. split; [reflexivity|lia].
    - apply Nat.leb_gt in H5. do 3 eexists. split; [reflexivity|]. split; [lia|].
      right. repeat split; lia. }
  match goal with
  | |- context [process_jobs _ _ _ _ ?jobs ?st] =>
      destruct (process_jobs_never_raise jobs st) as [s' ->]
  end.
  do 3 eexists. split; [reflexivity|]. split; [lia|]. left. split; [reflexivity|lia].
Qed.

End WorkerEdgeCases.

Lemma missing_file_is_marked_failed_witness :
  let job := new_job 1 intake_a image 100 in
  let s := with_files (delete intake_a) undecodable_job_state in
  (db_faults s = [] /\ files s !! file_path job = None)
  /\ map (fun j => (status j, error_message j, started_at j))
         (processing_queue
            (snd (process_job example_digest example_file_id broken_transformer
                    broken_transformer job s)))
     = [(failed, Some "File not found", None)].
Proof.
  cbv zeta.
  assert (Hfile : files (with_files (delete intake_a) undecodable_job_state)
                    !! file_path (new_job 1 intake_a image 100) = None)
    by (vm_compute; reflexivity).
  split; [split; [reflexivity|exact Hfile]|].
  rewrite (missing_file_is_marked_failed example_digest example_file_id
             broken_transformer broken_transformer (new_job 1 intake_a image 100)
             (with_files (delete intake_a) undecodable_job_state) eq_refl Hfile).
  reflexivity.
Defined.

Lemma database_error_ends_the_round_witness :
  let s := with_db_faults (fun _ => [true]) undecodable_job_state in
  hd false (db_faults s) = true
  /\ processing_queue
       (snd (process_jobs example_digest example_file_id broken_transformer
               broken_transformer (processing_queue s) s))
     = processing_queue undecodable_job_state.
Proof.
  cbv zeta. split; [reflexivity|].
  change (processing_queue (with_db_faults (fun _ => [true]) undecodable_job_state))
    with [new_job 1 intake_a image 100].
  rewrite (database_error_ends_the_round example_digest example_file_id
             broken_transformer broken_transformer (new_job 1 intake_a image 100) []
             (with_db_faults (fun _ => [true]) undecodable_job_state) eq_refl).
  reflexivity.
Defined.

(** ** The paths through [process_file] *)

Lemma existing_key_no_faults (s : state) (k : EncryptionKey) (b : bytes) :
  db_faults s = [] ->
  select_active_key s = Some k ->
  fromhex (key_value k) = Some b ->
  get_or_create_encryption_key s = (Ok k, with_files (insert key_file_path b) s).
Proof.
  intros Hdb Hsel Hhex. unfold get_or_create_encryption_key, bind.
  rewrite fetch_no_faults by exact Hdb. rewrite Hsel. unfold ret at 1.
  unfold _write_binary_key_file. rewrite Hhex. reflexivity.
Qed.

Section ProcessFilePaths.

Variable sha256_hex : bytes -> string.
Variable generate_file_id : string -> Z -> string.
Variable process_image : string -> string -> EncryptionKey -> M transform_result.
Variable process_video : string -> string -> EncryptionKey -> M transform_result.

Local Abbreviation process_file_ :=
  (process_file sha256_hex generate_file_id process_image process_video).

(** The state in which the transformer is started: the rows of the path are
    [processing] and the key file has been written again. *)
Local Abbreviation before_transform path b s :=
  (with_files (insert key_file_path b)
     (with_queue (update_rows (fun j => String.eqb (file_path j) path)
                              (set_status processing None (clock s))) s)).

(** [process_file] up to the choice of the transformer, for a file that is
    no duplicate, with an active key and a database that answers. *)
Lemma process_file_reaches_dispatch (path : string) (s : state) (content b : bytes)
    (k : EncryptionKey) :
  db_faults s = [] ->
  files s !! path = Some content ->
  List.find (fun a => String.eqb (file_hash a) (sha256_hex content)) (media_files s) = None ->
  select_active_key s = Some k ->
  fromhex (key_value k) = Some b ->
  process_file_body sha256_hex generate_file_id process_image process_video path s
  = bind
      (let ext := lower (path_suffix path) in
       if str_in ext image_extensions then
         let* r := process_image path (generate_file_id path (clock s)) k in ret (r, image)
       else if str_in ext video_extensions then
         let* r := process_video path (generate_file_id path (clock s)) k in ret (r, video)
       else raise (ValueError ("Unsupported file type: " +:+ ext)))
      (fun typed =>
         let* key_check :=
           fetch (fun s => List.find (fun k0 => key_id k0 =? key_id k) (encryption_keys s)) in
         match key_check with
         | None => raise (Exception "Encryption key not found in database")
         | Some _ =>
             let* now' := gets clock in
             exec save_media_metadata
                    (build_metadata (generate_file_id path (clock s)) path
                       (sha256_hex content) (snd typed) (length content) k (fst typed) now') in
             exec update_queue_status path completed None in
             unlink path
         end)
      (before_transform path b s).
Proof.
  intros Hdb Hfile Hdup Hsel Hhex.
  unfold process_file_body. unfold bind at 1.
  unfold update_queue_status at 1. rewrite execute_no_faults by exact Hdb.
  unfold bind at 1. unfold calculate_file_hash, bind at 1, read_file at 1.
  cbn [files with_queue]. rewrite Hfile. unfold ret at 1.
  unfold bind at 1. unfold check_duplicate_by_hash. rewrite fetch_no_faults by exact Hdb.
  cbn [media_files with_queue]. rewrite Hdup.
  unfold bind at 1. unfold read_file at 1. cbn [files with_queue]. rewrite Hfile.
  unfold bind at 1. unfold gets at 1. cbn [clock with_queue].
  unfold bind at 1.
  rewrite (existing_key_no_faults _ k b) by (try exact Hdb; try exact Hhex; exact Hsel).
  reflexivity.
Qed.

(** X9: a file whose suffix is in neither extension list (and is no
    duplicate) is marked [failed] with "Unsupported file type: <suffix>".
    Neither transformer runs, no asset row is written and the intake file is
    not deleted; the key file has been rewritten by then. *)
Theorem unsupported_type_is_marked_failed (path : string) (s : state)
    (content b : bytes) (k : EncryptionKey) :
  db_faults s = [] ->
  files s !! path = Some content ->
  List.find (fun a => String.eqb (file_hash a) (sha256_hex content)) (media_files s) = None ->
  select_active_key s = Some k ->
  fromhex (key_value k) = Some b ->
  eligible path = None ->
  exists s',
    process_file_ path s = (Ok tt, s')
    /\ media_files s' = media_files s
    /\ encryption_keys s' = encryption_keys s
    /\ files s' = <[key_file_path := b]> (files s)
    /\ processing_queue s'
       = update_rows (fun j => String.eqb (file_path j) path)
           (set_status failed
              (Some ("Unsupported file type: " +:+ lower (path_suffix path))) (clock s))
           (update_rows (fun j => String.eqb (file_path j) path)
              (set_status processing None (clock s)) (processing_queue s)).
Proof.
  intros Hdb Hfile Hdup Hsel Hhex Hel.
  unfold process_file, try_except.
  rewrite (process_file_reaches_dispatch path s content b k) by assumption.
  unfold eligible in Hel. cbv zeta. unfold bind at 1.
  destruct (str_in (lower (path_suffix path)) image_extensions); [discriminate|].
  destruct (str_in (lower (path_suffix path)) video_extensions); [discriminate|].
  unfold raise at 1. unfold update_queue_status. rewrite execute_no_faults by exact Hdb.
  eexists. split; [reflexivity|]. repeat split.
Qed.

Lemma dispatch_eligible (path : string) (ftype : media_type) (k : EncryptionKey)
    (id : string) (s1 : state) :
  eligible path = Some ftype ->
  (let ext := lower (path_suffix path) in
   if str_in ext image_extensions then
     let* r := process_image path id k in ret (r, image)
   else if str_in ext video_extensions then
     let* r := process_video path id k in ret (r, video)
   else raise (ValueError ("Unsupported file type: " +:+ ext))) s1
  = (let* r := transformer_for process_image process_video ftype path id k in ret (r, ftype)) s1.
Proof.
  unfold eligible. cbv zeta. intros Hel.
  destruct (str_in (lower (path_suffix path)) image_extensions).
  - injection Hel as <-. reflexivity.
  - destruct (str_in (lower (path_suffix path)) video_extensions); [|discriminate].
    injection Hel as <-. reflexivity.
Qed.

(** X10: when the transformer raises, [process_file] records the failure and
    nothing else: the rows of the path become [failed] with the text of the
    exception, no asset row is added, and no file is deleted or written
    after the transformer stopped; the call itself returns normally. *)
Theorem failed_transformation_is_recorded (path : string) (s s2 : state)
    (content b : bytes) (k : EncryptionKey) (ftype : media_type) (e : exn) :
  db_faults s = [] ->
  files s !! path = Some content ->
  List.find (fun a => String.eqb (file_hash a) (sha256_hex content)) (media_files s) = None ->
  select_active_key s = Some k ->
  fromhex (key_value k) = Some b ->
  eligible path = Some ftype ->
  transformer_for process_image process_video ftype path (generate_file_id path (clock s)) k (before_transform path b s)
    = (Raise e, s2) ->
  db_faults s2 = [] ->
  exists s',
    process_file_ path s = (Ok tt, s')
    /\ media_files s' = media_files s2
    /\ files s' = files s2
    /\ processing_queue s'
       = update_rows (fun j => String.eqb (file_path j) path)
           (set_status failed (Some (exn_str e)) (clock s2)) (processing_queue s2).
Proof.
  intros Hdb Hfile Hdup Hsel Hhex Hel Hrun Hdb2.
  unfold process_file, try_except.
  rewrite (process_file_reaches_dispatch path s content b k) by assumption.
  unfold bind at 1. rewrite (dispatch_eligible path ftype) by exact Hel.
  unfold bind at 1. rewrite Hrun.
  unfold update_queue_status. rewrite execute_no_faults by exact Hdb2.
  eexists. split; [reflexivity|]. repeat split.
Qed.

(** X11: when the transformer succeeds (and left the intake file and the
    key row in place), [process_file] appends exactly one asset row, which
    carries the digest of the file as it was read before the transformation,
    its size, the id of the active key and the transformer's paths; only
    then are the rows of the path marked [completed] with no message, and
    only then is the intake file deleted. *)
Theorem successful_processing_is_recorded (path : string) (s s2 : state)
    (content b c2 : bytes) (k k2 : EncryptionKey) (ftype : media_type)
    (r : transform_result) :
  db_faults s = [] ->
  files s !! path = Some content ->
  List.find (fun a => String.eqb (file_hash a) (sha256_hex content)) (media_files s) = None ->
  select_active_key s = Some k ->
  fromhex (key_value k) = Some b ->
  eligible path = Some ftype ->
  transformer_for process_image process_video ftype path (generate_file_id path (clock s)) k (before_transform path b s)
    = (Ok r, s2) ->
  db_faults s2 = [] ->
  files s2 !! path = Some c2 ->
  List.find (fun k0 => key_id k0 =? key_id k) (encryption_keys s2) = Some k2 ->
  exists s' asset,
    process_file_ path s = (Ok tt, s')
    /\ media_files s' = media_files s2 ++ [asset]
    /\ file_hash asset = sha256_hex content
    /\ file_size_bytes asset = length content
    /\ asset_id asset = generate_file_id path (clock s)
    /\ asset_type asset = ftype
    /\ storage_path asset = r_storage_path r
    /\ encryption_key_id asset = key_id k
    /\ In (encryption_key_id asset) (map key_id (encryption_keys s'))
    /\ files s' = delete path (files s2)
    /\ processing_queue s'
       = update_rows (fun j => String.eqb (file_path j) path)
           (set_status completed None (clock s2)) (processing_queue s2).
Proof.
  intros Hdb Hfile Hdup Hsel Hhex Hel Hrun Hdb2 Hfile2 Hkey2.
  unfold process_file, try_except.
  rewrite (process_file_reaches_dispatch path s content b k) by assumption.
  unfold bind at 1. rewrite (dispatch_eligible path ftype) by exact Hel.
  unfold bind at 1. rewrite Hrun. unfold ret at 1.
  unfold bind at 1. rewrite fetch_no_faults by exact Hdb2. rewrite Hkey2.
  unfold bind at 1. unfold gets at 1.
  unfold bind at 1. unfold save_media_metadata. rewrite execute_no_faults by exact Hdb2.
  unfold bind at 1. unfold update_queue_status. rewrite execute_no_faults by exact Hdb2.
  unfold unlink. cbn [files with_queue with_media]. rewrite Hfile2.
  do 2 eexists. split; [reflexivity|]. cbn [media_files with_files with_queue with_media].
  repeat split.
  cbn [encryption_keys with_files with_queue with_media build_metadata encryption_key_id].
  apply List.find_some in Hkey2. destruct Hkey2 as [Hin Hid].
  apply Nat.eqb_eq in Hid. rewrite <- Hid. apply in_map, Hin.
Qed.

End ProcessFilePaths.

Lemma unsupported_type_is_marked_failed_witness :
  (db_faults text_file_state = []
   /\ files text_file_state !! intake_notes = Some [x68; x69]
   /\ select_active_key text_file_state = Some example_key_row
   /\ eligible intake_notes = None)
  /\ exists s',
       process_file example_digest example_file_id example_transformer
         example_transformer intake_notes text_file_state = (Ok tt, s')
       /\ map (fun j => (status j, error_message j)) (processing_queue s')
          = [(failed, Some "Unsupported file type: .txt")]
       /\ media_files s' = [].
Proof.
  split; [repeat split|].
  destruct (unsupported_type_is_marked_failed example_digest example_file_id
              example_transformer example_transformer intake_notes text_file_state
              [x68; x69] example_key example_key_row)
    as [s' [Hrun [Hmedia [_ [_ Hqueue]]]]]; try reflexivity.
  exists s'. split; [exact Hrun|]. split; [rewrite Hqueue; reflexivity|exact Hmedia].
Defined.

Lemma failed_transformation_is_recorded_witness :
  (db_faults keyed_job_state = []
   /\ files keyed_job_state !! intake_a = Some [x00; x01; x02]
   /\ select_active_key keyed_job_state = Some example_key_row
   /\ eligible intake_a = Some image)
  /\ exists s',
       process_file example_digest example_file_id broken_transformer
         broken_transformer intake_a keyed_job_state = (Ok tt, s')
       /\ map (fun j => (status j, error_message j)) (processing_queue s')
          = [(failed, Some "cannot identify image file")]
       /\ media_files s' = []
       /\ files s' !! intake_a = Some [x00; x01; x02].
Proof.
  split; [repeat split|].
  edestruct (failed_transformation_is_recorded example_digest example_file_id
               broken_transformer broken_transformer intake_a keyed_job_state)
    as [s' [Hrun [Hmedia [Hfiles Hqueue]]]];
    [reflexivity | reflexivity | reflexivity | reflexivity | reflexivity | reflexivity
    | reflexivity | reflexivity |].
  exists s'. split; [exact Hrun|]. split; [rewrite Hqueue; reflexivity|].
  split; [exact Hmedia|rewrite Hfiles; reflexivity].
Defined.

Lemma successful_processing_is_recorded_witness :
  (db_faults keyed_job_state = []
   /\ files keyed_job_state !! intake_a = Some [x00; x01; x02]
   /\ select_active_key keyed_job_state = Some example_key_row
   /\ eligible intake_a = Some image)
  /\ exists s' asset,
       process_file example_digest example_file_id example_transformer
         example_transformer intake_a keyed_job_state = (Ok tt, s')
       /\ media_files s' = [asset]
       /\ file_hash asset = "000102"
       /\ files s' !! intake_a = None.
Proof.
  split; [repeat split|].
  edestruct (successful_processing_is_recorded example_digest example_file_id
               example_transformer example_transformer intake_a keyed_job_state)
    as [s' [asset [Hrun [Hmedia [Hhash [_ [_ [_ [_ [_ [_ [Hfiles _]]]]]]]]]]]];
    [reflexivity | reflexivity | reflexivity | reflexivity | reflexivity | reflexivity
    | reflexivity | reflexivity | reflexivity | reflexivity |].
  exists s', asset. split; [exact Hrun|]. split; [exact Hmedia|].
  split; [exact Hhash|]. rewrite Hfiles. apply lookup_delete_eq.
Defined.

(** ** Edge cases of the file encryptor *)

Lemma string_append_length (p q : string) :
  String.length (p +:+ q) = String.length p + String.length q.
Proof. induction p as [|c p IH]; simpl; [reflexivity|]. f_equal. exact IH. Qed.

Lemma enc_path_inj (p q : string) : enc_path p = enc_path q -> p = q.
Proof.
  unfold enc_path. revert q. induction p as [|c p IH]; intros [|d q] H; cbn in H.
  - reflexivity.
  - apply (f_equal String.length) in H. simpl in H. rewrite string_append_length in H.
    simpl in H. lia.
  - apply (f_equal String.length) in H. simpl in H. rewrite string_append_length in H.
    simpl in H. lia.
  - injection H as -> H. f_equal. apply IH, H.
Qed.

Section EncryptorEdgeCases.

Variable aes_block : bytes -> bytes -> bytes.

(** X12: with a key the cipher does not accept (a hexadecimal text that is
    not 16, 24 or 32 bytes long), encrypting an existing non-empty file
    raises ValueError from the placeholder branch: the plaintext is kept,
    no artifact is left at [{path}.enc] (one that was there is removed), and
    nothing is written anywhere. *)
Theorem wrong_key_length_raises (fuel : nat) (path key_hex : string) (w : world)
    (content key : bytes) :
  fs w !! path = Some content ->
  1 <= length content ->
  fs w !! sentinel_path = None ->
  fromhex key_hex = Some key ->
  valid_aes_key key = false ->
  exists w',
    encrypt_file aes_block (S (S fuel)) path key_hex w
      = (Raise (ValueError "Invalid key size for AES"), w')
    /\ fs w' = delete (enc_path path) (fs w)
    /\ fs w' !! path = Some content
    /\ fs w' !! enc_path path = None.
Proof.
  intros Hfile Hlen Hsent Hhex Hkey.
  pose proof (enc_path_not_sentinel path) as Hne.
  assert (Hplace : forall w0, fs w0 = delete (enc_path path) (fs w) ->
            exists w', encrypt_file aes_block (S fuel) sentinel_path key_hex w0
                       = (Raise (ValueError "Invalid key size for AES"), w')
                       /\ fs w' = delete (enc_path path) (fs w)).
  { intros w0 Hw0. cbn [encrypt_file]. rewrite Hw0, lookup_delete_ne by exact Hne.
    rewrite Hsent. unfold encrypt_placeholder. rewrite Hhex, Hkey.
    eexists. split; [reflexivity|exact Hw0]. }
  remember (S fuel) as fuel1 eqn:Hfuel.
  cbn [encrypt_file]. rewrite Hfile.
  destruct content as [|x content]; [simpl in Hlen; lia|].
  change (length (x :: content) =? 0) with false. cbv iota.
  rewrite Hhex. unfold os_urandom, next_outcome.
  set (n := length (x :: content)) in *.
  assert (Hres : forall w0, fs w0 = fs w ->
            exists w', encrypt_file aes_block fuel1 sentinel_path key_hex
                         (set_fs (delete (enc_path path))
                                 (add_log (LogEncryptionFailed path) w0))
                       = (Raise (ValueError "Invalid key size for AES"), w')
                       /\ fs w' = delete (enc_path path) (fs w)).
  { intros w0 Hw0. subst fuel1. apply Hplace. cbn [fs set_fs add_log]. rewrite Hw0.
    reflexivity. }
  assert (Hend : forall w', fs w' = delete (enc_path path) (fs w) ->
            fs w' !! path = Some (x :: content) /\ fs w' !! enc_path path = None).
  { intros w' ->. split.
    - rewrite lookup_delete_ne by apply enc_path_ne. exact Hfile.
    - apply lookup_delete_eq. }
  destruct (n <? 100); cbn [io_faults add_log cursor entropy fs log];
    destruct (io_faults w) as [|o rest]; try destruct o; rewrite ?Hkey;
    match goal with
    | |- context [encrypt_file aes_block fuel1 sentinel_path key_hex
                    (set_fs (delete (enc_path path))
                            (add_log (LogEncryptionFailed path) ?w0))] =>
        destruct (Hres w0 eq_refl) as [w' [Hrun Hfs]];
        exists w'; split; [exact Hrun|]; split; [exact Hfs|apply Hend, Hfs]
    end.
Qed.

(** X13: after a successful encryption the plaintext file is gone, the
    artifact is at [{path}.enc], and no other file has been created, changed
    or removed. *)
Theorem encryption_replaces_the_plaintext (fuel : nat) (path key_hex : string)
    (w : world) (content key : bytes) :
  fs w !! path = Some content ->
  1 <= length content ->
  fromhex key_hex = Some key ->
  valid_aes_key key = true ->
  hd Runs (io_faults w) = Runs ->
  exists w',
    encrypt_file aes_block (S fuel) path key_hex w = (Ok (enc_path path), w')
    /\ fs w' !! path = None
    /\ is_Some (fs w' !! enc_path path)
    /\ forall p, p <> path -> p <> enc_path path -> fs w' !! p = fs w !! p.
Proof.
  intros Hfile Hlen Hhex Hkey Hrun.
  destruct (encrypt_file_runs aes_block fuel path key_hex w content key
              Hfile Hlen Hhex Hkey Hrun) as [w' [Hrun' [Hfs _]]].
  exists w'. split; [exact Hrun'|]. rewrite Hfs. split; [apply lookup_delete_eq|]. split.
  - rewrite lookup_delete_ne by (intros E; symmetry in E; exact (enc_path_ne path E)).
    rewrite lookup_insert_eq. eexists. reflexivity.
  - intros p Hp Hq. rewrite lookup_delete_ne by congruence.
    apply lookup_insert_ne. congruence.
Qed.

(** X14: when the [try] block raises, whatever had been written to
    [{path}.enc] is removed and the plaintext is kept; with nothing at the
    path [non-existent], the call still returns normally, and what it
    returns is the path [non-existent.enc], where the placeholder now is. *)
Theorem failed_encryption_leaves_no_partial_artifact (fuel : nat)
    (path key_hex : string) (w : world) (content key : bytes) :
  fs w !! path = Some content ->
  1 <= length content ->
  hd Runs (io_faults w) <> Runs ->
  fs w !! sentinel_path = None ->
  path <> "non-existent.enc" ->
  fromhex key_hex = Some key ->
  valid_aes_key key = true ->
  exists w',
    encrypt_file aes_block (S (S fuel)) path key_hex w = (Ok "non-existent.enc", w')
    /\ fs w' !! path = Some content
    /\ fs w' !! enc_path path = None
    /\ fs w' !! "non-existent.enc" = Some (placeholder_artifact aes_block key).
Proof.
  intros Hfile Hlen Hrun Hsent Hother Hhex Hkey.
  destruct (encrypt_file_raising aes_block fuel path key_hex w content key
              Hfile Hlen Hrun Hsent Hhex Hkey) as [w' [Hrun' Hfs]].
  assert (Hps : path <> sentinel_path) by congruence.
  assert (Hne : enc_path sentinel_path <> enc_path path)
    by (intros E; apply enc_path_inj in E; congruence).
  exists w'. split; [exact Hrun'|]. rewrite Hfs. repeat split.
  - rewrite lookup_insert_ne by (intros E; apply Hother; symmetry; exact E).
    rewrite lookup_delete_ne by apply enc_path_ne. exact Hfile.
  - rewrite lookup_insert_ne by exact Hne. apply lookup_delete_eq.
  - apply lookup_insert_eq.
Qed.

End EncryptorEdgeCases.

Section PlaceholderArtifact.

Variable aes_block : bytes -> bytes -> bytes.
Hypothesis aes_block_length :
  forall key b, valid_aes_key key = true -> length b = 16 ->
                length (aes_block key b) = 16.

(** X15: for a missing plaintext file and a key the cipher accepts, the
    encryptor writes to [{path}.enc] an artifact of 64 bytes that starts
    with 16 zero bytes (the IV) followed by the encrypted padded placeholder
    image; it draws no random bytes and touches no other file. *)
Theorem missing_file_gets_the_placeholder (fuel : nat) (path key_hex : string)
    (w : world) (key : bytes) :
  fs w !! path = None ->
  fromhex key_hex = Some key ->
  valid_aes_key key = true ->
  exists w' artifact,
    encrypt_file aes_block (S fuel) path key_hex w = (Ok (enc_path path), w')
    /\ fs w' !! enc_path path = Some artifact
    /\ artifact = repeat x00 16
                  ++ cbc_encrypt aes_block key (repeat x00 16) (pkcs7_pad placeholder_webp)
    /\ length artifact = 64
    /\ cursor w' = cursor w
    /\ forall p, p <> enc_path path -> fs w' !! p = fs w !! p.
Proof.
  intros Hfile Hhex Hkey. cbn [encrypt_file]. rewrite Hfile.
  unfold encrypt_placeholder. rewrite Hhex, Hkey.
  do 2 eexists. split; [reflexivity|]. cbn [fs cursor set_fs add_log].
  split; [apply lookup_insert_eq|]. split; [reflexivity|]. split.
  - rewrite (artifact_length aes_block aes_block_length key (repeat x00 16) placeholder_webp)
      by (try exact Hkey; reflexivity).
    reflexivity.
  - split; [reflexivity|]. intros p Hp. apply lookup_insert_ne. congruence.
Qed.

End PlaceholderArtifact.

Lemma wrong_key_length_raises_witness :
  (fs small_file_world !! thumb_path = Some [x52; x49; x46]
   /\ fromhex short_key_hex = Some [x00; x01]
   /\ valid_aes_key [x00; x01] = false)
  /\ exists w',
       encrypt_file example_block 2 thumb_path short_key_hex small_file_world
         = (Raise (ValueError "Invalid key size for AES"), w')
       /\ fs w' !! thumb_path = Some [x52; x49; x46].
Proof.
  split; [repeat split|].
  destruct (wrong_key_length_raises example_block 0 thumb_path short_key_hex
              small_file_world [x52; x49; x46] [x00; x01])
    as [w' [Hrun [_ [Hkept _]]]];
    [reflexivity | simpl; lia | reflexivity | reflexivity | reflexivity |].
  exists w'. split; [exact Hrun|exact Hkept].
Defined.

Lemma encryption_replaces_the_plaintext_witness :
  (fs small_file_world !! thumb_path = Some [x52; x49; x46]
   /\ fromhex example_key_hex = Some example_key
   /\ valid_aes_key example_key = true)
  /\ exists w',
       encrypt_file example_block 1 thumb_path example_key_hex small_file_world
         = (Ok (enc_path thumb_path), w')
       /\ fs w' !! thumb_path = None.
Proof.
  split; [repeat split|].
  destruct (encryption_replaces_the_plaintext example_block 0 thumb_path example_key_hex
              small_file_world [x52; x49; x46] example_key)
    as [w' [Hrun [Hgone _]]];
    [reflexivity | simpl; lia | reflexivity | reflexivity | reflexivity |].
  exists w'. split; [exact Hrun|exact Hgone].
Defined.

Lemma failed_encryption_leaves_no_partial_artifact_witness :
  (fs failing_write_world !! thumb_path = Some [x52; x49; x46]
   /\ hd Runs (io_faults failing_write_world) <> Runs
   /\ fs failing_write_world !! sentinel_path = None)
  /\ exists w',
       encrypt_file example_block 2 thumb_path example_key_hex failing_write_world
         = (Ok "non-existent.enc", w')
       /\ fs w' !! thumb_path = Some [x52; x49; x46]
       /\ fs w' !! enc_path thumb_path = None.
Proof.
  split; [repeat split; try reflexivity; discriminate|].
  destruct (failed_encryption_leaves_no_partial_artifact example_block 0 thumb_path
              example_key_hex failing_write_world [x52; x49; x46] example_key)
    as [w' [Hrun [Hkept [Hnone _]]]];
    [reflexivity | simpl; lia | discriminate | reflexivity | discriminate
    | reflexivity | reflexivity |].
  exists w'. split; [exact Hrun|]. split; [exact Hkept|exact Hnone].
Defined.

Lemma missing_file_gets_the_placeholder_witness :
  (fs small_file_world !! "/app/assets/images/gone.webp" = None
   /\ fromhex example_key_hex = Some example_key
   /\ valid_aes_key example_key = true)
  /\ exists w' artifact,
       encrypt_file example_block 1 "/app/assets/images/gone.webp" example_key_hex
         small_file_world = (Ok "/app/assets/images/gone.webp.enc", w')
       /\ fs w' !! "/app/assets/images/gone.webp.enc" = Some artifact
       /\ length artifact = 64.
Proof.
  split; [repeat split|].
  destruct (missing_file_gets_the_placeholder example_block example_block_length 0
              "/app/assets/images/gone.webp" example_key_hex small_file_world example_key)
    as [w' [artifact [Hrun [Hfs [_ [Hlen _]]]]]]; [reflexivity..|].
  exists w', artifact. split; [exact Hrun|]. split; [exact Hfs|exact Hlen].
Defined.

(** ** What the video thumbnail protocol leaves behind *)












(** ** Hashing a file in blocks *)

Lemma read_blocks_concat (fuel : nat) (content : bytes) :
  length content <= fuel -> concat (read_blocks fuel content) = content.
Proof.
  revert content. induction fuel as [|fuel IH]; intros l H.
  - destruct l; [reflexivity|cbn [length] in H; lia].
  - destruct l as [|x l]; [reflexivity|].
    cbn [read_blocks concat]. rewrite IH.
    + apply take_drop.
    + rewrite length_drop. cbn [length] in *. lia.
Qed.

Lemma read_blocks_sizes (fuel : nat) (content : bytes) :
  Forall (fun b => 1 <= length b <= 4096) (read_blocks fuel content).
Proof.
  revert content. induction fuel as [|fuel IH]; intros l; [constructor|].
  destruct l as [|x l]; [constructor|]. cbn [read_blocks]. constructor; [|apply IH].
  rewrite length_take. cbn [length]. lia.
Qed.

Section StreamingHashFacts.

Variable hash_state : Type.
Variable sha256_new : hash_state.
Variable sha256_update : hash_state -> bytes -> hash_state.
Variable sha256_hexdigest : hash_state -> string.

(** What hashlib documents of [update]: repeated calls are equivalent to a
    single call with the concatenation of the arguments. *)
Hypothesis update_app :
  forall h a b, sha256_update (sha256_update h a) b = sha256_update h (a ++ b).
Hypothesis update_nil : forall h, sha256_update h [] = h.

Lemma fold_blocks (fuel : nat) (content : bytes) (h : hash_state) :
  length content <= fuel ->
  fold_left sha256_update (read_blocks fuel content) h = sha256_update h content.
Proof.
  revert content h. induction fuel as [|fuel IH]; intros l h H.
  - destruct l; [symmetry; apply update_nil|cbn [length] in H; lia].
  - destruct l as [|x l]; [symmetry; apply update_nil|].
    cbn [read_blocks fold_left]. rewrite IH by (rewrite length_drop; cbn [length] in *; lia).
    rewrite update_app, take_drop. reflexivity.
Qed.

(** X18: hashing a file in blocks of 4096 bytes gives the digest of the
    whole content (for an empty file, the digest of the empty string), and a
    missing file raises; the blocks fed to the hash are non-empty, at most
    4096 bytes long, and together are exactly the content. *)
Theorem hash_in_blocks_is_hash_of_content (path : string) (s : state) :
  calculate_file_hash_in_blocks hash_state sha256_new sha256_update sha256_hexdigest path s
  = calculate_file_hash (fun c => sha256_hexdigest (sha256_update sha256_new c)) path s
  /\ forall content,
       concat (file_blocks content) = content
       /\ Forall (fun b => 1 <= length b <= 4096) (file_blocks content).
Proof.
  split.
  - unfold calculate_file_hash_in_blocks, calculate_file_hash, bind, read_file.
    destruct (files s !! path) as [content|]; [|reflexivity].
    unfold ret, file_blocks. rewrite fold_blocks by lia. reflexivity.
  - intros content. split; [apply read_blocks_concat; lia|apply read_blocks_sizes].
Qed.

End StreamingHashFacts.

Lemma hash_in_blocks_is_hash_of_content_witness :
  ((forall h a b : bytes, (h ++ a) ++ b = h ++ (a ++ b))
   /\ (forall h : bytes, h ++ [] = h))
  /\ fst (calculate_file_hash_in_blocks bytes [] app hex intake_a undecodable_job_state)
     = Ok "000102".
Proof.
  assert (H1 : forall h a b : bytes, (h ++ a) ++ b = h ++ (a ++ b))
    by (intros; symmetry; apply app_assoc).
  assert (H2 : forall h : bytes, h ++ [] = h) by (intros; apply app_nil_r).
  split; [split; assumption|].
  destruct (hash_in_blocks_is_hash_of_content bytes [] app hex H1 H2 intake_a
              undecodable_job_state) as [-> _].
  reflexivity.
Defined.

(** ** Intake discovery *)

(** X19: the event handler never raises.  A directory event or a file whose
    suffix is not whitelisted changes nothing; a whitelisted file is queued
    with the type of its suffix when the insert succeeds (once: a path
    already queued stays as it is), and a database error is swallowed,
    leaving the queue as it was. *)
Theorem on_created_is_safe (is_directory : bool) (src_path : string) (s : state) :
  exists s',
    on_created is_directory src_path s = (Ok tt, s')
    /\ (is_directory = true \/ eligible src_path = None -> s' = s)
    /\ (hd false (db_faults s) = true -> processing_queue s' = processing_queue s)
    /\ (forall ftype,
          is_directory = false -> eligible src_path = Some ftype ->
          hd false (db_faults s) = false ->
          In src_path (map file_path (processing_queue s'))
          /\ (In src_path (map file_path (processing_queue s)) ->
              processing_queue s' = processing_queue s)
          /\ (~ In src_path (map file_path (processing_queue s)) ->
              processing_queue s'
              = processing_queue s
                ++ [new_job (fresh_job_id (processing_queue s)) src_path ftype (clock s)])).
Proof.
  unfold on_created. destruct is_directory.
  { exists s. split; [reflexivity|]. split; [reflexivity|]. split; [reflexivity|].
    intros ftype H. discriminate. }
  destruct (eligible src_path) as [t|].
  2:{ exists s. split; [reflexivity|]. split; [reflexivity|]. split; [reflexivity|].
      intros ftype _ H. discriminate. }
  unfold try_except, add_to_processing_queue. rewrite execute_eq.
  destruct (hd false (db_faults s)) eqn:Hdb.
  { eexists. split; [reflexivity|]. split; [intros [H|H]; discriminate|].
    split; [reflexivity|]. intros ftype _ _ H. discriminate. }
  cbn [processing_queue with_db_faults clock].
  destruct (existsb (fun j => String.eqb (file_path j) src_path) (processing_queue s))
    eqn:Hex.
  - eexists. split; [reflexivity|]. split; [intros [H|H]; discriminate|].
    split; [intros H; discriminate|]. intros ftype _ Ht _.
    cbn [processing_queue with_db_faults]. apply path_queued_iff in Hex.
    split; [exact Hex|]. split; [reflexivity|]. intros Hn. contradiction.
  - eexists. split; [reflexivity|]. split; [intros [H|H]; discriminate|].
    split; [intros H; discriminate|]. intros ftype _ Ht _. injection Ht as <-.
    cbn [processing_queue with_db_faults with_queue clock]. split; [|split].
    + rewrite map_app. apply in_or_app. right. left. reflexivity.
    + intros Hq. apply path_queued_iff in Hq. congruence.
    + intros _. reflexivity.
Qed.

Lemma find_none_existsb (path : string) (q : list QueueJob) :
  List.find (fun j => String.eqb (file_path j) path) q = None
  <-> existsb (fun j => String.eqb (file_path j) path) q = false.
Proof.
  induction q as [|j q IH]; cbn; [tauto|].
  destruct (String.eqb (file_path j) path); cbn; [split; discriminate|exact IH].
Qed.

(** One pass of the periodic scan while the database answers. *)
Lemma scan_entries_spec (entries : list string) (n : nat) (s : state) :
  db_faults s = [] ->
  exists added s',
    scan_entries entries n s = (Ok (n + length added), s')
    /\ db_faults s' = []
    /\ s' = with_queue (fun q => q ++ added) s
    /\ Forall (fun j => status j = queued /\ retry_count j = 0%Z
                        /\ In (file_path j) entries
                        /\ eligible (file_path j) = Some (file_type j)
                        /\ ~ In (file_path j) (map file_path (processing_queue s))) added
    /\ (forall p t, In p entries -> eligible p = Some t ->
                    In p (map file_path (processing_queue s ++ added))).
Proof.
  revert n s. induction entries as [|path rest IH]; intros n s Hdb.
  - exists [], s. cbn [scan_entries length]. rewrite Nat.add_0_r.
    split; [reflexivity|]. split; [exact Hdb|]. split.
    + destruct s. unfold with_queue. cbn [processing_queue media_files encryption_keys files clock db_faults random random_pos]. rewrite app_nil_r. reflexivity.
    + split; [constructor|]. intros p t [].
  - cbn [scan_entries]. destruct (eligible path) as [ftype|] eqn:Hel.
    2:{ destruct (IH n s Hdb) as [added [s' [Hrun [Hdb' [Hs' [Hadded Hall]]]]]].
        exists added, s'. split; [exact Hrun|]. split; [exact Hdb'|]. split; [exact Hs'|].
        split.
        - eapply Forall_impl; [exact Hadded|]. cbv beta.
          intros j [H1 [H2 [H3 [H4 H5]]]]. repeat split; try assumption. right. exact H3.
        - intros p t [<-|Hp] Ht; [congruence|]. eapply Hall; eassumption. }
    unfold bind at 1. unfold try_except, bind at 1.
    rewrite fetch_no_faults by exact Hdb. unfold select_job_by_path.
    destruct (List.find (fun j => String.eqb (file_path j) path) (processing_queue s))
      as [j0|] eqn:Hfind.
    + unfold ret at 1.
      destruct (IH n s Hdb) as [added [s' [Hrun [Hdb' [Hs' [Hadded Hall]]]]]].
      exists added, s'. split; [exact Hrun|]. split; [exact Hdb'|]. split; [exact Hs'|].
      split.
      * eapply Forall_impl; [exact Hadded|]. cbv beta.
        intros j [H1 [H2 [H3 [H4 H5]]]]. repeat split; try assumption. right. exact H3.
      * intros p t [<-|Hp] Ht; [|eapply Hall; eassumption].
        rewrite map_app. apply in_or_app. left. apply List.find_some in Hfind. destruct Hfind as [Hin Heq].
        apply String.eqb_eq in Heq. rewrite <- Heq. apply in_map, Hin.
    + unfold bind at 1. unfold add_to_processing_queue.
      rewrite execute_no_faults by exact Hdb.
      pose proof Hfind as Hex. apply find_none_existsb in Hex. rewrite Hex.
      unfold ret at 1.
      set (row := new_job (fresh_job_id (processing_queue s)) path ftype (clock s)).
      set (s1 := with_queue (fun q => q ++ [row]) s).
      destruct (IH (S n) s1 Hdb) as [added [s' [Hrun [Hdb' [Hs' [Hadded Hall]]]]]].
      exists (row :: added), s'. split; [|split; [exact Hdb'|split; [|split]]].
      * change (scan_entries rest (S n) s1 = (Ok (n + length (row :: added)), s')).
        rewrite Hrun. cbn [length]. do 2 f_equal. lia.
      * rewrite Hs'. unfold s1, with_queue.
        cbn [processing_queue media_files encryption_keys files clock db_faults random random_pos].
        rewrite <- app_assoc. reflexivity.
      * constructor.
        -- repeat split; try reflexivity.
           ++ left. reflexivity.
           ++ exact Hel.
           ++ cbn [row new_job file_path]. intros Hq. apply path_queued_iff in Hq. congruence.
        -- eapply Forall_impl; [exact Hadded|]. cbv beta.
           intros j [H1 [H2 [H3 [H4 H5]]]]. repeat split; try assumption.
           ++ right. exact H3.
           ++ intros Hq. apply H5. unfold s1. cbn [processing_queue with_queue].
              rewrite map_app. apply in_or_app. left. exact Hq.
      * intros p t [<-|Hp] Ht.
        -- rewrite map_app. apply in_or_app. right. left. reflexivity.
        -- specialize (Hall p t Hp Ht). unfold s1 in Hall.
           cbn [processing_queue with_queue] in Hall. rewrite <- app_assoc in Hall.
           exact Hall.
Qed.

(** One pass of the periodic scan, whatever the database does. *)
Lemma scan_entries_general (entries : list string) (n : nat) (s : state) :
  exists added s',
    scan_entries entries n s = (Ok (n + length added), s')
    /\ processing_queue s' = processing_queue s ++ added
    /\ (media_files s' = media_files s /\ encryption_keys s' = encryption_keys s
        /\ files s' = files s /\ clock s' = clock s)
    /\ Forall (fun j => status j = queued /\ retry_count j = 0%Z
                        /\ In (file_path j) entries
                        /\ eligible (file_path j) = Some (file_type j)
                        /\ ~ In (file_path j) (map file_path (processing_queue s))) added.
Proof.
  revert n s. induction entries as [|path rest IH]; intros n s.
  - exists [], s. cbn [scan_entries length]. rewrite Nat.add_0_r, app_nil_r.
    repeat split. constructor.
  - assert (Hkeep : forall k st,
              processing_queue st = processing_queue s ->
              (media_files st = media_files s /\ encryption_keys st = encryption_keys s
               /\ files st = files s /\ clock st = clock s) ->
              exists added s',
                scan_entries rest k st = (Ok (k + length added), s')
                /\ processing_queue s' = processing_queue s ++ added
                /\ (media_files s' = media_files s /\ encryption_keys s' = encryption_keys s
                    /\ files s' = files s /\ clock s' = clock s)
                /\ Forall (fun j => status j = queued /\ retry_count j = 0%Z
                             /\ In (file_path j) (path :: rest)
                             /\ eligible (file_path j) = Some (file_type j)
                             /\ ~ In (file_path j) (map file_path (processing_queue s)))
                          added).
    { intros k st Hq [Hm [Hk [Hf Hc]]].
      destruct (IH k st) as [added [s' [Hrun [Hq' [[Hm' [Hk' [Hf' Hc']]] Hadded]]]]].
      exists added, s'. split; [exact Hrun|]. split; [congruence|].
      split; [repeat split; congruence|].
      eapply Forall_impl; [exact Hadded|]. cbv beta.
      intros j [H1 [H2 [H3 [H4 H5]]]]. repeat split; try assumption.
      - right. exact H3.
      - rewrite <- Hq. exact H5. }
    cbn [scan_entries]. destruct (eligible path) as [ftype|] eqn:Hel.
    2:{ apply Hkeep; repeat split; reflexivity. }
    unfold bind at 1. unfold try_except, bind at 1. rewrite fetch_eq.
    destruct (hd false (db_faults s)).
    { unfold ret at 1. apply Hkeep; repeat split; reflexivity. }
    unfold select_job_by_path. cbn [processing_queue with_db_faults].
    destruct (List.find (fun j => String.eqb (file_path j) path) (processing_queue s))
      as [j0|] eqn:Hfind.
    { unfold ret at 1. apply Hkeep; repeat split; reflexivity. }
    unfold bind at 1. unfold add_to_processing_queue. rewrite execute_eq.
    cbn [db_faults with_db_faults].
    destruct (hd false (tl (db_faults s))).
    { unfold ret at 1. apply Hkeep; repeat split; reflexivity. }
    cbn [processing_queue with_db_faults clock].
    pose proof Hfind as Hex. apply find_none_existsb in Hex. rewrite Hex.
    unfold ret at 1.
    set (row := new_job (fresh_job_id (processing_queue s)) path ftype (clock s)).
    match goal with
    | |- context [scan_entries rest (S n) ?st] =>
        destruct (IH (S n) st) as [added [s' [Hrun [Hq' [[Hm' [Hk' [Hf' Hc']]] Hadded]]]]]
    end.
    cbn [processing_queue media_files encryption_keys files clock with_queue with_db_faults]
      in Hq', Hm', Hk', Hf', Hc', Hadded.
    exists (row :: added), s'. split; [|split; [|split; [|constructor]]].
    + rewrite Hrun. cbn [length]. do 2 f_equal. lia.
    + rewrite Hq'. rewrite <- app_assoc. reflexivity.
    + repeat split; assumption.
    + repeat split; try reflexivity.
      * left. reflexivity.
      * exact Hel.
      * cbn [row new_job file_path]. intros Hq. apply path_queued_iff in Hq. congruence.
    + eapply Forall_impl; [exact Hadded|]. cbv beta.
      intros j [H1 [H2 [H3 [H4 H5]]]]. repeat split; try assumption.
      * right. exact H3.
      * intros Hq. apply H5. rewrite map_app. apply in_or_app. left. exact Hq.
Qed.

(** X20: a pass of the periodic scan never raises, whatever the database
    does; the number it reports is the number of rows it added; the rows
    that were in the queue stay in front, unchanged, and nothing else of the
    database or of the files changes; every row added is a queued row with
    no retries for a whitelisted entry of the directory that had no row
    before. *)
Theorem periodic_scan_reports_what_it_adds (entries : list string) (s : state) :
  exists added s',
    scan_entries entries 0 s = (Ok (length added), s')
    /\ processing_queue s' = processing_queue s ++ added
    /\ media_files s' = media_files s
    /\ encryption_keys s' = encryption_keys s
    /\ files s' = files s
    /\ clock s' = clock s
    /\ Forall (fun j => status j = queued /\ retry_count j = 0%Z
                        /\ In (file_path j) entries
                        /\ eligible (file_path j) = Some (file_type j)
                        /\ ~ In (file_path j) (map file_path (processing_queue s))) added.
Proof.
  destruct (scan_entries_general entries 0 s)
    as [added [s' [Hrun [Hq [[Hm [Hk [Hf Hc]]] Hadded]]]]].
  exists added, s'. repeat split; assumption.
Qed.

(** A pass over entries that all have their row changes nothing. *)
Lemma scan_entries_nothing_new (entries : list string) (n : nat) (s : state) :
  db_faults s = [] ->
  (forall p t, In p entries -> eligible p = Some t ->
               In p (map file_path (processing_queue s))) ->
  scan_entries entries n s = (Ok n, s).
Proof.
  intros Hdb. induction entries as [|path rest IH]; intros Hall; [reflexivity|].
  cbn [scan_entries]. destruct (eligible path) as [ftype|] eqn:Hel.
  2:{ apply IH. intros p t Hp. apply Hall. right. exact Hp. }
  unfold bind at 1. unfold try_except, bind at 1.
  rewrite fetch_no_faults by exact Hdb. unfold select_job_by_path.
  destruct (List.find (fun j => String.eqb (file_path j) path) (processing_queue s))
    as [j0|] eqn:Hfind.
  - unfold ret at 1. apply IH. intros p t Hp. apply Hall. right. exact Hp.
  - exfalso. apply find_none_existsb in Hfind.
    assert (Hin : In path (map file_path (processing_queue s)))
      by (apply (Hall path ftype); [left; reflexivity|exact Hel]).
    apply path_queued_iff in Hin. congruence.
Qed.

(** X21: while the database answers, a pass of the periodic scan leaves a
    row for every whitelisted entry of the directory, and a second pass over
    the same entries finds nothing new and changes nothing. *)
Theorem periodic_scan_is_complete_and_idempotent (entries : list string) (s : state) :
  db_faults s = [] ->
  exists found s',
    scan_entries entries 0 s = (Ok found, s')
    /\ (forall p t, In p entries -> eligible p = Some t ->
                    In p (map file_path (processing_queue s')))
    /\ scan_entries entries 0 s' = (Ok 0, s').
Proof.
  intros Hdb.
  destruct (scan_entries_spec entries 0 s Hdb)
    as [added [s' [Hrun [Hdb' [Hs' [Hadded Hall]]]]]].
  exists (length added), s'. split; [exact Hrun|].
  assert (Hq : processing_queue s' = processing_queue s ++ added)
    by (rewrite Hs'; reflexivity).
  assert (Hall' : forall p t, In p entries -> eligible p = Some t ->
                              In p (map file_path (processing_queue s')))
    by (intros p t Hp Ht; rewrite Hq; eapply Hall; eassumption).
  split; [exact Hall'|]. apply scan_entries_nothing_new; assumption.
Qed.

Lemma periodic_scan_is_complete_and_idempotent_witness :
  db_faults keyed_job_state = []
  /\ exists found s',
       scan_entries [intake_a; intake_notes; intake_clip] 0 keyed_job_state
       = (Ok found, s')
       /\ (forall p t, In p [intake_a; intake_notes; intake_clip] ->
                       eligible p = Some t ->
                       In p (map file_path (processing_queue s')))
       /\ scan_entries [intake_a; intake_notes; intake_clip] 0 s' = (Ok 0, s').
Proof.
  split; [reflexivity|].
  apply (periodic_scan_is_complete_and_idempotent
           [intake_a; intake_notes; intake_clip] keyed_job_state).
  reflexivity.
Defined.

(** One entry of the periodic scan and of the start-up loop while the
    database answers. *)
Lemma scan_entries_step (path : string) (rest : list string) (ftype : media_type)
    (m : nat) (s : state) :
  db_faults s = [] -> eligible path = Some ftype ->
  scan_entries (path :: rest) m s
  = if existsb (fun j => String.eqb (file_path j) path) (processing_queue s)
    then scan_entries rest m s
    else scan_entries rest (S m)
           (with_queue (fun q => q ++ [new_job (fresh_job_id q) path ftype (clock s)]) s).
Proof.
  intros Hdb Hel. cbn [scan_entries]. rewrite Hel.
  unfold bind at 1. unfold try_except, bind at 1.
  rewrite fetch_no_faults by exact Hdb. unfold select_job_by_path.
  destruct (List.find (fun j => String.eqb (file_path j) path) (processing_queue s))
    as [j0|] eqn:Hfind.
  - assert (Hex : existsb (fun j => String.eqb (file_path j) path) (processing_queue s)
                  = true).
    { destruct (existsb _ _) eqn:E; [reflexivity|].
      apply find_none_existsb in E. congruence. }
    rewrite Hex. reflexivity.
  - pose proof Hfind as Hex. apply find_none_existsb in Hex. rewrite Hex.
    unfold bind at 1. unfold add_to_processing_queue.
    rewrite execute_no_faults by exact Hdb. rewrite Hex. reflexivity.
Qed.

Lemma startup_enqueue_step (path : string) (rest : list string) (ftype : media_type)
    (n : nat) (s : state) :
  db_faults s = [] -> eligible path = Some ftype ->
  startup_enqueue (path :: rest) n s
  = startup_enqueue rest (S n)
      (if existsb (fun j => String.eqb (file_path j) path) (processing_queue s)
       then s
       else with_queue (fun q => q ++ [new_job (fresh_job_id q) path ftype (clock s)]) s).
Proof.
  intros Hdb Hel. cbn [startup_enqueue]. rewrite Hel.
  unfold bind at 1. unfold try_except, bind at 1. unfold add_to_processing_queue.
  rewrite execute_no_faults by exact Hdb. reflexivity.
Qed.

(** The start-up loop while the database answers. *)
Lemma startup_enqueue_spec (entries : list string) (n m : nat) (s : state) :
  db_faults s = [] ->
  exists s',
    startup_enqueue entries n s
    = (Ok (n + length (List.filter (fun p => bool_decide (eligible p <> None)) entries)), s')
    /\ snd (scan_entries entries m s) = s'.
Proof.
  revert n m s. induction entries as [|path rest IH]; intros n m s Hdb.
  - exists s. cbn. rewrite Nat.add_0_r. split; reflexivity.
  - destruct (eligible path) as [ftype|] eqn:Hel.
    2:{ cbn [startup_enqueue scan_entries List.filter]. rewrite Hel.
        rewrite bool_decide_eq_false_2 by (intros H; apply H; reflexivity).
        apply IH. exact Hdb. }
    rewrite (startup_enqueue_step path rest ftype n s Hdb Hel).
    rewrite (scan_entries_step path rest ftype m s Hdb Hel).
    cbn [List.filter]. rewrite Hel. rewrite bool_decide_eq_true_2 by discriminate.
    destruct (existsb (fun j => String.eqb (file_path j) path) (processing_queue s)).
    + destruct (IH (S n) m s Hdb) as [s' [Hrun Hscan]].
      exists s'. split; [|exact Hscan]. rewrite Hrun. cbn [length]. do 2 f_equal. lia.
    + match goal with
      | |- context [startup_enqueue rest (S n) ?st] =>
          destruct (IH (S n) (S m) st Hdb) as [s' [Hrun Hscan]]
      end.
      exists s'. split; [|exact Hscan]. rewrite Hrun. cbn [length]. do 2 f_equal. lia.
Qed.

(** X22: while the database answers, the loop of [main] over the files found
    at start-up leaves the database exactly as a pass of the periodic scan
    over the same entries does, but what it counts is every whitelisted
    entry, those that already had a row included. *)
Theorem startup_scan_matches_periodic_scan (entries : list string) (s : state) :
  db_faults s = [] ->
  exists s',
    startup_enqueue entries 0 s
    = (Ok (length (List.filter (fun p => bool_decide (eligible p <> None)) entries)), s')
    /\ snd (scan_entries entries 0 s) = s'.
Proof.
  intros Hdb. destruct (startup_enqueue_spec entries 0 0 s Hdb) as [s' [Hrun Hscan]].
  exists s'. split; assumption.
Qed.

Lemma startup_scan_matches_periodic_scan_witness :
  db_faults keyed_job_state = []
  /\ exists s',
       startup_enqueue [intake_a; intake_notes; intake_clip] 0 keyed_job_state
       = (Ok 2, s')
       /\ snd (scan_entries [intake_a; intake_notes; intake_clip] 0 keyed_job_state) = s'.
Proof.
  split; [reflexivity|].
  apply (startup_scan_matches_periodic_scan
           [intake_a; intake_notes; intake_clip] keyed_job_state).
  reflexivity.
Defined.

(** X23: one turn of the scanner loop never raises and ends with a sleep of
    10 to 120 seconds.  Before the minute is over it only sleeps 10 seconds;
    a completed listing moves [last_scan_time] to the time of the scan and
    resets the error count; a listing that raises keeps [last_scan_time],
    so that the next turn scans again, and sleeps 30 seconds for each
    consecutive error, or 120 seconds at the fifth, which resets the count.
    Rows of the queue are only ever added at the end. *)
Theorem scanner_turn_backs_off (entries : list string) (listing_fails : bool)
    (last_scan_time : Z) (consecutive_errors : nat) (s : state) :
  consecutive_errors < 5 ->
  exists last' errors' s',
    scanner_turn entries listing_fails last_scan_time consecutive_errors s
    = (Ok (last', errors'), s')
    /\ errors' < 5
    /\ (clock s + 10 <= clock s' <= clock s + 120)%Z
    /\ (exists added, processing_queue s' = processing_queue s ++ added)
    /\ ((clock s - last_scan_time < 60)%Z ->
        last' = last_scan_time /\ errors' = consecutive_errors
        /\ clock s' = (clock s + 10)%Z /\ processing_queue s' = processing_queue s)
    /\ ((60 <= clock s - last_scan_time)%Z -> listing_fails = false ->
        last' = clock s /\ errors' = 0 /\ clock s' = (clock s + 10)%Z)
    /\ ((60 <= clock s - last_scan_time)%Z -> listing_fails = true ->
        last' = last_scan_time
        /\ errors' = (if consecutive_errors <? 4 then S consecutive_errors else 0)
        /\ clock s' = (clock s + (if (consecutive_errors <? 4)%nat
                                  then 30 * (Z.of_nat consecutive_errors + 1)
                                  else 120))%Z).
Proof.
  intros Herr. unfold scanner_turn. unfold bind at 1. unfold gets at 1.
  destruct (60 <=? clock s - last_scan_time)%Z eqn:Hdue.
  2:{ apply Z.leb_gt in Hdue.
      eexists _, _, _. split; [reflexivity|].
      cbn [clock with_clock processing_queue sleep modify].
      split; [exact Herr|]. split; [lia|]. split; [exists []; rewrite app_nil_r; reflexivity|].
      split; [intros _; repeat split|]. split; intros H; lia. }
  apply Z.leb_le in Hdue.
  destruct (scan_entries_general entries 0 s)
    as [added [s1 [Hrun [Hq [[Hm [Hk [Hf Hc]]] Hadded]]]]].
  unfold bind at 1. rewrite Hrun. destruct listing_fails.
  - destruct (5 <=? S consecutive_errors) eqn:Hmax.
    + apply Nat.leb_le in Hmax.
      assert (Hlt : (consecutive_errors <? 4) = false) by (apply Nat.ltb_ge; lia).
      eexists _, _, _. split; [reflexivity|].
      cbn [clock with_clock processing_queue sleep modify]. rewrite Hc, Hq, Hlt.
      split; [lia|]. split; [lia|]. split; [exists added; reflexivity|].
      split; [intros H; lia|]. split; [intros _ H; discriminate|].
      intros _ _. repeat split.
    + apply Nat.leb_gt in Hmax.
      assert (Hlt : (consecutive_errors <? 4) = true) by (apply Nat.ltb_lt; lia).
      eexists _, _, _. split; [reflexivity|].
      cbn [clock with_clock processing_queue sleep modify]. rewrite Hc, Hq, Hlt.
      split; [lia|]. split; [lia|]. split; [exists added; reflexivity|].
      split; [intros H; lia|]. split; [intros _ H; discriminate|].
      intros _ _. repeat split. lia.
  - eexists _, _, _. split; [reflexivity|].
    cbn [clock with_clock processing_queue sleep modify]. rewrite Hc, Hq.
    split; [lia|]. split; [lia|]. split; [exists added; reflexivity|].
    split; [intros H; lia|]. split; [intros _ _; repeat split|].
    intros _ H. discriminate.
Qed.

Lemma scanner_turn_backs_off_witness :
  3 < 5
  /\ exists last' errors' s',
       scanner_turn [intake_clip] true 0 3 keyed_job_state = (Ok (last', errors'), s')
       /\ errors' = 4 /\ clock s' = 220%Z /\ last' = 0%Z
       /\ length (processing_queue s') = 2.
Proof.
  split; [lia|].
  destruct (scanner_turn_backs_off [intake_clip] true 0 3 keyed_job_state)
    as [last' [errors' [s' [Hrun [_ [_ [_ [_ [_ Hfail]]]]]]]]]; [lia|].
  destruct Hfail as [Hlast [Herrors Hclock]]; [vm_compute; discriminate|reflexivity|].
  exists last', errors', s'. split; [exact Hrun|].
  split; [exact Herrors|]. split; [exact Hclock|]. split; [exact Hlast|].
  assert (Hs : snd (scanner_turn [intake_clip] true 0 3 keyed_job_state) = s')
    by (rewrite Hrun; reflexivity).
  rewrite <- Hs. vm_compute. reflexivity.
Defined.

(** ** Connections *)

(** X24: [_get_connection] probes the database at most three times and
    sleeps at most 6 seconds (2, then 4).  When it returns a connection the
    pool is in place, and a healthy pool answers at the first probe without
    any sleep.  When it raises, the pool has been torn down, it has slept
    the full 6 seconds, and the error is the one of the last attempt: the
    final "Could not establish database connection after retries" is never
    raised. *)
Theorem connection_attempts_are_bounded (c : conn_state) :
  let r := _get_connection c in
  probes c <= probes (snd r) <= probes c + 3
  /\ (slept c <= slept (snd r) <= slept c + 6)%Z
  /\ (fst r = Ok tt -> pool (snd r) = true /\ probes c < probes (snd r))
  /\ (fst r <> Ok tt ->
      pool (snd r) = false /\ slept (snd r) = (slept c + 6)%Z
      /\ fst r <> Raise (DatabaseError
                           "Could not establish database connection after retries"))
  /\ (pool c = true -> hd false (probe_results c) = true ->
      r = (Ok tt, snd (pool_probe c))).
Proof.
  destruct c as [p cr pr sl pb]. unfold _get_connection, max_connection_retries.
  destruct p; cbn;
    repeat (match goal with
            | |- context [hd false ?l] => destruct (hd false l) eqn:?
            end; cbn);
    unfold retry_delay; repeat split; intros; try lia; try congruence;
    try discriminate.
Qed.
